(** * configcraft: hierarchical configuration inheritance and deep merge

    A shallow embedding of [configcraft/inherit.py] ([make_type_error],
    [inherit_value], [apply_inheritance]) and a model of [deep_merge],
    with the properties the specification states about them.

    Modelling conventions.
    - A configuration tree is a JSON-like value: a scalar, a [dict] or a
      [list].  A Python [dict] is an insertion-ordered map; the iteration
      order decides which exception is raised first and what has been
      mutated by then, so a [dict] is an association list in insertion
      order.  The keys of a Python [dict] are unique ([wf_node]); no
      property below needs it, and [inherit_value] preserves it.
    - The source mutates [data] in place and returns [None] or raises.
      Here every procedure returns the outcome together with the final
      contents of [data], so the state left behind by a call that raised
      is available too.
    - Containers are objects.  [setdefault] stores the object it is given,
      so one default is one and the same object at every target it
      reaches, and what a later default adds to it through one target
      shows at all of them.  [apply_inheritance], which applies many
      defaults, is therefore modelled on a store of objects
      ([inherit_value_upto], [apply_inheritance_upto]): the tree is loaded
      into the store, the procedures of the source run there, and the tree
      is read back.  One call of [inherit_value] on a tree without sharing
      never looks into the default it is storing, and is modelled on the
      tree itself.
    - The general properties of [apply_inheritance] are proved for the
      trees whose Shared Sections hold scalar defaults.  There the run on
      the store is the run on the tree in which every target receives a
      copy ([by_value_is_exact]), and this one goes by induction on the
      tree.  Closed examples are evaluated on the store. *)

From Stdlib Require Import String Ascii List Bool Arith Lia ZArith.
Import ListNotations.
Local Open Scope string_scope.
Local Open Scope list_scope.
Set Warnings "-register-all".

(** ** Data model *)

Inductive scalar : Type :=
| SNone
| SBool (b : bool)
| SInt (z : Z)
| SStr (s : string).

Inductive node : Type :=
| Scalar (s : scalar)
| Mapping (kvs : list (string * node))
| Sequence (items : list node).

(** The exceptions the engine can raise.  [TypeError] carries what the
    message is built from. *)
Inductive type_error_info : Type :=
| NotDictOrListOfDict (shown_prefix prefix key : string)
| NotSubscriptable.

Inductive exn : Type :=
| ValueError
| TypeError (info : type_error_info)
| KeyError (key : string)
| IndexError
| AttributeError
| RecursionError.

Inductive result : Type :=
| Returned
| Raised (e : exn).

(** Induction over trees, with the hypothesis available for every child. *)
Section NodeInduction.
Variable P : node -> Prop.
Hypothesis HScalar : forall s, P (Scalar s).
Hypothesis HMapping :
    forall kvs, Forall (fun kv => P (snd kv)) kvs -> P (Mapping kvs).
Hypothesis HSequence : forall items, Forall P items -> P (Sequence items).

Fixpoint node_induction (n : node) : P n :=
    match n with
    | Scalar s => HScalar s
    | Mapping kvs =>
        HMapping kvs
          ((fix go (l : list (string * node)) : Forall (fun kv => P (snd kv)) l :=
              match l with
              | [] => Forall_nil _
              | kv :: tl => Forall_cons kv (node_induction (snd kv)) (go tl)
              end) kvs)
    | Sequence items =>
        HSequence items
          ((fix go (l : list node) : Forall P l :=
              match l with
              | [] => Forall_nil _
              | x :: tl => Forall_cons x (node_induction x) (go tl)
              end) items)
    end.
End NodeInduction.

(** ** Strings: [str.endswith], [str.split], [str.join] *)

Definition SHARED : string := "_shared".

Fixpoint endswith_char (s : string) (c : ascii) : bool :=
  match s with
  | EmptyString => false
  | String a EmptyString => Ascii.eqb a c
  | String _ s' => endswith_char s' c
  end.

(** [path.endswith("*")] *)
Definition endswith_star (path : string) : bool := endswith_char path "*"%char.

(** [s.split(sep)] for a one-character separator: never the empty list. *)
Fixpoint split (sep : ascii) (s : string) : list string :=
  match s with
  | EmptyString => [""]
  | String c s' =>
      if Ascii.eqb c sep then "" :: split sep s'
      else match split sep s' with
           | [] => [String c ""]
           | p :: ps => String c p :: ps
           end
  end.

(** [sep.join(parts)] *)
Fixpoint join (sep : string) (parts : list string) : string :=
  match parts with
  | [] => ""
  | [p] => p
  | p :: ps => (p ++ sep ++ join sep ps)%string
  end.

(** ** Dictionaries *)

Section Dict.
Context {V : Type}.

Fixpoint dict_get (k : string) (kvs : list (string * V)) : option V :=
    match kvs with
    | [] => None
    | (k', v) :: tl => if String.eqb k' k then Some v else dict_get k tl
    end.

Definition dict_mem (k : string) (kvs : list (string * V)) : bool :=
    match dict_get k kvs with Some _ => true | None => false end.

  (** [d.setdefault(k, v)]: a new key goes last in insertion order. *)
Definition setdefault (k : string) (v : V) (kvs : list (string * V))
    : list (string * V) :=
    if dict_mem k kvs then kvs else kvs ++ [(k, v)].

  (** [d.pop(k)] for a key that is present: what is left of [d]. *)
Definition dict_pop (k : string) (kvs : list (string * V))
    : list (string * V) :=
    filter (fun kv => negb (String.eqb (fst kv) k)) kvs.

Definition keys (kvs : list (string * V)) : list string := map fst kvs.
End Dict.

(** ** Loops that mutate their elements in place and stop at the first
    exception: what was visited keeps its mutation, the rest is untouched. *)

Section Loops.
Context {A : Type}.
Variable f : A -> result * A.

Fixpoint for_each (l : list A) : result * list A :=
    match l with
    | [] => (Returned, [])
    | x :: tl =>
        let (r, x') := f x in
        match r with
        | Returned => let (r', tl') := for_each tl in (r', x' :: tl')
        | Raised e => (Raised e, x' :: tl)
        end
    end.
End Loops.

Section DictLoops.
Variable f : node -> result * node.

  (** [f(data[key])]: a missing key is a [KeyError]. *)
Fixpoint at_key (key : string) (kvs : list (string * node))
    : result * list (string * node) :=
    match kvs with
    | [] => (Raised (KeyError key), [])
    | (k, v) :: tl =>
        if String.eqb k key then
          let (r, v') := f v in (r, (k, v') :: tl)
        else
          let (r, tl') := at_key key tl in (r, (k, v) :: tl')
    end.

  (** [f(item[key])] for an element of a list: subscripting anything but
      a dict with a string raises Python's own [TypeError]. *)
Definition at_item_key (key : string) (item : node) : result * node :=
    match item with
    | Mapping ikvs => let (r, ikvs') := at_key key ikvs in (r, Mapping ikvs')
    | _ => (Raised (TypeError NotSubscriptable), item)
    end.
End DictLoops.

(** ** [inherit.py] *)

(** [make_type_error(prefix, key)]: the root is shown as a dot. *)
Definition make_type_error (prefix key : string) : exn :=
  let _prefix := if String.eqb prefix "" then "." else prefix in
  TypeError (NotDictOrListOfDict _prefix prefix key).

(** The body of [for k, v in data.items()]: the reserved key is skipped. *)
Definition star_field (rec : node -> result * node) (kv : string * node)
  : result * (string * node) :=
  let (k, v) := kv in
  if negb (String.eqb k SHARED) then
    let (r, v') := rec v in (r, (k, v'))
  else (Returned, (k, v)).

(** [_prefix] once [None] has been replaced by the empty string, and the
    prefix handed to the recursive calls, [f"{_prefix}.{key}"]. *)
Definition prefix_of (_prefix : option string) : string :=
  match _prefix with None => "" | Some p => p end.

Definition child_prefix (_prefix : option string) (key : string)
  : option string :=
  Some (prefix_of _prefix ++ "." ++ key)%string.

(** [item.setdefault(parts[0], value)] inside [for item in data]. *)
Definition setdefault_item (prefix key : string) (value : node) (item : node)
  : result * node :=
  match item with
  | Mapping ikvs => (Returned, Mapping (setdefault key value ikvs))
  | _ => (Raised (make_type_error prefix key), item)
  end.

(** [inherit_value(path, value, data, _prefix=None)].  The recursion is
    the one of the source: each call checks the end of the path it is
    given, splits it again, and hands the joined remainder to the calls on
    the children; it is structural on [data]. *)
Fixpoint inherit_value (path : string) (value : node) (data : node)
    (_prefix : option string) {struct data} : result * node :=
  if endswith_star path then (Raised ValueError, data)
  else
    let prefix := prefix_of _prefix in
    match split "." path with
    | [] => (Raised IndexError, data)
    | [leaf] =>
        match data with
        | Mapping kvs => (Returned, Mapping (setdefault leaf value kvs))
        | Sequence items =>
            let (r, items') := for_each (setdefault_item prefix leaf value) items in
            (r, Sequence items')
        | Scalar _ => (Raised (make_type_error prefix leaf), data)
        end
    | key :: rest =>
        let sub := join "." rest in
        let prefix' := child_prefix _prefix key in
        if String.eqb key "*" then
          match data with
          | Mapping kvs =>
              let (r, kvs') :=
                for_each
                  (star_field (fun v => inherit_value sub value v prefix'))
                  kvs in
              (r, Mapping kvs')
          | _ => (Raised AttributeError, data)
          end
        else
          match data with
          | Mapping kvs =>
              let (r, kvs') :=
                at_key (fun v => inherit_value sub value v prefix') key kvs in
              (r, Mapping kvs')
          | Sequence items =>
              let (r, items') :=
                for_each
                  (at_item_key (fun v => inherit_value sub value v prefix') key)
                  items in
              (r, Sequence items')
          | Scalar _ => (Raised (make_type_error prefix key), data)
          end
    end.

(** [apply_inheritance(value)] on a field of [data] or an element of a
    list: only a dict is visited. *)
Definition resolve_item (rec : node -> result * node) (item : node)
  : result * node :=
  match item with
  | Mapping _ => rec item
  | _ => (Returned, item)
  end.

Definition resolve_field (rec : node -> result * node) (kv : string * node)
  : result * (string * node) :=
  let (key, value) := kv in
  if String.eqb key SHARED then (Returned, (key, value))
  else
    match value with
    | Mapping _ => let (r, value') := rec value in (r, (key, value'))
    | Sequence items =>
        let (r, items') := for_each (resolve_item rec) items in
        (r, (key, Sequence items'))
    | Scalar _ => (Returned, (key, value))
    end.

(** ** [inherit.py] on a store

    Python's containers are objects: a [dict] or a [list] is reached
    through a reference, and [setdefault(key, value)] stores the reference
    it is given, so that one default is one and the same object at every
    target it reaches, and what a later default adds to it through one
    target shows at all of them.  A store maps addresses to objects; the
    procedures below are those of [inherit.py] acting on it.  None of them
    creates a container, so a run allocates nothing. *)

Definition loc : Type := nat.

(** A value: an immutable scalar, or a reference to a container. *)
Inductive val : Type :=
| VScalar (s : scalar)
| VRef (l : loc).

Inductive obj : Type :=
| ODict (entries : list (string * val))
| OList (items : list val).

Definition store : Type := list obj.

(** The object at address [l] is replaced. *)
Fixpoint update (h : store) (l : loc) (o : obj) : store :=
  match h, l with
  | [], _ => []
  | _ :: tl, 0 => o :: tl
  | x :: tl, S l' => x :: update tl l' o
  end.

(** [isinstance(v, dict)] and [isinstance(v, list)], with the contents of
    the container. *)
Inductive kind : Type :=
| KDict (l : loc) (entries : list (string * val))
| KList (l : loc) (items : list val)
| KOther.

Definition kind_of (h : store) (v : val) : kind :=
  match v with
  | VRef l =>
      match nth_error h l with
      | Some (ODict entries) => KDict l entries
      | Some (OList items) => KList l items
      | None => KOther
      end
  | VScalar _ => KOther
  end.

(** A [for] loop whose body acts on the store: it stops at the first
    exception, and what was done before stays done. *)
Section StoreLoops.
Context {A : Type}.
Variable body : A -> store -> result * store.

Fixpoint for_in (xs : list A) (h : store) : result * store :=
    match xs with
    | [] => (Returned, h)
    | x :: tl =>
        let (r, h1) := body x h in
        match r with
        | Returned => for_in tl h1
        | Raised e => (Raised e, h1)
        end
    end.
End StoreLoops.

(** [item.setdefault(parts[0], value)] inside [for item in data]. *)
Definition store_setdefault_item (prefix key : string) (value : val)
    (item : val) (h : store) : result * store :=
  match kind_of h item with
  | KDict l entries => (Returned, update h l (ODict (setdefault key value entries)))
  | _ => (Raised (make_type_error prefix key), h)
  end.

(** The body of [for k, v in data.items()]. *)
Definition store_star_field (rec : val -> store -> result * store)
    (kv : string * val) (h : store) : result * store :=
  let (k, v) := kv in
  if negb (String.eqb k SHARED) then rec v h else (Returned, h).

(** [rec(data[key])] *)
Definition store_at_key (rec : val -> store -> result * store) (key : string)
    (entries : list (string * val)) (h : store) : result * store :=
  match dict_get key entries with
  | Some v => rec v h
  | None => (Raised (KeyError key), h)
  end.

(** [rec(item[key])] for an element of a list. *)
Definition store_at_item_key (rec : val -> store -> result * store)
    (key : string) (item : val) (h : store) : result * store :=
  match kind_of h item with
  | KDict _ entries => store_at_key rec key entries h
  | _ => (Raised (TypeError NotSubscriptable), h)
  end.

(** [inherit_value(path, value, data, _prefix)] on the store.  The source
    recurses on the path, which is one segment shorter at each call;
    [limit] bounds the depth of the calls, and a call beyond it raises as
    Python does when its stack is exhausted. *)
Fixpoint inherit_value_upto (limit : nat) (path : string) (value data : val)
    (_prefix : option string) (h : store) {struct limit} : result * store :=
  match limit with
  | 0 => (Raised RecursionError, h)
  | S limit' =>
      if endswith_star path then (Raised ValueError, h)
      else
        let prefix := prefix_of _prefix in
        match split "." path with
        | [] => (Raised IndexError, h)
        | [leaf] =>
            match kind_of h data with
            | KDict l entries =>
                (Returned, update h l (ODict (setdefault leaf value entries)))
            | KList _ items =>
                for_in (store_setdefault_item prefix leaf value) items h
            | KOther => (Raised (make_type_error prefix leaf), h)
            end
        | key :: rest =>
            let sub := join "." rest in
            let prefix' := child_prefix _prefix key in
            if String.eqb key "*" then
              match kind_of h data with
              | KDict _ entries =>
                  for_in
                    (store_star_field
                       (fun v => inherit_value_upto limit' sub value v prefix'))
                    entries h
              | _ => (Raised AttributeError, h)
              end
            else
              match kind_of h data with
              | KDict _ entries =>
                  store_at_key
                    (fun v => inherit_value_upto limit' sub value v prefix')
                    key entries h
              | KList _ items =>
                  for_in
                    (store_at_item_key
                       (fun v => inherit_value_upto limit' sub value v prefix')
                       key)
                    items h
              | KOther => (Raised (make_type_error prefix key), h)
              end
        end
  end.

(** [inherit_value(path=path, value=value, data=data)]: as many calls as
    the path has segments are enough. *)
Definition inherit_value_in_store (path : string) (value data : val)
    (h : store) : result * store :=
  inherit_value_upto (length (split "." path)) path value data None h.

(** [apply_inheritance(value)] on a field of [data] or an element of a
    list, on the store. *)
Definition store_resolve_item (rec : val -> store -> result * store)
    (item : val) (h : store) : result * store :=
  match kind_of h item with
  | KDict _ _ => rec item h
  | _ => (Returned, h)
  end.

Definition store_resolve_field (rec : val -> store -> result * store)
    (kv : string * val) (h : store) : result * store :=
  let (key, value) := kv in
  if String.eqb key SHARED then (Returned, h)
  else
    match kind_of h value with
    | KDict _ _ => rec value h
    | KList _ items => for_in (store_resolve_item rec) items h
    | KOther => (Returned, h)
    end.

(** [for path, value in shared_data.items(): inherit_value(path, value, data)] *)
Definition store_apply_shared (defaults : list (string * val)) (data : val)
    (h : store) : result * store :=
  for_in (fun entry => inherit_value_in_store (fst entry) (snd entry) data)
    defaults h.

(** The second half of [apply_inheritance]: [SHARED in data], then
    [data.pop(SHARED)] and the loop over its entries. *)
Definition own_shared_in_store (data : val) (h1 : store) : result * store :=
  match kind_of h1 data with
  | KDict l entries1 =>
      match dict_get SHARED entries1 with
      | None => (Returned, h1)
      | Some shared_data =>
          let h2 := update h1 l (ODict (dict_pop SHARED entries1)) in
          match kind_of h2 shared_data with
          | KDict _ defaults => store_apply_shared defaults data h2
          | _ => (Raised AttributeError, h2)
          end
      end
  | _ => (Raised AttributeError, h1)
  end.

(** [apply_inheritance(data)] on the store: the fields first, then the
    Shared Section of [data] itself.  [limit] bounds the depth of the
    calls, as for [inherit_value_upto]. *)
Fixpoint apply_inheritance_upto (limit : nat) (data : val) (h : store)
    {struct limit} : result * store :=
  match limit with
  | 0 => (Raised RecursionError, h)
  | S limit' =>
      match kind_of h data with
      | KDict _ entries =>
          let (r, h1) :=
            for_in (store_resolve_field (apply_inheritance_upto limit'))
              entries h in
          match r with
          | Returned => own_shared_in_store data h1
          | Raised e => (Raised e, h1)
          end
      | _ => (Raised AttributeError, h)
      end
  end.

(** A tree is loaded into the store, every container at an address of its
    own, and read back from it. *)
Section LoadAll.
Context {A B : Type}.
Variable f : A -> store -> B * store.

Fixpoint load_all (l : list A) (h : store) : list B * store :=
    match l with
    | [] => ([], h)
    | x :: tl =>
        let (y, h1) := f x h in
        let (ys, h2) := load_all tl h1 in
        (y :: ys, h2)
    end.
End LoadAll.

Fixpoint load (n : node) (h : store) : val * store :=
  match n with
  | Scalar s => (VScalar s, h)
  | Mapping kvs =>
      let (entries, h1) :=
        load_all (fun kv h0 => let (v, h') := load (snd kv) h0 in ((fst kv, v), h'))
          kvs h in
      (VRef (length h1), h1 ++ [ODict entries])
  | Sequence items =>
      let (vs, h1) := load_all (fun item h0 => load item h0) items h in
      (VRef (length h1), h1 ++ [OList vs])
  end.

(** What [v] looks like from outside: an object stored at several places
    is seen at each of them.  [fuel] bounds the depth looked at. *)
Fixpoint read (fuel : nat) (h : store) (v : val) : node :=
  match v with
  | VScalar s => Scalar s
  | VRef l =>
      match fuel with
      | 0 => Scalar SNone
      | S fuel' =>
          match nth_error h l with
          | Some (ODict entries) =>
              Mapping (map (fun kv => (fst kv, read fuel' h (snd kv))) entries)
          | Some (OList items) => Sequence (map (read fuel' h) items)
          | None => Scalar SNone
          end
      end
  end.

(** [apply_inheritance(data)] called on a tree: the outcome, and [data] as
    the caller finds it afterwards.  A run allocates nothing and no chain
    of references is longer than the store, so its length bounds both the
    calls and the reading. *)
Definition apply_inheritance (data : node) : result * node :=
  let (v, h) := load data [] in
  let (r, h') := apply_inheritance_upto (S (length h)) v h in
  (r, read (length h') h' v).

(** ** The run with every default copied

    [apply_inheritance] as it would be if every target received a copy of
    the default instead of the object itself.  This is not the source:
    the two differ once a container default sits at several targets and a
    later default is set inside it ([shared_default_is_one_object]).  On
    the trees whose Shared Sections hold scalar defaults only it is the
    run of the source ([by_value_is_exact]), and there it gives the
    properties of [apply_inheritance] an induction over the tree. *)

Fixpoint apply_shared_by_value (entries : list (string * node)) (data : node)
  : result * node :=
  match entries with
  | [] => (Returned, data)
  | (path, value) :: tl =>
      let (r, data') := inherit_value path value data None in
      match r with
      | Returned => apply_shared_by_value tl data'
      | Raised e => (Raised e, data')
      end
  end.

Fixpoint apply_inheritance_by_value (data : node) : result * node :=
  match data with
  | Mapping kvs =>
      let (r, kvs1) := for_each (resolve_field apply_inheritance_by_value) kvs in
      match r with
      | Raised e => (Raised e, Mapping kvs1)
      | Returned =>
          match dict_get SHARED kvs1 with
          | None => (Returned, Mapping kvs1)
          | Some shared_data =>
              let data1 := Mapping (dict_pop SHARED kvs1) in
              match shared_data with
              | Mapping entries => apply_shared_by_value entries data1
              | _ => (Raised AttributeError, data1)
              end
          end
      end
  | _ => (Raised AttributeError, data)
  end.

(** Its second half, once the fields are resolved. *)
Definition own_shared_by_value (data1 : node) : result * node :=
  match data1 with
  | Mapping kvs1 =>
      match dict_get SHARED kvs1 with
      | None => (Returned, Mapping kvs1)
      | Some shared_data =>
          match shared_data with
          | Mapping entries =>
              apply_shared_by_value entries (Mapping (dict_pop SHARED kvs1))
          | _ => (Raised AttributeError, Mapping (dict_pop SHARED kvs1))
          end
      end
  | _ => (Raised AttributeError, data1)
  end.

(** Every default of every Shared Section that [apply_inheritance]
    applies is a scalar. *)
Definition scalar_entries (shared_data : node) : bool :=
  match shared_data with
  | Mapping entries =>
      forallb (fun e => match snd e with Scalar _ => true | _ => false end) entries
  | _ => true
  end.

Fixpoint scalar_defaults (n : node) : bool :=
  match n with
  | Mapping kvs =>
      forallb
        (fun kv =>
           if String.eqb (fst kv) SHARED then scalar_entries (snd kv)
           else
             match snd kv with
             | Mapping _ => scalar_defaults (snd kv)
             | Sequence items =>
                 forallb
                   (fun item =>
                      match item with
                      | Mapping _ => scalar_defaults item
                      | _ => true
                      end)
                   items
             | Scalar _ => true
             end)
        kvs
  | _ => true
  end.

(** ** Trees placed in a store *)

(** A tree together with the address of each of its containers. *)
Inductive placed : Type :=
| PScalar (s : scalar)
| PMapping (l : loc) (fields : list (string * placed))
| PSequence (l : loc) (items : list placed).

Definition val_of (a : placed) : val :=
  match a with
  | PScalar s => VScalar s
  | PMapping l _ => VRef l
  | PSequence l _ => VRef l
  end.

Fixpoint tree_of (a : placed) : node :=
  match a with
  | PScalar s => Scalar s
  | PMapping _ fields => Mapping (map (fun kv => (fst kv, tree_of (snd kv))) fields)
  | PSequence _ items => Sequence (map tree_of items)
  end.

Definition entry_of (kv : string * placed) : string * val := (fst kv, val_of (snd kv)).
Definition field_of (kv : string * placed) : string * node := (fst kv, tree_of (snd kv)).

(** The objects a placed tree expects to find in the store. *)
Fixpoint cells (a : placed) : list (loc * obj) :=
  match a with
  | PScalar _ => []
  | PMapping l fields =>
      (l, ODict (map entry_of fields)) :: flat_map (fun kv => cells (snd kv)) fields
  | PSequence l items => (l, OList (map val_of items)) :: flat_map cells items
  end.

Definition addresses (a : placed) : list loc := map fst (cells a).

Definition field_addresses (kv : string * placed) : list loc := addresses (snd kv).

(** The store holds the tree at its addresses. *)
Definition stored (h : store) (a : placed) : Prop :=
  Forall (fun c => nth_error h (fst c) = Some (snd c)) (cells a).

Definition field_stored (h : store) (kv : string * placed) : Prop :=
  stored h (snd kv).

Fixpoint psize (a : placed) : nat :=
  match a with
  | PScalar _ => 1
  | PMapping _ fields => S (list_sum (map (fun kv => psize (snd kv)) fields))
  | PSequence _ items => S (list_sum (map psize items))
  end.

(** The store after a run differs from the store before at most at the
    given addresses. *)
Definition unchanged_outside (ls : list loc) (h h' : store) : Prop :=
  length h' = length h /\ forall l, ~ In l ls -> nth_error h' l = nth_error h l.

(** An object after a run: a dict has kept every field but possibly the
    reserved one, with the value it had; a list is as it was. *)
Definition obj_grows (o o' : obj) : Prop :=
  match o with
  | ODict entries =>
      exists entries',
        o' = ODict entries'
        /\ forall k x, k <> SHARED ->
                       dict_get k entries = Some x -> dict_get k entries' = Some x
  | OList items => o' = OList items
  end.

Definition grows (h h' : store) : Prop :=
  length h' = length h
  /\ forall l o, nth_error h l = Some o ->
                 exists o', nth_error h' l = Some o' /\ obj_grows o o'.

(** A run on the store and a run on the tree, side by side.  The elements
    are trees, fields of a Mapping or elements of a Sequence: [to_store]
    is how the store sees one, [to_tree] how the tree does. *)
Section Simulation.
Context {A B C : Type}.
Variables (to_store : A -> B) (to_tree : A -> C).
Variable addrs : A -> list loc.
Variable ok : store -> A -> Prop.

(** [x'] is [x] after a run: the same object, no new address, no
    address twice. *)
Definition evolved (x x' : A) : Prop :=
    to_store x' = to_store x /\ incl (addrs x') (addrs x) /\ NoDup (addrs x').

(** The run on the store and the run on the tree have the same outcome,
    and the store after the first holds the tree after the second. *)
Definition sim (run : store -> result * store) (out : result * C)
      (x : A) (h : store) : Prop :=
    exists r h' x',
      run h = (r, h') /\ out = (r, to_tree x') /\ evolved x x' /\ ok h' x'
      /\ unchanged_outside (addrs x) h h'.

Definition sim_all (run : store -> result * store) (out : result * list C)
      (xs : list A) (h : store) : Prop :=
    exists r h' xs',
      run h = (r, h') /\ out = (r, map to_tree xs') /\ Forall2 evolved xs xs'
      /\ Forall (ok h') xs' /\ NoDup (flat_map addrs xs')
      /\ unchanged_outside (flat_map addrs xs) h h'.
End Simulation.

Definition node_sim := sim val_of tree_of addresses stored.
Definition field_sim := sim entry_of field_of field_addresses field_stored.
Definition fields_sim := sim_all entry_of field_of field_addresses field_stored.
Definition items_sim := sim_all val_of tree_of addresses stored.

(** The recursive calls agree on a tree, wherever it is stored. *)
Definition rec_sim (rec_store : val -> store -> result * store)
    (rec_tree : node -> result * node) (c : placed) : Prop :=
  forall h, stored h c -> NoDup (addresses c) ->
    node_sim (rec_store (val_of c)) (rec_tree (tree_of c)) c h.

Definition rec_sim_mapping (rec_store : val -> store -> result * store)
    (rec_tree : node -> result * node) (c : placed) : Prop :=
  forall l fields, c = PMapping l fields -> rec_sim rec_store rec_tree c.

(** Loading allocates fresh, pairwise distinct addresses and leaves the
    objects already in the store where they are. *)
Section Loading.
Context {A B P : Type}.
Variable f : A -> store -> B * store.
Variables (to_store : P -> B) (to_tree : P -> A).
Variable addrs : P -> list loc.
Variable ok : store -> P -> Prop.

Definition loaded (x : A) : Prop :=
    forall h0, exists p ext,
      f x h0 = (to_store p, h0 ++ ext) /\ to_tree p = x /\ ok (h0 ++ ext) p
      /\ NoDup (addrs p)
      /\ (forall l, In l (addrs p) -> length h0 <= l < length h0 + length ext)
      /\ length (addrs p) = length ext.
End Loading.

(** ** Merge Engine *)

Inductive node_type : Type :=
| TNone | TBool | TInt | TStr | TDict | TList.

Definition type_of (n : node) : node_type :=
  match n with
  | Scalar SNone => TNone
  | Scalar (SBool _) => TBool
  | Scalar (SInt _) => TInt
  | Scalar (SStr _) => TStr
  | Mapping _ => TDict
  | Sequence _ => TList
  end.

Inductive merge_error : Type :=
| LengthMismatch (path : string)
| ItemsNotDict (path : string)
| TypeMismatch (path : string) (left right : node_type).

Inductive merged (A : Type) : Type :=
| Merged (a : A)
| Failed (e : merge_error).
Arguments Merged {A} a.
Arguments Failed {A} e.

Definition is_mapping (n : node) : bool :=
  match n with Mapping _ => true | _ => false end.

Section MergeLoops.
Variable f : string -> node -> node -> merged node.

(** The keys of the left side, each merged with its partner on the right
    when there is one. *)
Fixpoint merge_left (path : string) (l r : list (string * node))
  : merged (list (string * node)) :=
  match l with
  | [] => Merged []
  | (k, v1) :: tl =>
      let head :=
        match dict_get k r with
        | None => Merged v1
        | Some v2 => f (path ++ "." ++ k)%string v1 v2
        end in
      match head with
      | Failed e => Failed e
      | Merged v =>
          match merge_left path tl r with
          | Failed e => Failed e
          | Merged tl' => Merged ((k, v) :: tl')
          end
      end
  end.

(** Elements merged pairwise by position. *)
Fixpoint merge_pairwise (path : string) (l r : list node) : merged (list node) :=
  match l, r with
  | x :: tl, y :: tr =>
      match f path x y with
      | Failed e => Failed e
      | Merged z =>
          match merge_pairwise path tl tr with
          | Failed e => Failed e
          | Merged tz => Merged (z :: tz)
          end
      end
  | _, _ => Merged []
  end.
End MergeLoops.

(** Modelled from the spec: [configcraft/merge.py] ([deep_merge]) is not
    among the sources; this follows the rules of the Merge Engine
    (section 4.1): two Mappings merge key by key, a key on one side only
    keeps its subtree, a key on both sides merges the two subtrees under
    [path + "." + key]; two Sequences must have equal lengths and, unless
    both are empty, hold Mappings only, merged by position; anything else
    is a type mismatch. *)
Fixpoint deep_merge_at (path : string) (left right : node) {struct left}
  : merged node :=
  match left, right with
  | Mapping l, Mapping r =>
      match merge_left deep_merge_at path l r with
      | Failed e => Failed e
      | Merged l' =>
          Merged (Mapping (l' ++ filter (fun kv => negb (dict_mem (fst kv) l)) r))
      end
  | Sequence l, Sequence r =>
      if negb (Nat.eqb (length l) (length r)) then Failed (LengthMismatch path)
      else
        match l with
        | [] => Merged (Sequence [])
        | _ =>
            if forallb is_mapping l && forallb is_mapping r then
              match merge_pairwise deep_merge_at path l r with
              | Failed e => Failed e
              | Merged items => Merged (Sequence items)
              end
            else Failed (ItemsNotDict path)
        end
  | _, _ => Failed (TypeMismatch path (type_of left) (type_of right))
  end.

Definition deep_merge (a b : node) : merged node := deep_merge_at "" a b.

(** ** Observing a tree *)

(** One step down a tree: a field of a Mapping or an element of a Sequence. *)
Inductive step : Type :=
| Key (k : string)
| Idx (i : nat).

Fixpoint node_at (where_ : list step) (n : node) : option node :=
  match where_ with
  | [] => Some n
  | Key k :: rest =>
      match n with
      | Mapping kvs =>
          match dict_get k kvs with
          | Some v => node_at rest v
          | None => None
          end
      | _ => None
      end
  | Idx i :: rest =>
      match n with
      | Sequence items =>
          match nth_error items i with
          | Some v => node_at rest v
          | None => None
          end
      | _ => None
      end
  end.

(** The fields a pattern designates inside a tree, as [inherit_value]
    walks it: a literal segment selects that field of a Mapping, or that
    field of every element of a Sequence; the wildcard selects every field
    of a Mapping but the reserved one; the last segment names the target
    field, in the Mapping reached or in every element of the Sequence
    reached. *)
Fixpoint designates (parts : list string) (where_ : list step) (n : node)
  : bool :=
  match parts with
  | [] => false
  | [leaf] =>
      match n, where_ with
      | Mapping _, [Key k] => String.eqb k leaf
      | Sequence items, [Idx i; Key k] => String.eqb k leaf && Nat.ltb i (length items)
      | _, _ => false
      end
  | key :: rest =>
      match n, where_ with
      | Mapping kvs, Key k :: where' =>
          (if String.eqb key "*" then negb (String.eqb k SHARED)
           else String.eqb k key)
          && match dict_get k kvs with
             | Some v => designates rest where' v
             | None => false
             end
      | Sequence items, Idx i :: Key k :: where' =>
          negb (String.eqb key "*") && String.eqb k key
          && match nth_error items i with
             | Some (Mapping ikvs) =>
                 match dict_get k ikvs with
                 | Some v => designates rest where' v
                 | None => false
                 end
             | _ => false
             end
      | _, _ => false
      end
  end.

(** No Mapping anywhere in the tree has the reserved key. *)
Fixpoint shared_free (n : node) : bool :=
  match n with
  | Scalar _ => true
  | Mapping kvs =>
      forallb (fun kv => negb (String.eqb (fst kv) SHARED) && shared_free (snd kv)) kvs
  | Sequence items => forallb shared_free items
  end.

(** ** Relations between a tree before and after a call *)

(** Two dicts with the same keys in the same order and related values. *)
Definition entries_related (R : node -> node -> Prop)
    (kvs kvs' : list (string * node)) : Prop :=
  Forall2 (fun kv kv' => fst kv = fst kv' /\ R (snd kv) (snd kv')) kvs kvs'.

(** [v'] is [v] or [v] grown: the same scalar, a Mapping for a Mapping,
    a Sequence of the same length for a Sequence. *)
Definition same_kind (v v' : node) : Prop :=
  match v, v' with
  | Scalar s, Scalar s' => s = s'
  | Mapping _, Mapping _ => True
  | Sequence l, Sequence l' => length l = length l'
  | _, _ => False
  end.

(** Whatever is found somewhere in [n] is found at the same place in
    [n'], the same or grown. *)
Definition keeps_fields (n n' : node) : Prop :=
  forall where_ v,
    node_at where_ n = Some v ->
    exists v', node_at where_ n' = Some v' /\ same_kind v v'.

(** Every field that [parts] designates in [n] and that holds a value
    holds the same value in [n']. *)
Definition targets_kept (parts : list string) (n n' : node) : Prop :=
  forall where_ v,
    designates parts where_ n = true ->
    node_at where_ n = Some v -> node_at where_ n' = Some v.

(** A tree free of the reserved key stays so. *)
Definition stays_shared_free (n n' : node) : Prop :=
  shared_free n = true -> shared_free n' = true.

(** ** Well-formed trees *)

(** The keys of a Python dict are pairwise distinct. *)
Fixpoint distinct (l : list string) : bool :=
  match l with
  | [] => true
  | k :: tl => negb (existsb (String.eqb k) tl) && distinct tl
  end.

Fixpoint wf_node (n : node) : bool :=
  match n with
  | Scalar _ => true
  | Mapping kvs => distinct (keys kvs) && forallb (fun kv => wf_node (snd kv)) kvs
  | Sequence items => forallb wf_node items
  end.

Definition stays_wf (n n' : node) : Prop :=
  wf_node n = true -> wf_node n' = true.

(** ** Shapes of paths *)

(** [c in s] *)
Fixpoint has_char (c : ascii) (s : string) : bool :=
  match s with
  | EmptyString => false
  | String a s' => Ascii.eqb a c || has_char c s'
  end.

(** The shapes a path can have, as [inherit_value] tells them apart. *)
Inductive path_shape (path : string) : Type :=
| BadEnd : endswith_star path = true -> path_shape path
| LeafPath (leaf : string) :
    endswith_star path = false -> split "." path = [leaf] -> path_shape path
| StarPath (rest : list string) :
    endswith_star path = false -> split "." path = "*" :: rest -> rest <> [] ->
    path_shape path
| KeyPath (key : string) (rest : list string) :
    endswith_star path = false -> split "." path = key :: rest -> rest <> [] ->
    String.eqb key "*" = false -> path_shape path.

(** ** What [apply_inheritance] visits *)


(** What a Shared Section may hold for the resolved tree to be free of
    the reserved key: no pattern names the reserved key as its target and
    no default contains it. *)
Definition default_ok (entry : string * node) : bool :=
  negb (String.eqb (last (split "." (fst entry)) "") SHARED)
  && shared_free (snd entry).

Definition defaults_ok (shared_data : node) : bool :=
  match shared_data with
  | Mapping entries => forallb default_ok entries
  | _ => true
  end.

(** Trees in which the reserved key occurs only where [apply_inheritance]
    looks for it: in the Mappings it visits, holding defaults that are
    [defaults_ok]. *)
Fixpoint scoped (n : node) : bool :=
  match n with
  | Mapping kvs =>
      forallb
        (fun kv =>
           if String.eqb (fst kv) SHARED then defaults_ok (snd kv)
           else
             match snd kv with
             | Mapping _ => scoped (snd kv)
             | Sequence items =>
                 forallb
                   (fun item =>
                      match item with
                      | Mapping _ => scoped item
                      | _ => shared_free item
                      end)
                   items
             | Scalar _ => true
             end)
        kvs
  | _ => shared_free n
  end.

(** ** Elements of a Sequence and key sets *)

(** [item.setdefault(leaf, value)] on an element that is a Mapping. *)
Definition setdefault_node (leaf : string) (value : node) (item : node) : node :=
  match item with
  | Mapping ikvs => Mapping (setdefault leaf value ikvs)
  | _ => item
  end.

(** [leaf in item], for an element that is a Mapping. *)
Definition has_field (leaf : string) (item : node) : bool :=
  match item with
  | Mapping ikvs => dict_mem leaf ikvs
  | _ => false
  end.

(** No key of [a] is a key of [b]. *)
Definition disjoint_keys (a b : list (string * node)) : bool :=
  forallb (fun k => negb (dict_mem k b)) (keys a).

(** ** Example trees *)

(** Trees used as examples. *)
Definition int (z : Z) : node := Scalar (SInt z).
Definition str (s : string) : node := Scalar (SStr s).

Definition precedence_example : node :=
  Mapping
    [ ("_shared", Mapping [("*.servers.*.cpu", int 1)]);
      ("dev",
       Mapping
         [("servers",
           Mapping [("_shared", Mapping [("*.cpu", int 2)]); ("blue", Mapping [])])]) ].

Definition precedence_resolved : node :=
  Mapping [("dev", Mapping [("servers", Mapping [("blue", Mapping [("cpu", int 2)])])])].

Definition wildcard_example : node :=
  Mapping [("_shared", Mapping [("*.k", str "v")]); ("a", Mapping [])].

Definition memory_example : node :=
  Mapping [("dev", Mapping [("password", str "dev123")]);
           ("prod", Mapping [("password", str "prod456"); ("memory", int 8)])].

(** ** Exceptions, by the segment at which they arise *)

(** [f"{_prefix}.{key}"] unfolded along the segments already walked. *)
Fixpoint dotted (parts : list string) : string :=
  match parts with
  | [] => ""
  | p :: ps => ("." ++ p ++ dotted ps)%string
  end.

(** The exceptions a call can raise once the end of its path has been
    checked: at the last segment the type error of the node reached; at a
    wildcard the missing [items] attribute; at a literal segment the type
    error of the node reached, the missing key, or the subscript of an
    element that is not a dict; and whatever the rest of the path raises
    one segment further down. *)
Fixpoint raisable (parts : list string) (prefix : string) (e : exn) : Prop :=
  match parts with
  | [] => False
  | [leaf] => e = make_type_error prefix leaf
  | key :: rest =>
      if String.eqb key "*" then
        e = AttributeError \/ raisable rest (prefix ++ "." ++ key)%string e
      else
        e = make_type_error prefix key
        \/ e = KeyError key
        \/ e = TypeError NotSubscriptable
        \/ raisable rest (prefix ++ "." ++ key)%string e
  end.

(** Two outcomes that differ at most by the message of a [TypeError]. *)
Definition same_but_message (r1 r2 : result) : Prop :=
  match r1, r2 with
  | Returned, Returned => True
  | Raised (TypeError _), Raised (TypeError _) => True
  | Raised e1, Raised e2 => e1 = e2
  | _, _ => False
  end.

(** Two results with the same final state and outcomes that differ at
    most by the message of a [TypeError]. *)
Definition agree {A : Type} (a b : result * A) : Prop :=
  snd a = snd b /\ same_but_message (fst a) (fst b).

(** ** Trees and places without Shared Sections *)

(** None of the Mappings that [apply_inheritance] visits has the
    reserved key. *)
Fixpoint unshared (n : node) : bool :=
  match n with
  | Mapping kvs =>
      forallb
        (fun kv =>
           negb (String.eqb (fst kv) SHARED)
           && match snd kv with
              | Mapping _ => unshared (snd kv)
              | Sequence items =>
                  forallb
                    (fun item =>
                       match item with
                       | Mapping _ => unshared item
                       | _ => true
                       end)
                    items
              | Scalar _ => true
              end)
        kvs
  | _ => true
  end.

(** A place that is not reached through a field named by the reserved
    key. *)
Definition avoids_shared (where_ : list step) : bool :=
  forallb
    (fun s => match s with Key k => negb (String.eqb k SHARED) | Idx _ => true end)
    where_.

(** Whatever is found in [n] at a place that avoids the reserved key is
    found at the same place in [n'], the same or grown. *)
Definition keeps_outside (n n' : node) : Prop :=
  forall where_ v,
    avoids_shared where_ = true ->
    node_at where_ n = Some v ->
    exists v', node_at where_ n' = Some v' /\ same_kind v v'.

(** A Mapping of [n] found at the same place in [n'] has the same keys
    in the same order, or these followed by [leaf], which it did not
    have. *)
Definition adds_only (leaf : string) (n n' : node) : Prop :=
  forall where_ m m',
    node_at where_ n = Some (Mapping m) ->
    node_at where_ n' = Some (Mapping m') ->
    keys m' = keys m
    \/ (keys m' = keys m ++ [leaf] /\ dict_mem leaf m = false).

(** The Shared Section of a dict holds the reserved key itself as a
    pattern. *)
Definition names_itself (kvs : list (string * node)) : bool :=
  match dict_get SHARED kvs with
  | Some (Mapping entries) => dict_mem SHARED entries
  | _ => false
  end.

(** ** The pattern walked segment by segment *)

(** [inherit_value] as the specification words it: the pattern is split
    once and its segments are consumed one by one. *)
Fixpoint walk (parts : list string) (value : node) (prefix : string)
    (data : node) {struct parts} : result * node :=
  match parts with
  | [] => (Raised IndexError, data)
  | [leaf] =>
      match data with
      | Mapping kvs => (Returned, Mapping (setdefault leaf value kvs))
      | Sequence items =>
          let (r, items') := for_each (setdefault_item prefix leaf value) items in
          (r, Sequence items')
      | Scalar _ => (Raised (make_type_error prefix leaf), data)
      end
  | key :: rest =>
      let prefix' := (prefix ++ "." ++ key)%string in
      if String.eqb key "*" then
        match data with
        | Mapping kvs =>
            let (r, kvs') := for_each (star_field (walk rest value prefix')) kvs in
            (r, Mapping kvs')
        | _ => (Raised AttributeError, data)
        end
      else
        match data with
        | Mapping kvs =>
            let (r, kvs') := at_key (walk rest value prefix') key kvs in
            (r, Mapping kvs')
        | Sequence items =>
            let (r, items') :=
              for_each (at_item_key (walk rest value prefix') key) items in
            (r, Sequence items')
        | Scalar _ => (Raised (make_type_error prefix key), data)
        end
  end.

(** * Properties *)

(** ** Splitting and joining paths *)

Lemma split_not_nil (sep : ascii) (s : string) : split sep s <> [].
Proof.
  destruct s as [|c s]; simpl; [discriminate|].
  destruct (Ascii.eqb c sep); [discriminate|].
  destruct (split sep s); discriminate.
Qed.

Lemma split_no_sep (sep : ascii) (s : string) :
  Forall (fun p => has_char sep p = false) (split sep s).
Proof.
  induction s as [|c s IH]; simpl.
  - repeat constructor.
  - destruct (Ascii.eqb c sep) eqn:E.
    + constructor; [reflexivity | exact IH].
    + destruct (split sep s) as [|p ps].
      * repeat constructor. simpl. rewrite E. reflexivity.
      * inversion IH as [|? ? Hp Hps]; subst.
        constructor; [simpl; rewrite E; exact Hp | exact Hps].
Qed.

Lemma split_no_sep_part (sep : ascii) (p : string) :
  has_char sep p = false -> split sep p = [p].
Proof.
  induction p as [|c p IH]; simpl; intros H; [reflexivity|].
  apply orb_false_iff in H. destruct H as [Hc Hp].
  rewrite Hc, (IH Hp). reflexivity.
Qed.

Lemma split_app_sep (sep : ascii) (p s : string) :
  has_char sep p = false ->
  split sep (p ++ String sep s) = p :: split sep s.
Proof.
  induction p as [|c p IH]; simpl; intros H.
  - rewrite Ascii.eqb_refl. reflexivity.
  - apply orb_false_iff in H. destruct H as [Hc Hp].
    rewrite Hc, (IH Hp). reflexivity.
Qed.

(** Joining segments that hold no dot and splitting again gives them back:
    the suffix handed to the recursive call splits into the remaining
    segments. *)
Lemma split_join (parts : list string) :
  parts <> [] ->
  Forall (fun p => has_char "." p = false) parts ->
  split "." (join "." parts) = parts.
Proof.
  induction parts as [|p ps IH]; intros Hne Hall; [congruence|].
  inversion Hall as [|? ? Hp Hps]; subst.
  destruct ps as [|q ps].
  - simpl. apply split_no_sep_part. exact Hp.
  - change (join "." (p :: q :: ps))
      with (p ++ String "." (join "." (q :: ps)))%string.
    rewrite split_app_sep by exact Hp.
    rewrite IH; [reflexivity | discriminate | exact Hps].
Qed.

Lemma join_split (s : string) : join "." (split "." s) = s.
Proof.
  induction s as [|c s IH]; [reflexivity|].
  simpl. destruct (Ascii.eqb c ".") eqn:E.
  - apply Ascii.eqb_eq in E. subst c.
    pose proof (split_not_nil "." s) as Hne.
    destruct (split "." s) as [|p ps]; [congruence|].
    change (join "." ("" :: p :: ps)) with (String "." (join "." (p :: ps))).
    rewrite IH. reflexivity.
  - pose proof (split_not_nil "." s) as Hne.
    destruct (split "." s) as [|p ps]; [congruence|].
    destruct ps as [|q ps].
    + simpl in *. rewrite IH. reflexivity.
    + change (join "." (String c p :: q :: ps))
        with (String c (join "." (p :: q :: ps))).
      rewrite IH. reflexivity.
Qed.

Lemma split_tail (path key : string) (rest : list string) :
  split "." path = key :: rest -> rest <> [] ->
  split "." (join "." rest) = rest.
Proof.
  intros Hs Hne. apply split_join; [exact Hne|].
  pose proof (split_no_sep "." path) as H. rewrite Hs in H.
  inversion H; assumption.
Qed.

Lemma endswith_char_app_sep (p s : string) (sep c : ascii) :
  Ascii.eqb sep c = false ->
  endswith_char (p ++ String sep s) c = endswith_char s c.
Proof.
  intros Hsep. induction p as [|a p IH]; simpl.
  - destruct s; [exact Hsep | reflexivity].
  - rewrite IH. destruct (p ++ String sep s)%string eqn:E; [|reflexivity].
    destruct p; discriminate.
Qed.

(** Whether a path ends with the star is decided by its last segment. *)
Lemma endswith_star_join (parts : list string) :
  endswith_star (join "." parts) = endswith_star (last parts "").
Proof.
  induction parts as [|p ps IH]; [reflexivity|].
  destruct ps as [|q ps]; [reflexivity|].
  change (join "." (p :: q :: ps))
    with (p ++ String "." (join "." (q :: ps)))%string.
  unfold endswith_star in *.
  rewrite endswith_char_app_sep by reflexivity.
  exact IH.
Qed.

Lemma endswith_star_last (path : string) :
  endswith_star path = endswith_star (last (split "." path) "").
Proof.
  rewrite <- endswith_star_join, join_split. reflexivity.
Qed.

Lemma last_split_tail (path key : string) (rest : list string) :
  split "." path = key :: rest -> rest <> [] ->
  last (split "." (join "." rest)) "" = last (split "." path) "".
Proof.
  intros Hs Hne. rewrite (split_tail _ _ _ Hs Hne), Hs.
  destruct rest; [congruence | reflexivity].
Qed.

(** ** Loops *)

Section LoopFacts.
Context {A : Type}.
Variable f : A -> result * A.

Lemma for_each_Forall2 (R : A -> A -> Prop) (l l' : list A) (r : result) :
  (forall x, R x x) ->
  Forall (fun x => forall r' x', f x = (r', x') -> R x x') l ->
  for_each f l = (r, l') -> Forall2 R l l'.
Proof.
  intros Hrefl. revert l' r.
  induction l as [|x tl IH]; intros l' r Hall H; simpl in H.
  - inversion H. constructor.
  - inversion Hall as [|? ? Hx Htl]; subst.
    destruct (f x) as [rx x'] eqn:Ex.
    destruct rx.
    + destruct (for_each f tl) as [r' tl'] eqn:Et. inversion H; subst.
      constructor; [eapply Hx; reflexivity | eapply IH; eauto].
    + inversion H; subst. constructor; [eapply Hx; reflexivity|].
      clear -Hrefl. induction tl; constructor; auto.
Qed.

Lemma for_each_returned (l l' : list A) :
  for_each f l = (Returned, l') <->
  Forall2 (fun x x' => f x = (Returned, x')) l l'.
Proof.
  split.
  - revert l'. induction l as [|x tl IH]; intros l' H; simpl in H.
    + inversion H. constructor.
    + destruct (f x) as [rx x'] eqn:Ex. destruct rx; [|discriminate].
      destruct (for_each f tl) as [r' tl'] eqn:Et. inversion H; subst.
      constructor; [exact Ex | apply IH; reflexivity].
  - induction 1 as [|x x' tl tl' Hx _ IH]; simpl; [reflexivity|].
    rewrite Hx, IH. reflexivity.
Qed.
End LoopFacts.

Lemma for_each_ext {A : Type} (f g : A -> result * A) (l : list A) :
  Forall (fun x => f x = g x) l -> for_each f l = for_each g l.
Proof.
  induction 1 as [|x tl Hx _ IH]; simpl; [reflexivity|].
  rewrite Hx, IH. reflexivity.
Qed.

Section DictLoopFacts.
Variable f : node -> result * node.

Lemma at_key_Forall2 (R : node -> node -> Prop) (key : string)
    (kvs kvs' : list (string * node)) (r : result) :
  (forall x, R x x) ->
  Forall (fun kv => forall r' v', f (snd kv) = (r', v') -> R (snd kv) v') kvs ->
  at_key f key kvs = (r, kvs') ->
  Forall2 (fun kv kv' => fst kv = fst kv' /\ R (snd kv) (snd kv')) kvs kvs'.
Proof.
  intros Hrefl. revert kvs' r.
  induction kvs as [|[k v] tl IH]; intros kvs' r Hall H; simpl in H.
  - inversion H. constructor.
  - inversion Hall as [|? ? Hv Htl]; subst. simpl in Hv.
    destruct (String.eqb k key).
    + destruct (f v) as [rv v'] eqn:Ev. inversion H; subst.
      constructor; [split; [reflexivity | eapply Hv; reflexivity]|].
      clear -Hrefl. induction tl; constructor; auto.
    + destruct (at_key f key tl) as [rt tl'] eqn:Et. inversion H; subst.
      constructor; [split; [reflexivity | apply Hrefl]|].
      eapply IH; eauto.
Qed.
End DictLoopFacts.

Section EntryFacts.
Variable R : node -> node -> Prop.

Lemma entries_related_get (kvs kvs' : list (string * node)) (k : string) (v : node) :
  entries_related R kvs kvs' -> dict_get k kvs = Some v ->
  exists v', dict_get k kvs' = Some v' /\ R v v'.
Proof.
  induction 1 as [|[k1 v1] [k2 v2] tl tl' [Hk Hv] _ IH]; simpl; intros H;
    [discriminate|].
  simpl in Hk, Hv. subst k2.
  destruct (String.eqb k1 k).
  - inversion H; subst. eauto.
  - auto.
Qed.

Lemma Forall2_nth_error (l l' : list node) (i : nat) (x : node) :
  Forall2 R l l' -> nth_error l i = Some x ->
  exists x', nth_error l' i = Some x' /\ R x x'.
Proof.
  intros H. revert i. induction H as [|a a' tl tl' Ha _ IH]; intros [|i] Hi;
    simpl in *; try discriminate.
  - inversion Hi; subst. eauto.
  - auto.
Qed.
End EntryFacts.

(** Induction that also gives the hypothesis for the fields of the
    elements of a Sequence, which [inherit_value] and [apply_inheritance]
    reach in one step. *)
Lemma node_induction2 (P : node -> Prop) :
  (forall s, P (Scalar s)) ->
  (forall kvs, Forall (fun kv => P (snd kv)) kvs -> P (Mapping kvs)) ->
  (forall items,
      Forall P items ->
      Forall (fun item => forall ikvs, item = Mapping ikvs ->
                                       Forall (fun kv => P (snd kv)) ikvs) items ->
      P (Sequence items)) ->
  forall n, P n.
Proof.
  intros HS HM HQ.
  assert (H : forall n,
             P n /\ (forall kvs, n = Mapping kvs ->
                                 Forall (fun kv => P (snd kv)) kvs)).
  { induction n as [s|kvs IH|items IH] using node_induction.
    - split; [apply HS | discriminate].
    - assert (Hc : Forall (fun kv => P (snd kv)) kvs).
      { eapply Forall_impl; [|exact IH]. intros kv [Hkv _]. exact Hkv. }
      split; [apply HM; exact Hc|]. intros kvs' E. inversion E; subst. exact Hc.
    - split; [|discriminate]. apply HQ.
      + eapply Forall_impl; [|exact IH]. intros x [Hx _]. exact Hx.
      + eapply Forall_impl; [|exact IH]. intros x [_ Hx]. exact Hx. }
  intros n. apply H.
Qed.

(** ** The cases of [inherit_value] *)

Section InheritCases.
Variables (path : string) (value : node) (_prefix : option string).

Lemma inherit_value_bad_end (data : node) :
  endswith_star path = true ->
  inherit_value path value data _prefix = (Raised ValueError, data).
Proof. intros H. destruct data; simpl; rewrite H; reflexivity. Qed.

Hypothesis Hend : endswith_star path = false.

Lemma inherit_value_leaf_mapping (leaf : string) (kvs : list (string * node)) :
  split "." path = [leaf] ->
  inherit_value path value (Mapping kvs) _prefix
  = (Returned, Mapping (setdefault leaf value kvs)).
Proof. intros H. simpl. rewrite Hend, H. reflexivity. Qed.

Lemma inherit_value_leaf_sequence (leaf : string) (items : list node) :
  split "." path = [leaf] ->
  inherit_value path value (Sequence items) _prefix
  = (let (r, items') :=
       for_each (setdefault_item (prefix_of _prefix) leaf value) items in
     (r, Sequence items')).
Proof. intros H. simpl. rewrite Hend, H. reflexivity. Qed.

Lemma inherit_value_leaf_scalar (leaf : string) (s : scalar) :
  split "." path = [leaf] ->
  inherit_value path value (Scalar s) _prefix
  = (Raised (make_type_error (prefix_of _prefix) leaf), Scalar s).
Proof. intros H. simpl. rewrite Hend, H. reflexivity. Qed.

Lemma inherit_value_star_mapping (rest : list string) (kvs : list (string * node)) :
  split "." path = "*" :: rest -> rest <> [] ->
  inherit_value path value (Mapping kvs) _prefix
  = (let (r, kvs') :=
       for_each
         (star_field (fun v => inherit_value (join "." rest) value v
                                 (child_prefix _prefix "*")))
         kvs in
     (r, Mapping kvs')).
Proof.
  intros H Hne. simpl. rewrite Hend, H.
  destruct rest; [congruence | reflexivity].
Qed.

Lemma inherit_value_star_other (rest : list string) (data : node) :
  split "." path = "*" :: rest -> rest <> [] ->
  is_mapping data = false ->
  inherit_value path value data _prefix = (Raised AttributeError, data).
Proof.
  intros H Hne Hd. destruct data; try discriminate; simpl; rewrite Hend, H;
    (destruct rest; [congruence | reflexivity]).
Qed.

Lemma inherit_value_key_mapping (key : string) (rest : list string)
    (kvs : list (string * node)) :
  split "." path = key :: rest -> rest <> [] -> String.eqb key "*" = false ->
  inherit_value path value (Mapping kvs) _prefix
  = (let (r, kvs') :=
       at_key (fun v => inherit_value (join "." rest) value v
                          (child_prefix _prefix key))
         key kvs in
     (r, Mapping kvs')).
Proof.
  intros H Hne Hk. simpl. rewrite Hend, H.
  destruct rest; [congruence|]. rewrite Hk. reflexivity.
Qed.

Lemma inherit_value_key_sequence (key : string) (rest : list string)
    (items : list node) :
  split "." path = key :: rest -> rest <> [] -> String.eqb key "*" = false ->
  inherit_value path value (Sequence items) _prefix
  = (let (r, items') :=
       for_each
         (at_item_key (fun v => inherit_value (join "." rest) value v
                                  (child_prefix _prefix key))
            key)
         items in
     (r, Sequence items')).
Proof.
  intros H Hne Hk. simpl. rewrite Hend, H.
  destruct rest; [congruence|]. rewrite Hk. reflexivity.
Qed.

Lemma inherit_value_key_scalar (key : string) (rest : list string) (s : scalar) :
  split "." path = key :: rest -> rest <> [] -> String.eqb key "*" = false ->
  inherit_value path value (Scalar s) _prefix
  = (Raised (make_type_error (prefix_of _prefix) key), Scalar s).
Proof.
  intros H Hne Hk. simpl. rewrite Hend, H.
  destruct rest; [congruence|]. rewrite Hk. reflexivity.
Qed.
End InheritCases.

Lemma path_cases (path : string) : path_shape path.
Proof.
  destruct (endswith_star path) eqn:He; [apply BadEnd; exact He|].
  destruct (split "." path) as [|key rest] eqn:Hs.
  - exfalso. exact (split_not_nil _ _ Hs).
  - destruct rest as [|q rest].
    + eapply LeafPath; eauto.
    + destruct (String.eqb key "*") eqn:Hk.
      * apply String.eqb_eq in Hk. subst key.
        eapply StarPath; eauto. discriminate.
      * eapply KeyPath; eauto. discriminate.
Qed.

(** ** What a call of [inherit_value] can do to a tree

    Whatever the outcome, the final tree is obtained from the initial one
    by [setdefault] of the last segment at some Mappings.  Any relation
    closed under these steps relates the tree before to the tree after. *)

Section Closure.
Variables (value : node) (leaf : string).
Variable R : node -> node -> Prop.
Hypothesis R_refl : forall n, R n n.
Hypothesis R_setdefault :
  forall kvs, R (Mapping kvs) (Mapping (setdefault leaf value kvs)).
Hypothesis R_sequence :
  forall items items', Forall2 R items items' -> R (Sequence items) (Sequence items').
Hypothesis R_mapping :
  forall kvs kvs', entries_related R kvs kvs' -> R (Mapping kvs) (Mapping kvs').

Lemma entries_related_refl (kvs : list (string * node)) : entries_related R kvs kvs.
Proof. induction kvs; constructor; auto. Qed.

Lemma setdefault_item_closure (prefix : string) (item : node) (r : result)
    (item' : node) :
  setdefault_item prefix leaf value item = (r, item') -> R item item'.
Proof.
  destruct item; simpl; intros H; injection H as <- <-; auto.
Qed.

Lemma inherit_value_closure (data : node) :
  forall path _prefix r data',
    last (split "." path) "" = leaf ->
    inherit_value path value data _prefix = (r, data') ->
    R data data'.
Proof.
  induction data as [s|kvs IH|items IH IH2] using node_induction2;
    intros path pre r data' Hleaf H;
    destruct (path_cases path) as [He|lf He Hs|rest He Hs Hne|key rest He Hs Hne Hk];
    try (rewrite inherit_value_bad_end in H by exact He; injection H as <- <-;
         apply R_refl).
  - rewrite (inherit_value_leaf_scalar _ _ _ He _ _ Hs) in H.
    injection H as <- <-. apply R_refl.
  - rewrite (inherit_value_star_other _ _ _ He _ _ Hs Hne) in H by reflexivity.
    injection H as <- <-. apply R_refl.
  - rewrite (inherit_value_key_scalar _ _ _ He _ _ _ Hs Hne Hk) in H.
    injection H as <- <-. apply R_refl.
  - rewrite (inherit_value_leaf_mapping _ _ _ He _ _ Hs) in H.
    injection H as <- <-. rewrite Hs in Hleaf. simpl in Hleaf.
    rewrite Hleaf. apply R_setdefault.
  - rewrite (inherit_value_star_mapping _ _ _ He _ _ Hs Hne) in H.
    destruct (for_each _ kvs) as [r0 kvs'] eqn:Ef. injection H as <- <-.
    apply R_mapping.
    eapply for_each_Forall2; [| |exact Ef].
    + intros x. split; [reflexivity | apply R_refl].
    + eapply Forall_impl; [|exact IH].
      intros [k v] Hv r' [k' v'] Hsf. simpl in *.
      destruct (negb (String.eqb k SHARED)).
      * destruct (inherit_value _ value v _) as [r1 v1] eqn:Ev.
        injection Hsf as <- <- <-. split; [reflexivity|].
        eapply Hv; [|exact Ev]. rewrite (last_split_tail _ _ _ Hs Hne). exact Hleaf.
      * injection Hsf as <- <- <-. split; [reflexivity | apply R_refl].
  - rewrite (inherit_value_key_mapping _ _ _ He _ _ _ Hs Hne Hk) in H.
    destruct (at_key _ key kvs) as [r0 kvs'] eqn:Ef. injection H as <- <-.
    apply R_mapping.
    eapply at_key_Forall2; [exact R_refl| |exact Ef].
    eapply Forall_impl; [|exact IH].
    intros [k v] Hv r' v' Ev. simpl in *.
    eapply Hv; [|exact Ev]. rewrite (last_split_tail _ _ _ Hs Hne). exact Hleaf.
  - rewrite (inherit_value_leaf_sequence _ _ _ He _ _ Hs) in H.
    destruct (for_each _ items) as [r0 items'] eqn:Ef. injection H as <- <-.
    apply R_sequence.
    eapply for_each_Forall2; [exact R_refl| |exact Ef].
    apply Forall_forall. intros x _ r' x' Hx.
    rewrite Hs in Hleaf. simpl in Hleaf. rewrite Hleaf in Hx.
    eapply setdefault_item_closure. exact Hx.
  - rewrite (inherit_value_star_other _ _ _ He _ _ Hs Hne) in H by reflexivity.
    injection H as <- <-. apply R_refl.
  - rewrite (inherit_value_key_sequence _ _ _ He _ _ _ Hs Hne Hk) in H.
    destruct (for_each _ items) as [r0 items'] eqn:Ef. injection H as <- <-.
    apply R_sequence.
    eapply for_each_Forall2; [exact R_refl| |exact Ef].
    eapply Forall_impl; [|exact IH2].
    intros item Hitem r' item' Hx.
    destruct item as [s|ikvs|sub]; simpl in Hx;
      try (injection Hx as <- <-; apply R_refl).
    destruct (at_key _ key ikvs) as [r1 ikvs'] eqn:Ea. injection Hx as <- <-.
    apply R_mapping.
    eapply at_key_Forall2; [exact R_refl| |exact Ea].
    eapply Forall_impl; [|exact (Hitem ikvs eq_refl)].
    intros [k v] Hv r2 v' Ev. simpl in *.
    eapply Hv; [|exact Ev]. rewrite (last_split_tail _ _ _ Hs Hne). exact Hleaf.
Qed.
End Closure.

(** ** Dictionary facts *)

Section DictFacts.
Context {V : Type}.
Implicit Types (kvs : list (string * V)) (k : string) (v : V).

Lemma dict_get_app kvs kvs2 k :
  dict_get k (kvs ++ kvs2)
  = match dict_get k kvs with Some v => Some v | None => dict_get k kvs2 end.
Proof.
  induction kvs as [|[k1 v1] tl IH]; simpl; [reflexivity|].
  destruct (String.eqb k1 k); [reflexivity | exact IH].
Qed.

Lemma dict_get_setdefault_present kvs k leaf v d :
  dict_get k kvs = Some v -> dict_get k (setdefault leaf d kvs) = Some v.
Proof.
  intros H. unfold setdefault. destruct (dict_mem leaf kvs); [exact H|].
  rewrite dict_get_app, H. reflexivity.
Qed.

Lemma setdefault_present kvs leaf v d :
  dict_get leaf kvs = Some v -> setdefault leaf d kvs = kvs.
Proof. intros H. unfold setdefault, dict_mem. rewrite H. reflexivity. Qed.

Lemma dict_get_setdefault_leaf kvs leaf d :
  dict_get leaf (setdefault leaf d kvs)
  = match dict_get leaf kvs with Some v => Some v | None => Some d end.
Proof.
  unfold setdefault, dict_mem. destruct (dict_get leaf kvs) eqn:E.
  - exact E.
  - rewrite dict_get_app, E. simpl. rewrite String.eqb_refl. reflexivity.
Qed.

Lemma setdefault_idempotent kvs leaf d :
  setdefault leaf d (setdefault leaf d kvs) = setdefault leaf d kvs.
Proof.
  pose proof (dict_get_setdefault_leaf kvs leaf d) as H.
  destruct (dict_get leaf kvs); eapply setdefault_present; exact H.
Qed.

Lemma dict_get_pop_other kvs k k0 :
  k <> k0 -> dict_get k (dict_pop k0 kvs) = dict_get k kvs.
Proof.
  intros Hk. induction kvs as [|[k1 v1] tl IH]; simpl; [reflexivity|].
  destruct (String.eqb k1 k0) eqn:E0; simpl.
  - apply String.eqb_eq in E0. subst k1.
    destruct (String.eqb k0 k) eqn:E; [|exact IH].
    apply String.eqb_eq in E. congruence.
  - rewrite IH. reflexivity.
Qed.

Lemma dict_get_in kvs k v : dict_get k kvs = Some v -> In (k, v) kvs.
Proof.
  induction kvs as [|[k1 v1] tl IH]; simpl; [discriminate|].
  destruct (String.eqb k1 k) eqn:E.
  - apply String.eqb_eq in E. intros H. inversion H; subst. left. reflexivity.
  - intros H. right. apply IH. exact H.
Qed.

End DictFacts.

(** ** Existing fields survive *)

Lemma same_kind_refl (v : node) : same_kind v v.
Proof. destruct v; simpl; auto. Qed.

Lemma same_kind_trans (a b c : node) :
  same_kind a b -> same_kind b c -> same_kind a c.
Proof. destruct a, b, c; simpl; try tauto; congruence. Qed.



Lemma keeps_fields_refl (n : node) : keeps_fields n n.
Proof. intros w v H. exists v. split; [exact H | apply same_kind_refl]. Qed.



Lemma keeps_fields_mapping (kvs kvs' : list (string * node)) :
  entries_related keeps_fields kvs kvs' ->
  keeps_fields (Mapping kvs) (Mapping kvs').
Proof.
  intros Hrel [|[k|i] w] v H; simpl in *; try discriminate.
  - injection H as <-. eexists. split; [reflexivity | exact I].
  - destruct (dict_get k kvs) as [x|] eqn:E; [|discriminate].
    destruct (entries_related_get _ _ _ _ _ Hrel E) as [x' [E' Hx]].
    rewrite E'. apply Hx. exact H.
Qed.

Lemma keeps_fields_sequence (items items' : list node) :
  Forall2 keeps_fields items items' ->
  keeps_fields (Sequence items) (Sequence items').
Proof.
  intros Hrel [|[k|i] w] v H; simpl in *; try discriminate.
  - injection H as <-. eexists. split; [reflexivity|].
    simpl. eapply Forall2_length. exact Hrel.
  - destruct (nth_error items i) as [x|] eqn:E; [|discriminate].
    destruct (Forall2_nth_error _ _ _ _ _ Hrel E) as [x' [E' Hx]].
    rewrite E'. apply Hx. exact H.
Qed.

Lemma keeps_fields_setdefault (leaf : string) (value : node)
    (kvs : list (string * node)) :
  keeps_fields (Mapping kvs) (Mapping (setdefault leaf value kvs)).
Proof.
  intros [|[k|i] w] v H; simpl in *; try discriminate.
  - injection H as <-. eexists. split; [reflexivity | exact I].
  - destruct (dict_get k kvs) as [x|] eqn:E; [|discriminate].
    rewrite (dict_get_setdefault_present _ _ _ _ _ E).
    exists v. split; [exact H | apply same_kind_refl].
Qed.

(** A call of [inherit_value] removes nothing and replaces nothing. *)
Lemma inherit_value_keeps_fields (path : string) (value data : node)
    (_prefix : option string) (r : result) (data' : node) :
  inherit_value path value data _prefix = (r, data') ->
  keeps_fields data data'.
Proof.
  intros H.
  eapply (inherit_value_closure value (last (split "." path) "") keeps_fields);
    [ exact keeps_fields_refl
    | intros; apply keeps_fields_setdefault
    | exact keeps_fields_sequence
    | exact keeps_fields_mapping
    | reflexivity
    | exact H ].
Qed.

(** ** Non-destructiveness *)

Lemma targets_kept_refl (parts : list string) (n : node) : targets_kept parts n n.
Proof. intros w v _ H. exact H. Qed.

Lemma targets_kept_mapping (key q : string) (rest : list string)
    (kvs kvs' : list (string * node)) :
  entries_related (targets_kept (q :: rest)) kvs kvs' ->
  targets_kept (key :: q :: rest) (Mapping kvs) (Mapping kvs').
Proof.
  intros Hrel [|[k|i] w] v Hd H; simpl in Hd; try discriminate.
  simpl in H |- *.
  destruct (dict_get k kvs) as [v0|] eqn:E; [|discriminate].
  apply andb_true_iff in Hd. destruct Hd as [_ Hd].
  destruct (entries_related_get _ _ _ _ _ Hrel E) as [v0' [E' Hv]].
  rewrite E'. apply Hv; assumption.
Qed.

Lemma targets_kept_leaf_item (leaf prefix : string) (value item item' : node)
    (r : result) :
  setdefault_item prefix leaf value item = (r, item') ->
  forall v, node_at [Key leaf] item = Some v -> node_at [Key leaf] item' = Some v.
Proof.
  destruct item as [s|ikvs|sub]; simpl; intros H; injection H as <- <-;
    intros v Hv; try discriminate.
  simpl. destruct (dict_get leaf ikvs) as [v0|] eqn:E; [|discriminate].
  rewrite (dict_get_setdefault_present _ _ _ _ _ E). exact Hv.
Qed.

Lemma inherit_value_targets_kept (value data : node) :
  forall path _prefix r data',
    inherit_value path value data _prefix = (r, data') ->
    targets_kept (split "." path) data data'.
Proof.
  induction data as [s|kvs IH|items IH IH2] using node_induction2;
    intros path pre r data' H;
    destruct (path_cases path) as [He|lf He Hs|rest He Hs Hne|key rest He Hs Hne Hk];
    try (rewrite inherit_value_bad_end in H by exact He; injection H as <- <-;
         apply targets_kept_refl).
  - rewrite (inherit_value_leaf_scalar _ _ _ He _ _ Hs) in H.
    injection H as <- <-. apply targets_kept_refl.
  - rewrite (inherit_value_star_other _ _ _ He _ _ Hs Hne) in H by reflexivity.
    injection H as <- <-. apply targets_kept_refl.
  - rewrite (inherit_value_key_scalar _ _ _ He _ _ _ Hs Hne Hk) in H.
    injection H as <- <-. apply targets_kept_refl.
  - (* leaf of a Mapping *)
    rewrite (inherit_value_leaf_mapping _ _ _ He _ _ Hs) in H.
    injection H as <- <-. rewrite Hs.
    intros [|[k|i] [|? ?]] v Hd Hv; simpl in Hd; try discriminate.
    apply String.eqb_eq in Hd. subst k. simpl in *.
    destruct (dict_get lf kvs) as [v0|] eqn:E; [|discriminate].
    rewrite (dict_get_setdefault_present _ _ _ _ _ E). exact Hv.
  - (* wildcard over a Mapping *)
    rewrite (inherit_value_star_mapping _ _ _ He _ _ Hs Hne) in H.
    destruct (for_each _ kvs) as [r0 kvs'] eqn:Ef. injection H as <- <-.
    rewrite Hs. destruct rest as [|q rest]; [congruence|].
    apply targets_kept_mapping.
    eapply for_each_Forall2; [| |exact Ef].
    + intros x. split; [reflexivity | apply targets_kept_refl].
    + eapply Forall_impl; [|exact IH].
      intros [k v] Hv r' [k' v'] Hsf. simpl in *.
      destruct (negb (String.eqb k SHARED)).
      * destruct (inherit_value _ value v _) as [r1 v1] eqn:Ev.
        injection Hsf as <- <- <-. split; [reflexivity|].
        rewrite <- (split_tail _ _ _ Hs Hne). eapply Hv. exact Ev.
      * injection Hsf as <- <- <-. split; [reflexivity | apply targets_kept_refl].
  - (* literal segment on a Mapping *)
    rewrite (inherit_value_key_mapping _ _ _ He _ _ _ Hs Hne Hk) in H.
    destruct (at_key _ key kvs) as [r0 kvs'] eqn:Ef. injection H as <- <-.
    rewrite Hs. destruct rest as [|q rest]; [congruence|].
    apply targets_kept_mapping.
    eapply at_key_Forall2; [apply targets_kept_refl| |exact Ef].
    eapply Forall_impl; [|exact IH].
    intros [k v] Hv r' v' Ev. simpl in *.
    rewrite <- (split_tail _ _ _ Hs Hne). eapply Hv. exact Ev.
  - (* leaf of the elements of a Sequence *)
    rewrite (inherit_value_leaf_sequence _ _ _ He _ _ Hs) in H.
    destruct (for_each _ items) as [r0 items'] eqn:Ef. injection H as <- <-.
    rewrite Hs.
    assert (Hrel : Forall2 (fun x x' => forall v, node_at [Key lf] x = Some v ->
                                                  node_at [Key lf] x' = Some v)
                     items items').
    { eapply for_each_Forall2; [| |exact Ef].
      - intros x v Hv. exact Hv.
      - apply Forall_forall. intros x _ r' x' Hx.
        eapply targets_kept_leaf_item. exact Hx. }
    intros [|[k0|i] [|[k|j] [|? ?]]] v Hd Hv; simpl in Hd; try discriminate.
    apply andb_true_iff in Hd. destruct Hd as [Hd _].
    apply String.eqb_eq in Hd. subst k.
    change (node_at [Idx i; Key lf] (Sequence items))
      with (match nth_error items i with
            | Some x => node_at [Key lf] x | None => None end) in Hv.
    change (node_at [Idx i; Key lf] (Sequence items'))
      with (match nth_error items' i with
            | Some x => node_at [Key lf] x | None => None end).
    destruct (nth_error items i) as [x|] eqn:E; [|discriminate].
    destruct (Forall2_nth_error _ _ _ _ _ Hrel E) as [x' [E' Hx]].
    rewrite E'. apply Hx. exact Hv.
  - rewrite (inherit_value_star_other _ _ _ He _ _ Hs Hne) in H by reflexivity.
    injection H as <- <-. apply targets_kept_refl.
  - (* literal segment on the elements of a Sequence *)
    rewrite (inherit_value_key_sequence _ _ _ He _ _ _ Hs Hne Hk) in H.
    destruct (for_each _ items) as [r0 items'] eqn:Ef. injection H as <- <-.
    rewrite Hs. destruct rest as [|q rest]; [congruence|].
    assert (Hrel : Forall2 (fun x x' => forall w v,
                              designates (key :: q :: rest) (Key key :: w) x = true ->
                              node_at (Key key :: w) x = Some v ->
                              node_at (Key key :: w) x' = Some v)
                     items items').
    { eapply for_each_Forall2; [| |exact Ef].
      - intros x w v _ Hv. exact Hv.
      - eapply Forall_impl; [|exact IH2].
        intros item Hitem r' item' Hx.
        destruct item as [s|ikvs|sub]; simpl in Hx;
          try (injection Hx as <- <-; intros w v _ Hv; exact Hv).
        destruct (at_key _ key ikvs) as [r1 ikvs'] eqn:Ea. injection Hx as <- <-.
        assert (Hkept : targets_kept (key :: q :: rest) (Mapping ikvs) (Mapping ikvs')).
        { apply targets_kept_mapping.
          eapply at_key_Forall2; [apply targets_kept_refl| |exact Ea].
          eapply Forall_impl; [|exact (Hitem ikvs eq_refl)].
          intros [k v] Hv r2 v' Ev. simpl in *.
          rewrite <- (split_tail _ _ _ Hs Hne). eapply Hv. exact Ev. }
        intros w v Hd Hv. exact (Hkept _ _ Hd Hv). }
    intros [|[k0|i] [|[k|j] w]] v Hd Hv; simpl in Hd; try discriminate.
    apply andb_true_iff in Hd. destruct Hd as [Hd1 Hd2].
    apply andb_true_iff in Hd1. destruct Hd1 as [_ Hd1].
    apply String.eqb_eq in Hd1. subst k.
    change (node_at (Idx i :: Key key :: w) (Sequence items))
      with (match nth_error items i with
            | Some x => node_at (Key key :: w) x | None => None end) in Hv.
    change (node_at (Idx i :: Key key :: w) (Sequence items'))
      with (match nth_error items' i with
            | Some x => node_at (Key key :: w) x | None => None end).
    destruct (nth_error items i) as [x|] eqn:E; [|discriminate].
    destruct (Forall2_nth_error _ _ _ _ _ Hrel E) as [x' [E' Hx]].
    rewrite E'. apply Hx; [|exact Hv].
    destruct x as [s|ikvs|sub]; try discriminate.
    simpl. rewrite Hk, String.eqb_refl. simpl.
    exact Hd2.
Qed.

(** ** Absent targets are filled *)

Lemma star_fields_get (rec : node -> result * node)
    (kvs kvs' : list (string * node)) (k : string) (v : node) :
  Forall2 (fun kv kv' => star_field rec kv = (Returned, kv')) kvs kvs' ->
  dict_get k kvs = Some v ->
  exists v', dict_get k kvs' = Some v'
             /\ star_field rec (k, v) = (Returned, (k, v')).
Proof.
  induction 1 as [|[k1 v1] [k2 v2] tl tl' Hkv _ IH]; simpl; intros H;
    [discriminate|].
  assert (Hk : k2 = k1).
  { simpl in Hkv. destruct (negb (String.eqb k1 SHARED)).
    - destruct (rec v1). injection Hkv as _ <- _. reflexivity.
    - injection Hkv as <- _. reflexivity. }
  subst k2. destruct (String.eqb k1 k) eqn:E.
  - apply String.eqb_eq in E. subst k1. injection H as <-. eauto.
  - auto.
Qed.

Lemma at_key_get (f : node -> result * node) (key : string)
    (kvs kvs' : list (string * node)) (r : result) (v : node) :
  at_key f key kvs = (r, kvs') -> dict_get key kvs = Some v ->
  exists v', dict_get key kvs' = Some v' /\ f v = (r, v').
Proof.
  revert kvs'. induction kvs as [|[k1 v1] tl IH]; intros kvs' H Hget;
    simpl in *; [discriminate|].
  destruct (String.eqb k1 key) eqn:E.
  - injection Hget as <-. destruct (f v1) as [r1 v1'] eqn:Ef.
    injection H as <- <-. simpl. rewrite E. eauto.
  - destruct (at_key f key tl) as [r1 tl'] eqn:Et. injection H as <- <-.
    simpl. rewrite E. eapply IH; eauto.
Qed.

Lemma designates_leaf_mapping (leaf : string) (w : list step)
    (kvs : list (string * node)) :
  designates [leaf] w (Mapping kvs) = true -> w = [Key leaf].
Proof.
  destruct w as [|[k|i] [|? ?]]; simpl; try discriminate.
  intros H. apply String.eqb_eq in H. subst k. reflexivity.
Qed.

Lemma designates_leaf_sequence (leaf : string) (w : list step)
    (items : list node) :
  designates [leaf] w (Sequence items) = true ->
  exists i, w = [Idx i; Key leaf] /\ i < length items.
Proof.
  destruct w as [|[k0|i] [|[k|j] [|? ?]]]; simpl; try discriminate.
  intros H. apply andb_true_iff in H. destruct H as [Hk Hi].
  apply String.eqb_eq in Hk. subst k. apply Nat.ltb_lt in Hi. eauto.
Qed.

Lemma designates_mapping (key q : string) (rest : list string) (w : list step)
    (kvs : list (string * node)) :
  designates (key :: q :: rest) w (Mapping kvs) = true ->
  exists k w' v,
    w = Key k :: w'
    /\ (if String.eqb key "*" then negb (String.eqb k SHARED)
        else String.eqb k key) = true
    /\ dict_get k kvs = Some v
    /\ designates (q :: rest) w' v = true.
Proof.
  destruct w as [|[k|i] w']; [simpl; discriminate| |simpl; discriminate].
  change (designates (key :: q :: rest) (Key k :: w') (Mapping kvs))
    with ((if String.eqb key "*" then negb (String.eqb k SHARED)
           else String.eqb k key)
          && match dict_get k kvs with
             | Some v => designates (q :: rest) w' v
             | None => false
             end).
  intros H. apply andb_true_iff in H. destruct H as [H1 H2].
  destruct (dict_get k kvs) as [v|] eqn:E; [|discriminate].
  exists k, w', v. auto.
Qed.

Lemma designates_sequence (key q : string) (rest : list string) (w : list step)
    (items : list node) :
  designates (key :: q :: rest) w (Sequence items) = true ->
  exists i w' ikvs v,
    w = Idx i :: Key key :: w'
    /\ nth_error items i = Some (Mapping ikvs)
    /\ dict_get key ikvs = Some v
    /\ designates (q :: rest) w' v = true.
Proof.
  destruct w as [|[k0|i] [|[k|j] w']]; try (simpl; discriminate).
  change (designates (key :: q :: rest) (Idx i :: Key k :: w') (Sequence items))
    with (negb (String.eqb key "*") && String.eqb k key
          && match nth_error items i with
             | Some (Mapping ikvs) =>
                 match dict_get k ikvs with
                 | Some v => designates (q :: rest) w' v
                 | None => false
                 end
             | _ => false
             end).
  intros H. apply andb_true_iff in H. destruct H as [H1 H2].
  apply andb_true_iff in H1. destruct H1 as [_ Hk].
  apply String.eqb_eq in Hk. subst k.
  destruct (nth_error items i) as [[s|ikvs|sub]|] eqn:En; try discriminate.
  destruct (dict_get key ikvs) as [v|] eqn:E; [|discriminate].
  exists i, w', ikvs, v. auto.
Qed.

(** When [inherit_value] returns, every field the pattern designates that
    was absent holds the default. *)
Lemma inherit_value_fills_absent (value data : node) :
  forall path _prefix data' where_,
    inherit_value path value data _prefix = (Returned, data') ->
    designates (split "." path) where_ data = true ->
    node_at where_ data = None ->
    node_at where_ data' = Some value.
Proof.
  induction data as [s|kvs IH|items IH IH2] using node_induction2;
    intros path pre data' w H Hd Hnone;
    destruct (path_cases path) as [He|lf He Hs|rest He Hs Hne|key rest He Hs Hne Hk];
    try (rewrite inherit_value_bad_end in H by exact He; discriminate).
  - rewrite (inherit_value_leaf_scalar _ _ _ He _ _ Hs) in H. discriminate.
  - rewrite (inherit_value_star_other _ _ _ He _ _ Hs Hne) in H by reflexivity.
    discriminate.
  - rewrite (inherit_value_key_scalar _ _ _ He _ _ _ Hs Hne Hk) in H.
    discriminate.
  - rewrite (inherit_value_leaf_mapping _ _ _ He _ _ Hs) in H.
    injection H as <-. rewrite Hs in Hd.
    apply designates_leaf_mapping in Hd. subst w. simpl in *.
    rewrite dict_get_setdefault_leaf.
    destruct (dict_get lf kvs); [discriminate | reflexivity].
  - rewrite (inherit_value_star_mapping _ _ _ He _ _ Hs Hne) in H.
    destruct (for_each _ kvs) as [r0 kvs'] eqn:Ef. injection H as -> <-.
    apply for_each_returned in Ef.
    pose proof (split_tail _ _ _ Hs Hne) as Htail.
    rewrite Hs in Hd. destruct rest as [|q rest]; [congruence|].
    apply designates_mapping in Hd.
    destruct Hd as [k [w' [v0 [-> [Hk [Hget Hd]]]]]].
    simpl in Hk, Hnone |- *. rewrite Hget in Hnone.
    destruct (star_fields_get _ _ _ _ _ Ef Hget) as [v0' [Hget' Hsf]].
    rewrite Hget'. simpl in Hsf. rewrite Hk in Hsf.
    destruct (inherit_value _ value v0 _) as [r1 v1] eqn:Ev.
    injection Hsf as -> <-.
    rewrite Forall_forall in IH.
    eapply (IH _ (dict_get_in _ _ _ Hget)); [exact Ev | | exact Hnone].
    change (designates (split "." (join "." (q :: rest))) w' v0 = true).
    rewrite Htail. exact Hd.
  - rewrite (inherit_value_key_mapping _ _ _ He _ _ _ Hs Hne Hk) in H.
    destruct (at_key _ key kvs) as [r0 kvs'] eqn:Ef. injection H as -> <-.
    pose proof (split_tail _ _ _ Hs Hne) as Htail.
    rewrite Hs in Hd. destruct rest as [|q rest]; [congruence|].
    apply designates_mapping in Hd.
    destruct Hd as [k [w' [v0 [-> [Hkk [Hget Hd]]]]]].
    rewrite Hk in Hkk. apply String.eqb_eq in Hkk. subst k.
    simpl in Hnone |- *. rewrite Hget in Hnone.
    destruct (at_key_get _ _ _ _ _ _ Ef Hget) as [v0' [Hget' Hf]].
    rewrite Hget'.
    rewrite Forall_forall in IH.
    eapply (IH _ (dict_get_in _ _ _ Hget)); [exact Hf | | exact Hnone].
    change (designates (split "." (join "." (q :: rest))) w' v0 = true).
    rewrite Htail. exact Hd.
  - rewrite (inherit_value_leaf_sequence _ _ _ He _ _ Hs) in H.
    destruct (for_each _ items) as [r0 items'] eqn:Ef. injection H as -> <-.
    apply for_each_returned in Ef.
    rewrite Hs in Hd. apply designates_leaf_sequence in Hd.
    destruct Hd as [i [-> Hi]].
    change (node_at [Idx i; Key lf] (Sequence items))
      with (match nth_error items i with
            | Some x => node_at [Key lf] x | None => None end) in Hnone.
    change (node_at [Idx i; Key lf] (Sequence items'))
      with (match nth_error items' i with
            | Some x => node_at [Key lf] x | None => None end).
    destruct (nth_error items i) as [x|] eqn:E;
      [|apply nth_error_None in E; lia].
    destruct (Forall2_nth_error _ _ _ _ _ Ef E) as [x' [E' Hx]].
    rewrite E'. destruct x as [s|ikvs|sub]; simpl in Hx; try discriminate.
    injection Hx as <-. simpl in *. rewrite dict_get_setdefault_leaf.
    destruct (dict_get lf ikvs); [discriminate | reflexivity].
  - rewrite (inherit_value_star_other _ _ _ He _ _ Hs Hne) in H by reflexivity.
    discriminate.
  - rewrite (inherit_value_key_sequence _ _ _ He _ _ _ Hs Hne Hk) in H.
    destruct (for_each _ items) as [r0 items'] eqn:Ef. injection H as -> <-.
    apply for_each_returned in Ef.
    pose proof (split_tail _ _ _ Hs Hne) as Htail.
    rewrite Hs in Hd. destruct rest as [|q rest]; [congruence|].
    apply designates_sequence in Hd.
    destruct Hd as [i [w' [ikvs [v0 [-> [E [Hget Hd]]]]]]].
    change (node_at (Idx i :: Key key :: w') (Sequence items))
      with (match nth_error items i with
            | Some x => node_at (Key key :: w') x | None => None end) in Hnone.
    change (node_at (Idx i :: Key key :: w') (Sequence items'))
      with (match nth_error items' i with
            | Some x => node_at (Key key :: w') x | None => None end).
    rewrite E in Hnone.
    destruct (Forall2_nth_error _ _ _ _ _ Ef E) as [x' [E' Hx]].
    rewrite E'.
    simpl in Hx. destruct (at_key _ key ikvs) as [r1 ikvs'] eqn:Ea.
    injection Hx as -> <-.
    simpl in Hnone |- *. rewrite Hget in Hnone.
    destruct (at_key_get _ _ _ _ _ _ Ea Hget) as [v0' [Hget' Hf]].
    rewrite Hget'.
    rewrite Forall_forall in IH2.
    pose proof (IH2 _ (nth_error_In _ _ E) ikvs eq_refl) as IHg.
    rewrite Forall_forall in IHg.
    eapply (IHg _ (dict_get_in _ _ _ Hget)); [exact Hf | | exact Hnone].
    change (designates (split "." (join "." (q :: rest))) w' v0 = true).
    rewrite Htail. exact Hd.
Qed.

(** ** Idempotence *)

Section Idempotence.
Context {A : Type}.
Variable f : A -> result * A.

Lemma for_each_idempotent (l l' : list A) :
  Forall (fun x => forall x', f x = (Returned, x') -> f x' = (Returned, x')) l ->
  for_each f l = (Returned, l') -> for_each f l' = (Returned, l').
Proof.
  intros Hall H. apply for_each_returned in H. apply for_each_returned.
  induction H as [|x x' tl tl' Hx _ IH]; [constructor|].
  inversion Hall as [|? ? Hx0 Htl]; subst.
  constructor; [apply Hx0; exact Hx | apply IH; exact Htl].
Qed.
End Idempotence.

Lemma at_key_idempotent (f : node -> result * node) (key : string)
    (kvs kvs' : list (string * node)) :
  Forall (fun kv => forall v', f (snd kv) = (Returned, v') ->
                               f v' = (Returned, v')) kvs ->
  at_key f key kvs = (Returned, kvs') -> at_key f key kvs' = (Returned, kvs').
Proof.
  revert kvs'. induction kvs as [|[k v] tl IH]; intros kvs' Hall H; simpl in H;
    [discriminate|].
  inversion Hall as [|? ? Hv Htl]; subst. simpl in Hv.
  destruct (String.eqb k key) eqn:E.
  - destruct (f v) as [r v'] eqn:Ev. injection H as -> <-.
    simpl. rewrite E, (Hv _ eq_refl). reflexivity.
  - destruct (at_key f key tl) as [r tl'] eqn:Et. injection H as -> <-.
    simpl. rewrite E, (IH _ Htl eq_refl). reflexivity.
Qed.

(** ** [apply_inheritance_by_value] *)

Lemma apply_inheritance_by_value_mapping (kvs : list (string * node)) :
  apply_inheritance_by_value (Mapping kvs)
  = (let (r, kvs1) := for_each (resolve_field apply_inheritance_by_value) kvs in
     match r with
     | Raised e => (Raised e, Mapping kvs1)
     | Returned =>
         match dict_get SHARED kvs1 with
         | None => (Returned, Mapping kvs1)
         | Some shared_data =>
             match shared_data with
             | Mapping entries =>
                 apply_shared_by_value entries (Mapping (dict_pop SHARED kvs1))
             | _ => (Raised AttributeError, Mapping (dict_pop SHARED kvs1))
             end
         end
     end).
Proof. reflexivity. Qed.

Lemma apply_shared_by_value_cons (path : string) (value : node)
    (tl : list (string * node)) (data : node) :
  apply_shared_by_value ((path, value) :: tl) data
  = (let (r, data') := inherit_value path value data None in
     match r with
     | Returned => apply_shared_by_value tl data'
     | Raised e => (Raised e, data')
     end).
Proof. reflexivity. Qed.

Lemma resolve_field_key (rec : node -> result * node) (k k' : string)
    (v v' : node) (r : result) :
  resolve_field rec (k, v) = (r, (k', v')) -> k' = k.
Proof.
  unfold resolve_field. destruct (String.eqb k SHARED).
  - intros H. injection H as _ <- _. reflexivity.
  - destruct v as [s|ckvs|items].
    + intros H. injection H as _ <- _. reflexivity.
    + destruct (rec (Mapping ckvs)). intros H. injection H as _ <- _. reflexivity.
    + destruct (for_each (resolve_item rec) items).
      intros H. injection H as _ <- _. reflexivity.
Qed.

Lemma resolve_field_shared (rec : node -> result * node) (v : node) :
  resolve_field rec (SHARED, v) = (Returned, (SHARED, v)).
Proof. reflexivity. Qed.


Lemma resolved_fields_get_back (rec : node -> result * node)
    (kvs kvs1 : list (string * node)) (k : string) (v' : node) :
  Forall2 (fun kv kv' => resolve_field rec kv = (Returned, kv')) kvs kvs1 ->
  dict_get k kvs1 = Some v' ->
  exists v, dict_get k kvs = Some v
            /\ resolve_field rec (k, v) = (Returned, (k, v')).
Proof.
  induction 1 as [|[k1 v1] [k2 v2] tl tl' Hkv _ IH]; simpl; intros H;
    [discriminate|].
  pose proof (resolve_field_key _ _ _ _ _ _ Hkv) as ->.
  destruct (String.eqb k1 k) eqn:E.
  - apply String.eqb_eq in E. subst k1. injection H as <-. eauto.
  - auto.
Qed.





(** ** Freedom from the reserved key *)

Lemma stays_shared_free_sequence (items items' : list node) :
  Forall2 stays_shared_free items items' ->
  stays_shared_free (Sequence items) (Sequence items').
Proof.
  unfold stays_shared_free. simpl.
  induction 1 as [|x x' tl tl' Hx _ IH]; simpl; [tauto|].
  intros H. apply andb_true_iff in H. destruct H as [H1 H2].
  rewrite (Hx H1), (IH H2). reflexivity.
Qed.

Lemma stays_shared_free_mapping (kvs kvs' : list (string * node)) :
  entries_related stays_shared_free kvs kvs' ->
  stays_shared_free (Mapping kvs) (Mapping kvs').
Proof.
  unfold stays_shared_free. simpl.
  induction 1 as [|[k v] [k' v'] tl tl' [Hk Hv] _ IH]; simpl; [tauto|].
  simpl in Hk, Hv. subst k'.
  intros H. apply andb_true_iff in H. destruct H as [H1 H2].
  apply andb_true_iff in H1. destruct H1 as [H1 H1'].
  rewrite H1, (Hv H1'), (IH H2). reflexivity.
Qed.

Lemma stays_shared_free_setdefault (leaf : string) (value : node)
    (kvs : list (string * node)) :
  String.eqb leaf SHARED = false -> shared_free value = true ->
  stays_shared_free (Mapping kvs) (Mapping (setdefault leaf value kvs)).
Proof.
  intros Hleaf Hvalue H. unfold setdefault.
  destruct (dict_mem leaf kvs); [exact H|].
  simpl in *. rewrite forallb_app, H. simpl.
  rewrite Hleaf, Hvalue. reflexivity.
Qed.

Lemma inherit_value_stays_shared_free (path : string) (value data : node)
    (_prefix : option string) (r : result) (data' : node) :
  String.eqb (last (split "." path) "") SHARED = false ->
  shared_free value = true ->
  inherit_value path value data _prefix = (r, data') ->
  shared_free data = true -> shared_free data' = true.
Proof.
  intros Hleaf Hvalue H.
  eapply (inherit_value_closure value (last (split "." path) "") stays_shared_free);
    [ intros n Hn; exact Hn
    | intros; apply stays_shared_free_setdefault; assumption
    | exact stays_shared_free_sequence
    | exact stays_shared_free_mapping
    | reflexivity
    | exact H ].
Qed.

Lemma apply_shared_by_value_stays_shared_free (entries : list (string * node)) :
  forallb default_ok entries = true ->
  forall data r data',
    apply_shared_by_value entries data = (r, data') ->
    shared_free data = true -> shared_free data' = true.
Proof.
  induction entries as [|[path value] tl IH]; intros Hok data r data' H Hd;
    simpl in H.
  - injection H as _ <-. exact Hd.
  - simpl in Hok. apply andb_true_iff in Hok. destruct Hok as [Hok Htl].
    unfold default_ok in Hok. simpl in Hok.
    apply andb_true_iff in Hok. destruct Hok as [Hleaf Hvalue].
    apply negb_true_iff in Hleaf.
    destruct (inherit_value path value data None) as [r1 d1] eqn:E1.
    pose proof (inherit_value_stays_shared_free _ _ _ _ _ _ Hleaf Hvalue E1 Hd)
      as H1.
    destruct r1.
    + eapply IH; eauto.
    + injection H as _ <-. exact H1.
Qed.

(** Induction that gives the hypothesis for the fields of a Mapping and
    for the elements of the Sequences its fields hold. *)
Lemma node_induction_fields (P : node -> Prop) :
  (forall s, P (Scalar s)) ->
  (forall items, Forall P items -> P (Sequence items)) ->
  (forall kvs,
      Forall (fun kv => P (snd kv)
                        /\ forall items, snd kv = Sequence items -> Forall P items)
        kvs ->
      P (Mapping kvs)) ->
  forall n, P n.
Proof.
  intros HS HQ HM.
  assert (H : forall n,
             P n /\ (forall items, n = Sequence items -> Forall P items)).
  { induction n as [s|kvs IH|items IH] using node_induction.
    - split; [apply HS | discriminate].
    - split; [apply HM; exact IH | discriminate].
    - assert (Hc : Forall P items).
      { eapply Forall_impl; [|exact IH]. intros x [Hx _]. exact Hx. }
      split; [apply HQ; exact Hc|]. intros items' E. inversion E; subst. exact Hc. }
  intros n. apply H.
Qed.

Lemma dict_pop_absent {V : Type} (k : string) (kvs : list (string * V)) :
  dict_get k kvs = None -> dict_pop k kvs = kvs.
Proof.
  induction kvs as [|[k1 v1] tl IH]; simpl; [reflexivity|].
  destruct (String.eqb k1 k); [discriminate|].
  intros H. simpl. rewrite (IH H). reflexivity.
Qed.

Lemma shared_free_pop (kvs : list (string * node)) :
  Forall (fun kv => String.eqb (fst kv) SHARED = false ->
                    shared_free (snd kv) = true) kvs ->
  shared_free (Mapping (dict_pop SHARED kvs)) = true.
Proof.
  induction 1 as [|[k v] tl Hkv _ IH]; simpl in *; [reflexivity|].
  destruct (String.eqb k SHARED) eqn:E; simpl; [exact IH|].
  rewrite E, (Hkv eq_refl). exact IH.
Qed.

Lemma resolved_items_shared_free (items items' : list node) :
  Forall (fun item => forall item', scoped item = true ->
                        apply_inheritance_by_value item = (Returned, item') ->
                        shared_free item' = true) items ->
  forallb (fun item => match item with
                       | Mapping _ => scoped item
                       | _ => shared_free item
                       end) items = true ->
  Forall2 (fun x x' => resolve_item apply_inheritance_by_value x = (Returned, x'))
    items items' ->
  forallb shared_free items' = true.
Proof.
  intros HP Hsc Hres. revert HP Hsc.
  induction Hres as [|x x' tl tl' Hx _ IH]; intros HP Hsc; [reflexivity|].
  inversion HP as [|? ? Hx0 Htl]; subst.
  simpl in Hsc. apply andb_true_iff in Hsc. destruct Hsc as [Hsx Hst].
  simpl. rewrite (IH Htl Hst), andb_true_r.
  destruct x as [s|ikvs|sub]; simpl in Hx.
  - injection Hx as <-. reflexivity.
  - apply Hx0; assumption.
  - injection Hx as <-. exact Hsx.
Qed.

(** ** Well-formedness is an invariant *)

Lemma existsb_keys {V : Type} (k : string) (kvs : list (string * V)) :
  existsb (String.eqb k) (keys kvs) = dict_mem k kvs.
Proof.
  unfold dict_mem. induction kvs as [|[k1 v1] tl IH]; simpl; [reflexivity|].
  rewrite (String.eqb_sym k k1). destruct (String.eqb k1 k); [reflexivity | exact IH].
Qed.

Lemma distinct_snoc (l : list string) (k : string) :
  distinct (l ++ [k]) = distinct l && negb (existsb (String.eqb k) l).
Proof.
  induction l as [|a l IH]; simpl; [reflexivity|].
  rewrite IH, existsb_app. simpl. rewrite orb_false_r, (String.eqb_sym k a).
  destruct (existsb (String.eqb a) l), (String.eqb a k), (distinct l),
    (existsb (String.eqb k) l); reflexivity.
Qed.

Lemma entries_related_keys (R : node -> node -> Prop)
    (kvs kvs' : list (string * node)) :
  entries_related R kvs kvs' -> keys kvs' = keys kvs.
Proof.
  induction 1 as [|kv kv' tl tl' [Hk _] _ IH]; simpl; [reflexivity|].
  rewrite Hk. f_equal. exact IH.
Qed.

Lemma stays_wf_mapping (kvs kvs' : list (string * node)) :
  entries_related stays_wf kvs kvs' -> stays_wf (Mapping kvs) (Mapping kvs').
Proof.
  intros Hrel H. simpl in *. apply andb_true_iff in H. destruct H as [Hd Hc].
  rewrite (entries_related_keys _ _ _ Hrel), Hd. simpl.
  clear Hd. induction Hrel as [|kv kv' tl tl' [_ Hv] _ IH]; [reflexivity|].
  simpl in *. apply andb_true_iff in Hc. destruct Hc as [Hc1 Hc2].
  rewrite (Hv Hc1), (IH Hc2). reflexivity.
Qed.

Lemma stays_wf_sequence (items items' : list node) :
  Forall2 stays_wf items items' -> stays_wf (Sequence items) (Sequence items').
Proof.
  unfold stays_wf. simpl.
  induction 1 as [|x x' tl tl' Hx _ IH]; simpl; [tauto|].
  intros H. apply andb_true_iff in H. destruct H as [H1 H2].
  rewrite (Hx H1), (IH H2). reflexivity.
Qed.

Lemma stays_wf_setdefault (leaf : string) (value : node)
    (kvs : list (string * node)) :
  wf_node value = true ->
  stays_wf (Mapping kvs) (Mapping (setdefault leaf value kvs)).
Proof.
  intros Hvalue H. unfold setdefault.
  destruct (dict_mem leaf kvs) eqn:Hmem; [exact H|].
  simpl in *. apply andb_true_iff in H. destruct H as [Hd Hc].
  unfold keys in *. rewrite map_app.
  change (map fst [(leaf, value)]) with [leaf].
  rewrite distinct_snoc, Hd. simpl.
  change (map fst kvs) with (keys kvs). rewrite existsb_keys, Hmem. simpl.
  rewrite forallb_app, Hc. simpl. rewrite Hvalue. reflexivity.
Qed.

Lemma inherit_value_stays_wf (path : string) (value data : node)
    (_prefix : option string) (r : result) (data' : node) :
  wf_node value = true ->
  inherit_value path value data _prefix = (r, data') ->
  wf_node data = true -> wf_node data' = true.
Proof.
  intros Hvalue H.
  eapply (inherit_value_closure value (last (split "." path) "") stays_wf);
    [ intros n Hn; exact Hn
    | intros; apply stays_wf_setdefault; assumption
    | exact stays_wf_sequence
    | exact stays_wf_mapping
    | reflexivity
    | exact H ].
Qed.

Lemma apply_shared_by_value_stays_wf (entries : list (string * node)) :
  forallb (fun kv => wf_node (snd kv)) entries = true ->
  forall data r data',
    apply_shared_by_value entries data = (r, data') ->
    wf_node data = true -> wf_node data' = true.
Proof.
  induction entries as [|[path value] tl IH]; intros Hok data r data' H Hd;
    simpl in H.
  - injection H as _ <-. exact Hd.
  - simpl in Hok. apply andb_true_iff in Hok. destruct Hok as [Hvalue Htl].
    destruct (inherit_value path value data None) as [r1 d1] eqn:E1.
    pose proof (inherit_value_stays_wf _ _ _ _ _ _ Hvalue E1 Hd) as H1.
    destruct r1.
    + eapply IH; eauto.
    + injection H as _ <-. exact H1.
Qed.

Lemma wf_pop (k : string) (kvs : list (string * node)) :
  wf_node (Mapping kvs) = true -> wf_node (Mapping (dict_pop k kvs)) = true.
Proof.
  simpl. induction kvs as [|[k1 v1] tl IH]; simpl; [tauto|].
  intros H. apply andb_true_iff in H. destruct H as [Hd Hc].
  apply andb_true_iff in Hd. destruct Hd as [Hk1 Hd].
  apply andb_true_iff in Hc. destruct Hc as [Hv1 Hc].
  assert (Htl : distinct (keys (dict_pop k tl))
                && forallb (fun kv => wf_node (snd kv)) (dict_pop k tl) = true).
  { apply IH. rewrite Hd, Hc. reflexivity. }
  destruct (String.eqb k1 k); simpl; [exact Htl|].
  apply andb_true_iff in Htl. destruct Htl as [Htl1 Htl2].
  rewrite Htl1, Htl2, Hv1, !andb_true_r.
  apply negb_true_iff. apply negb_true_iff in Hk1.
  rewrite existsb_keys in *. unfold dict_mem in *.
  destruct (dict_get k1 (dict_pop k tl)) as [x|] eqn:E; [|reflexivity].
  destruct (String.eqb_spec k1 k) as [->|Hne].
  - exfalso. clear -E. induction tl as [|[a b] tl IH]; simpl in E; [discriminate|].
    destruct (String.eqb a k) eqn:Ea; simpl in E; [auto|].
    rewrite Ea in E. auto.
  - rewrite dict_get_pop_other in E by exact Hne. rewrite E in Hk1. discriminate.
Qed.

Lemma wf_get (k : string) (kvs : list (string * node)) (v : node) :
  wf_node (Mapping kvs) = true -> dict_get k kvs = Some v -> wf_node v = true.
Proof.
  simpl. intros H Hget. apply andb_true_iff in H. destruct H as [_ Hc].
  rewrite forallb_forall in Hc. exact (Hc _ (dict_get_in _ _ _ Hget)).
Qed.

(** Whatever the outcome, [apply_inheritance_by_value] leaves a tree whose dicts
    have distinct keys. *)
Lemma apply_inheritance_by_value_stays_wf (root : node) :
  forall r root',
    apply_inheritance_by_value root = (r, root') ->
    wf_node root = true -> wf_node root' = true.
Proof.
  induction root as [s|items _|kvs IH] using node_induction_fields;
    intros r root' H Hwf; try (injection H as _ <-; exact Hwf).
  rewrite apply_inheritance_by_value_mapping in H.
  destruct (for_each _ kvs) as [r1 kvs1] eqn:Ef.
  assert (Hrel : entries_related stays_wf kvs kvs1).
  { eapply for_each_Forall2; [| |exact Ef].
    - intros x. split; [reflexivity | intros Hx; exact Hx].
    - eapply Forall_impl; [|exact IH].
      intros [k v] [Hv Hitems] r' [k' v'] Hres. simpl in Hv, Hitems.
      pose proof (resolve_field_key _ _ _ _ _ _ Hres) as ->.
      split; [reflexivity|]. simpl.
      unfold resolve_field in Hres.
      destruct (String.eqb k SHARED).
      + injection Hres as _ <-. intros Hx; exact Hx.
      + destruct v as [s|ckvs|items].
        * injection Hres as _ <-. intros Hx; exact Hx.
        * destruct (apply_inheritance_by_value (Mapping ckvs)) as [rc c'] eqn:Ec.
          injection Hres as _ <-. intros Hx. eapply Hv; eauto.
        * destruct (for_each (resolve_item apply_inheritance_by_value) items)
            as [ri items'] eqn:Ei.
          injection Hres as _ <-. apply stays_wf_sequence.
          eapply for_each_Forall2; [| |exact Ei].
          -- intros x Hx. exact Hx.
          -- eapply Forall_impl; [|exact (Hitems items eq_refl)].
             intros item Hitem r2 item' Hx.
             destruct item as [s|ikvs|sub]; simpl in Hx;
               try (injection Hx as _ <-; intros Hw; exact Hw).
             intros Hw. eapply Hitem; eauto. }
  pose proof (stays_wf_mapping _ _ Hrel Hwf) as Hwf1.
  destruct r1; [|injection H as _ <-; exact Hwf1].
  destruct (dict_get SHARED kvs1) as [shared_data|] eqn:Hget;
    [|injection H as _ <-; exact Hwf1].
  pose proof (wf_get _ _ _ Hwf1 Hget) as Hsd.
  pose proof (wf_pop SHARED _ Hwf1) as Hpop.
  destruct shared_data as [s0|entries|items];
    try (injection H as _ <-; exact Hpop).
  simpl in Hsd. apply andb_true_iff in Hsd. destruct Hsd as [_ Hsd].
  eapply apply_shared_by_value_stays_wf; eauto.
Qed.

(** ** Partial application on a mixed Sequence *)

Lemma for_each_setdefault_item_stops (prefix leaf : string) (value : node)
    (before : list node) (x : node) (after : list node) :
  forallb is_mapping before = true -> is_mapping x = false ->
  for_each (setdefault_item prefix leaf value) (before ++ x :: after)
  = (Raised (make_type_error prefix leaf),
     map (setdefault_node leaf value) before ++ x :: after).
Proof.
  intros Hb Hx. induction before as [|b before IH]; simpl in *.
  - destruct x; try discriminate; reflexivity.
  - apply andb_true_iff in Hb. destruct Hb as [Hb1 Hb2].
    destruct b as [s|ikvs|sub]; try discriminate.
    simpl. rewrite (IH Hb2). reflexivity.
Qed.

Lemma setdefault_node_fixed (leaf : string) (value item : node) :
  is_mapping item = true ->
  (setdefault_node leaf value item = item <-> has_field leaf item = true).
Proof.
  destruct item as [s|ikvs|sub]; try discriminate. intros _. simpl.
  unfold setdefault. destruct (dict_mem leaf ikvs); split; intros H;
    try reflexivity; try discriminate.
  exfalso. injection H as H. apply (f_equal (@length _)) in H.
  rewrite length_app in H. simpl in H. lia.
Qed.

Lemma map_setdefault_node_fixed (leaf : string) (value : node)
    (before : list node) :
  forallb is_mapping before = true ->
  (map (setdefault_node leaf value) before = before
   <-> forallb (has_field leaf) before = true).
Proof.
  induction before as [|b before IH]; simpl; intros Hb; [tauto|].
  apply andb_true_iff in Hb. destruct Hb as [Hb1 Hb2].
  rewrite andb_true_iff, <- (IH Hb2), <- (setdefault_node_fixed leaf value b Hb1).
  split.
  - intros H. injection H as H1 H2. tauto.
  - intros [H1 H2]. rewrite H1, H2. reflexivity.
Qed.

(** ** Merging Mappings with disjoint keys *)

Lemma merge_left_disjoint (f : string -> node -> node -> merged node)
    (path : string) (a b : list (string * node)) :
  disjoint_keys a b = true -> merge_left f path a b = Merged a.
Proof.
  unfold disjoint_keys. induction a as [|[k v] tl IH]; simpl; intros H;
    [reflexivity|].
  apply andb_true_iff in H. destruct H as [Hk Htl].
  unfold dict_mem in Hk. destruct (dict_get k b); [discriminate|].
  rewrite (IH Htl). reflexivity.
Qed.

Lemma disjoint_keys_right (a b : list (string * node)) :
  disjoint_keys a b = true ->
  filter (fun kv => negb (dict_mem (fst kv) a)) b = b.
Proof.
  unfold disjoint_keys. intros H.
  rewrite forallb_forall in H.
  induction b as [|[k v] tl IH]; simpl; [reflexivity|].
  assert (Hk : dict_mem k a = false).
  { unfold dict_mem. destruct (dict_get k a) as [x|] eqn:E; [|reflexivity].
    apply dict_get_in in E. apply (in_map fst) in E. simpl in E.
    specialize (H _ E). unfold dict_mem in H. simpl in H.
    rewrite String.eqb_refl in H. discriminate. }
  rewrite Hk. simpl. f_equal. apply IH.
  intros x Hx. specialize (H x Hx). unfold dict_mem in *. simpl in H.
  destruct (String.eqb k x); [discriminate | exact H].
Qed.

Lemma deep_merge_disjoint_app (a b : list (string * node)) :
  disjoint_keys a b = true ->
  deep_merge (Mapping a) (Mapping b) = Merged (Mapping (a ++ b)).
Proof.
  intros H. unfold deep_merge. simpl.
  rewrite (merge_left_disjoint _ _ _ _ H), (disjoint_keys_right _ _ H).
  reflexivity.
Qed.

(** ** The store and the tree *)
Lemma map_flat_map {A B C : Type} (f : B -> C) (g : A -> list B) (l : list A) :
  map f (flat_map g l) = flat_map (fun x => map f (g x)) l.
Proof.
  induction l as [|x tl IH]; simpl; [reflexivity|].
  rewrite map_app, IH. reflexivity.
Qed.

Lemma addresses_mapping (l : loc) (fields : list (string * placed)) :
  addresses (PMapping l fields) = l :: flat_map field_addresses fields.
Proof. unfold addresses. simpl. rewrite map_flat_map. reflexivity. Qed.

Lemma addresses_sequence (l : loc) (items : list placed) :
  addresses (PSequence l items) = l :: flat_map addresses items.
Proof. unfold addresses. simpl. rewrite map_flat_map. reflexivity. Qed.

Lemma stored_mapping (h : store) (l : loc) (fields : list (string * placed)) :
  stored h (PMapping l fields)
  <-> nth_error h l = Some (ODict (map entry_of fields))
      /\ Forall (field_stored h) fields.
Proof.
  unfold stored. simpl. rewrite Forall_cons_iff, Forall_flat_map. reflexivity.
Qed.

Lemma stored_sequence (h : store) (l : loc) (items : list placed) :
  stored h (PSequence l items)
  <-> nth_error h l = Some (OList (map val_of items)) /\ Forall (stored h) items.
Proof.
  unfold stored. simpl. rewrite Forall_cons_iff, Forall_flat_map. reflexivity.
Qed.

Lemma stored_frame (a : placed) (h h' : store) :
  stored h a ->
  (forall l, In l (addresses a) -> nth_error h' l = nth_error h l) ->
  stored h' a.
Proof.
  unfold stored, addresses. intros H Hsame.
  rewrite Forall_forall in *. intros c Hc.
  rewrite Hsame; [apply H; exact Hc|]. apply in_map. exact Hc.
Qed.

Lemma NoDup_app_inv {A : Type} (l1 l2 : list A) :
  NoDup (l1 ++ l2) ->
  NoDup l1 /\ NoDup l2 /\ forall x, In x l1 -> ~ In x l2.
Proof.
  induction l1 as [|a l1 IH]; simpl; intros H.
  - repeat split; [constructor | exact H | intros x []].
  - inversion H as [|? ? Hn Hd]; subst.
    destruct (IH Hd) as (H1 & H2 & H3).
    repeat split; [|exact H2|].
    + constructor; [|exact H1]. intros Hin. apply Hn, in_or_app. left. exact Hin.
    + intros x [<-|Hx]; [|apply H3; exact Hx].
      intros Hin. apply Hn, in_or_app. right. exact Hin.
Qed.

Lemma update_length (h : store) (l : loc) (o : obj) :
  length (update h l o) = length h.
Proof.
  revert l. induction h as [|x tl IH]; intros [|l]; simpl; auto.
Qed.

Lemma update_same (h : store) (l : loc) (o : obj) :
  l < length h -> nth_error (update h l o) l = Some o.
Proof.
  revert l. induction h as [|x tl IH]; intros [|l]; simpl; intros H;
    try lia; [reflexivity|]. apply IH. lia.
Qed.

Lemma update_other (h : store) (l l' : loc) (o : obj) :
  l' <> l -> nth_error (update h l o) l' = nth_error h l'.
Proof.
  revert l l'. induction h as [|x tl IH]; intros [|l] [|l'] H; simpl;
    try reflexivity; try congruence.
  apply IH. congruence.
Qed.

Lemma update_unchanged_outside (h : store) (l : loc) (o : obj) (ls : list loc) :
  In l ls -> unchanged_outside ls h (update h l o).
Proof.
  intros Hin. split; [apply update_length|].
  intros l' Hl'. apply update_other. intros ->. contradiction.
Qed.

Lemma unchanged_outside_refl (ls : list loc) (h : store) : unchanged_outside ls h h.
Proof. split; reflexivity. Qed.

Lemma unchanged_outside_trans (ls : list loc) (h1 h2 h3 : store) :
  unchanged_outside ls h1 h2 -> unchanged_outside ls h2 h3 ->
  unchanged_outside ls h1 h3.
Proof.
  intros [L1 H1] [L2 H2]. split; [congruence|].
  intros l Hl. rewrite H2, H1; auto.
Qed.

Lemma unchanged_outside_incl (ls ls' : list loc) (h h' : store) :
  incl ls ls' -> unchanged_outside ls h h' -> unchanged_outside ls' h h'.
Proof.
  intros Hi [L H]. split; [exact L|]. intros l Hl. apply H. intros Hin.
  apply Hl, Hi, Hin.
Qed.

(** ** Loops over the store and over the tree, side by side *)

Section LoopSim.
Context {A B C : Type}.
Variables (to_store : A -> B) (to_tree : A -> C).
Variable addrs : A -> list loc.
Variable ok : store -> A -> Prop.
Hypothesis ok_frame :
  forall x h h', ok h x ->
    (forall l, In l (addrs x) -> nth_error h' l = nth_error h l) -> ok h' x.

Lemma evolved_refl (x : A) : NoDup (addrs x) -> (evolved to_store addrs) x x.
Proof. intros H. split; [reflexivity|]. split; [apply incl_refl | exact H]. Qed.

Lemma NoDup_flat_map_each (xs : list A) :
  NoDup (flat_map addrs xs) -> Forall (fun x => NoDup (addrs x)) xs.
Proof.
  induction xs as [|x tl IH]; simpl; intros H; constructor.
  - apply NoDup_app_inv in H. tauto.
  - apply IH. apply NoDup_app_inv in H. tauto.
Qed.

Lemma evolved_all_refl (xs : list A) :
  NoDup (flat_map addrs xs) -> Forall2 (evolved to_store addrs) xs xs.
Proof.
  intros H. apply NoDup_flat_map_each in H.
  induction H; constructor; auto using evolved_refl.
Qed.

Lemma evolved_all_incl (xs xs' : list A) :
  Forall2 (evolved to_store addrs) xs xs' -> incl (flat_map addrs xs') (flat_map addrs xs).
Proof.
  induction 1 as [|x x' tl tl' (_ & Hi & _) _ IH]; simpl; [apply incl_refl|].
  apply incl_app; [apply incl_appl; exact Hi | apply incl_appr; exact IH].
Qed.

Lemma evolved_all_to_store (xs xs' : list A) :
  Forall2 (evolved to_store addrs) xs xs' -> map to_store xs' = map to_store xs.
Proof.
  induction 1 as [|x x' tl tl' (He & _) _ IH]; simpl; [reflexivity|].
  rewrite He, IH. reflexivity.
Qed.

Lemma ok_all_frame (xs : list A) (h h' : store) :
  Forall (ok h) xs ->
  (forall l, In l (flat_map addrs xs) -> nth_error h' l = nth_error h l) ->
  Forall (ok h') xs.
Proof.
  intros H Hsame. rewrite Forall_forall in *. intros x Hx.
  eapply ok_frame; [apply H; exact Hx|].
  intros l Hl. apply Hsame. apply in_flat_map. eauto.
Qed.

Lemma sim_all_nil (r : result) (h : store) :
  (sim_all to_store to_tree addrs ok) (fun h0 => (r, h0)) (r, []) [] h.
Proof.
  exists r, h, []. simpl. repeat split; try constructor; auto.
Qed.

Lemma sim_all_same (r : result) (xs : list A) (h : store) :
  Forall (ok h) xs -> NoDup (flat_map addrs xs) ->
  (sim_all to_store to_tree addrs ok) (fun h0 => (r, h0)) (r, map to_tree xs) xs h.
Proof.
  intros Hok Hnd. exists r, h, xs.
  repeat split; auto using evolved_all_refl.
Qed.

Lemma sim_same (r : result) (x : A) (h : store) :
  ok h x -> NoDup (addrs x) -> (sim to_store to_tree addrs ok) (fun h0 => (r, h0)) (r, to_tree x) x h.
Proof.
  intros Hok Hnd. exists r, h, x.
  repeat split; auto. apply incl_refl.
Qed.

(** A run on the first element only. *)
Lemma sim_all_here (run : store -> result * store) (out : result * C)
    (x : A) (tl : list A) (h : store) :
  (sim to_store to_tree addrs ok) run out x h -> Forall (ok h) tl -> NoDup (flat_map addrs (x :: tl)) ->
  (sim_all to_store to_tree addrs ok) run (let (r, y) := out in (r, y :: map to_tree tl)) (x :: tl) h.
Proof.
  intros (r & h' & x' & Hrun & Hout & (Hs & Hi & Hn) & Hok' & Hun) Hoktl Hnd.
  simpl in Hnd. apply NoDup_app_inv in Hnd. destruct Hnd as (Hndx & Hndtl & Hdisj).
  exists r, h', (x' :: tl). rewrite Hout. simpl.
  repeat split; auto.
  - constructor; [repeat split; auto | apply evolved_all_refl; exact Hndtl].
  - constructor; [exact Hok'|].
    eapply ok_all_frame; [exact Hoktl|]. intros l Hl. apply Hun.
    intros Hin. exact (Hdisj l Hin Hl).
  - apply NoDup_app; [exact Hn | exact Hndtl |].
    intros l Hl. apply Hdisj, Hi, Hl.
  - apply Hun.
  - intros l Hl. apply Hun. intros Hin. apply Hl, in_or_app. auto.
Qed.

(** A run on the elements after the first. *)
Lemma sim_all_later (run : store -> result * store) (out : result * list C)
    (x : A) (tl : list A) (h : store) :
  (sim_all to_store to_tree addrs ok) run out tl h -> ok h x -> NoDup (flat_map addrs (x :: tl)) ->
  (sim_all to_store to_tree addrs ok) run (let (r, ys) := out in (r, to_tree x :: ys)) (x :: tl) h.
Proof.
  intros (r & h' & tl' & Hrun & Hout & Hev & Hok' & Hnd' & Hun) Hokx Hnd.
  simpl in Hnd. apply NoDup_app_inv in Hnd. destruct Hnd as (Hndx & Hndtl & Hdisj).
  exists r, h', (x :: tl'). rewrite Hout. simpl.
  repeat split; auto.
  - constructor; [apply evolved_refl; exact Hndx | exact Hev].
  - constructor; [|exact Hok'].
    eapply ok_frame; [exact Hokx|]. intros l Hl. apply Hun.
    intros Hin. exact (Hdisj l Hl Hin).
  - apply NoDup_app; [exact Hndx | exact Hnd' |].
    intros l Hl Hin. apply (Hdisj l Hl).
    exact (evolved_all_incl _ _ Hev l Hin).
  - apply Hun.
  - intros l Hl. apply Hun. intros Hin. apply Hl, in_or_app. auto.
Qed.

(** One run after another on the same element. *)
Lemma sim_then (run1 run2 : store -> result * store) (out1 : result * C)
    (out2 : C -> result * C) (x : A) (h : store) :
  (sim to_store to_tree addrs ok) run1 out1 x h ->
  (forall x1 h1, out1 = (Returned, to_tree x1) -> (evolved to_store addrs) x x1 -> ok h1 x1 ->
                 (sim to_store to_tree addrs ok) run2 (out2 (to_tree x1)) x1 h1) ->
  (sim to_store to_tree addrs ok) (fun h0 => let (r, h1) := run1 h0 in
                 match r with Returned => run2 h1 | Raised e => (Raised e, h1) end)
      (let (r, y) := out1 in
       match r with Returned => out2 y | Raised e => (Raised e, y) end)
      x h.
Proof.
  intros (r & h1 & x1 & Hrun & Hout & Hev & Hok1 & Hun) Hnext.
  unfold sim. rewrite Hrun, Hout. destruct r as [|e].
  - destruct (Hnext x1 h1 Hout Hev Hok1) as (r2 & h2 & x2 & Hrun2 & Hout2 & Hev2 & Hok2 & Hun2).
    exists r2, h2, x2. destruct Hev as (Hs & Hi & Hn), Hev2 as (Hs2 & Hi2 & Hn2).
    repeat split; auto; try congruence.
    + eapply incl_tran; eauto.
    + destruct Hun, Hun2. congruence.
    + intros l Hl. destruct Hun as [_ Hun], Hun2 as [_ Hun2].
      rewrite Hun2, Hun; auto.
  - exists (Raised e), h1, x1. destruct Hev as (Hs & Hi & Hn).
    repeat split; auto; apply Hun.
Qed.

(** A run that starts from a state reached earlier. *)
Lemma sim_after (run : store -> result * store) (out : result * C)
    (x x2 : A) (h h2 : store) :
  (evolved to_store addrs) x x2 -> unchanged_outside (addrs x) h h2 ->
  (sim to_store to_tree addrs ok) run out x2 h2 -> (sim to_store to_tree addrs ok) (fun _ => run h2) out x h.
Proof.
  intros (Hs & Hi & Hn) Hun (r & h3 & x3 & Hrun & Hout & (Hs3 & Hi3 & Hn3) & Hok & Hun3).
  exists r, h3, x3. repeat split; auto; try congruence.
  - eapply incl_tran; eauto.
  - destruct Hun, Hun3. congruence.
  - intros l Hl. destruct Hun as [_ Hun], Hun3 as [_ Hun3].
    rewrite Hun3, Hun; auto.
Qed.

Variable body : B -> store -> result * store.
Variable f : C -> result * C.

Lemma for_in_sim (xs : list A) :
  Forall (fun x => forall h, ok h x -> NoDup (addrs x) ->
                   (sim to_store to_tree addrs ok) (body (to_store x)) (f (to_tree x)) x h) xs ->
  forall h, Forall (ok h) xs -> NoDup (flat_map addrs xs) ->
    (sim_all to_store to_tree addrs ok) (for_in body (map to_store xs)) (for_each f (map to_tree xs)) xs h.
Proof.
  induction 1 as [|x tl Hx _ IH]; intros h Hok Hnd.
  - exists Returned, h, []. simpl.
    repeat split; try constructor; auto.
  - simpl in Hnd. apply NoDup_app_inv in Hnd. destruct Hnd as (Hndx & Hndtl & Hdisj).
    inversion Hok as [|? ? Hokx Hoktl]; subst.
    destruct (Hx h Hokx Hndx) as (r1 & h1 & x' & Hrun & Hout & Hev & Hok' & Hun).
    assert (Hoktl1 : Forall (ok h1) tl).
    { eapply ok_all_frame; [exact Hoktl|]. intros l Hl. apply Hun.
      intros Hin. exact (Hdisj l Hin Hl). }
    destruct r1 as [|e].
    + destruct (IH h1 Hoktl1 Hndtl) as (r & h2 & tl' & Hrun2 & Hout2 & Hev2 & Hok2 & Hnd2 & Hun2).
      exists r, h2, (x' :: tl'). simpl. rewrite Hrun, Hout, Hrun2, Hout2.
      destruct Hev as (Hs & Hi & Hn).
      repeat split; auto.
      * constructor; [repeat split; auto | exact Hev2].
      * constructor; [|exact Hok2].
        eapply ok_frame; [exact Hok'|]. intros l Hl. apply Hun2.
        intros Hin. exact (Hdisj l (Hi l Hl) Hin).
      * apply NoDup_app; [exact Hn | exact Hnd2 |].
        intros l Hl Hin. apply (Hdisj l (Hi l Hl)).
        exact (evolved_all_incl _ _ Hev2 l Hin).
      * destruct Hun, Hun2. congruence.
      * intros l Hl. destruct Hun as [_ Hun], Hun2 as [_ Hun2].
        rewrite Hun2, Hun; auto; intros Hin; apply Hl, in_or_app; auto.
    + exists (Raised e), h1, (x' :: tl). simpl. rewrite Hrun, Hout.
      destruct Hev as (Hs & Hi & Hn).
      repeat split; auto.
      * constructor; [repeat split; auto | apply evolved_all_refl; exact Hndtl].
      * apply NoDup_app; [exact Hn | exact Hndtl |].
        intros l Hl. apply Hdisj, Hi, Hl.
      * apply Hun.
      * intros l Hl. apply Hun. intros Hin. apply Hl, in_or_app. auto.
Qed.
End LoopSim.

(** ** The three instances: nodes, fields of a Mapping, elements of a
    Sequence *)

Lemma field_stored_frame (kv : string * placed) (h h' : store) :
  field_stored h kv ->
  (forall l, In l (field_addresses kv) -> nth_error h' l = nth_error h l) ->
  field_stored h' kv.
Proof. apply stored_frame. Qed.

Lemma kind_of_mapping (h : store) (l : loc) (fields : list (string * placed)) :
  stored h (PMapping l fields) ->
  kind_of h (VRef l) = KDict l (map entry_of fields).
Proof. intros H. apply stored_mapping in H. simpl. destruct H as [-> _]. reflexivity. Qed.

Lemma kind_of_sequence (h : store) (l : loc) (items : list placed) :
  stored h (PSequence l items) ->
  kind_of h (VRef l) = KList l (map val_of items).
Proof. intros H. apply stored_sequence in H. simpl. destruct H as [-> _]. reflexivity. Qed.

Lemma mapping_sim (run : store -> result * store)
    (out : result * list (string * node)) (l : loc)
    (fields : list (string * placed)) (h : store) :
  stored h (PMapping l fields) -> NoDup (addresses (PMapping l fields)) ->
  fields_sim run out fields h ->
  node_sim run (let (r, kvs') := out in (r, Mapping kvs')) (PMapping l fields) h.
Proof.
  intros Hst Hnd (r & h' & fs' & Hrun & Hout & Hev & Hok & Hnd' & Hun).
  rewrite addresses_mapping in Hnd. inversion Hnd as [|? ? Hl Hndc]; subst.
  exists r, h', (PMapping l fs').
  split; [exact Hrun|]. split; [reflexivity|].
  assert (Hincl := Hev). apply evolved_all_incl in Hincl.
  assert (Hts := Hev). apply evolved_all_to_store in Hts.
  split; [|split].
  - split; [reflexivity|]. rewrite !addresses_mapping. split.
    + intros x [<-|Hx]; [left; reflexivity | right; apply Hincl; exact Hx].
    + constructor; [|exact Hnd']. intros Hin. apply Hl, Hincl, Hin.
  - apply stored_mapping. split; [|exact Hok].
    destruct Hun as [_ Hun]. rewrite Hun by exact Hl.
    apply stored_mapping in Hst. destruct Hst as [-> _].
    rewrite Hts. reflexivity.
  - eapply unchanged_outside_incl; [|exact Hun].
    rewrite addresses_mapping. apply incl_tl, incl_refl.
Qed.

Lemma sequence_sim (run : store -> result * store)
    (out : result * list node) (l : loc) (items : list placed) (h : store) :
  stored h (PSequence l items) -> NoDup (addresses (PSequence l items)) ->
  items_sim run out items h ->
  node_sim run (let (r, items') := out in (r, Sequence items')) (PSequence l items) h.
Proof.
  intros Hst Hnd (r & h' & fs' & Hrun & Hout & Hev & Hok & Hnd' & Hun).
  rewrite addresses_sequence in Hnd. inversion Hnd as [|? ? Hl Hndc]; subst.
  exists r, h', (PSequence l fs').
  split; [exact Hrun|]. split; [reflexivity|].
  assert (Hincl := Hev). apply evolved_all_incl in Hincl.
  assert (Hts := Hev). apply evolved_all_to_store in Hts.
  split; [|split].
  - split; [reflexivity|]. rewrite !addresses_sequence. split.
    + intros x [<-|Hx]; [left; reflexivity | right; apply Hincl; exact Hx].
    + constructor; [|exact Hnd']. intros Hin. apply Hl, Hincl, Hin.
  - apply stored_sequence. split; [|exact Hok].
    destruct Hun as [_ Hun]. rewrite Hun by exact Hl.
    apply stored_sequence in Hst. destruct Hst as [-> _].
    rewrite Hts. reflexivity.
  - eapply unchanged_outside_incl; [|exact Hun].
    rewrite addresses_sequence. apply incl_tl, incl_refl.
Qed.

Lemma field_sim_lift (run : store -> result * store) (out : result * node)
    (k : string) (c : placed) (h : store) :
  node_sim run out c h ->
  field_sim run (let (r, v') := out in (r, (k, v'))) (k, c) h.
Proof.
  intros (r & h' & c' & Hrun & Hout & (Hs & Hi & Hn) & Hok & Hun).
  exists r, h', (k, c'). rewrite Hout.
  repeat split; auto; try apply Hun.
  unfold entry_of. simpl. rewrite Hs. reflexivity.
Qed.

(** ** Dictionaries under a change of values *)

Section DictMap.
Context {V W : Type}.
Variable g : V -> W.

Lemma dict_get_map (k : string) (kvs : list (string * V)) :
  dict_get k (map (fun kv => (fst kv, g (snd kv))) kvs)
  = option_map g (dict_get k kvs).
Proof.
  induction kvs as [|[k1 v1] tl IH]; simpl; [reflexivity|].
  destruct (String.eqb k1 k); [reflexivity | exact IH].
Qed.

Lemma dict_mem_map (k : string) (kvs : list (string * V)) :
  dict_mem k (map (fun kv => (fst kv, g (snd kv))) kvs) = dict_mem k kvs.
Proof.
  unfold dict_mem. rewrite dict_get_map. destruct (dict_get k kvs); reflexivity.
Qed.

Lemma setdefault_map (k : string) (v : V) (kvs : list (string * V)) :
  setdefault k (g v) (map (fun kv => (fst kv, g (snd kv))) kvs)
  = map (fun kv => (fst kv, g (snd kv))) (setdefault k v kvs).
Proof.
  unfold setdefault. rewrite dict_mem_map.
  destruct (dict_mem k kvs); [reflexivity|]. rewrite map_app. reflexivity.
Qed.

Lemma dict_pop_map (k : string) (kvs : list (string * V)) :
  dict_pop k (map (fun kv => (fst kv, g (snd kv))) kvs)
  = map (fun kv => (fst kv, g (snd kv))) (dict_pop k kvs).
Proof.
  unfold dict_pop. induction kvs as [|[k1 v1] tl IH]; simpl; [reflexivity|].
  destruct (negb (String.eqb k1 k)); simpl; rewrite IH; reflexivity.
Qed.
End DictMap.

Section SimExt.
Context {A B C : Type}.
Variables (to_store : A -> B) (to_tree : A -> C).
Variable addrs : A -> list loc.
Variable ok : store -> A -> Prop.

Lemma sim_ext (run run' : store -> result * store) (out out' : result * C)
    (x : A) (h : store) :
  run h = run' h -> out = out' ->
  sim to_store to_tree addrs ok run' out' x h ->
  sim to_store to_tree addrs ok run out x h.
Proof. unfold sim. intros -> ->. auto. Qed.

Lemma sim_all_ext (run run' : store -> result * store)
    (out out' : result * list C) (xs : list A) (h : store) :
  run h = run' h -> out = out' ->
  sim_all to_store to_tree addrs ok run' out' xs h ->
  sim_all to_store to_tree addrs ok run out xs h.
Proof. unfold sim_all. intros -> ->. auto. Qed.
End SimExt.

(** ** One [setdefault] *)

Lemma addresses_setdefault (leaf : string) (s : scalar)
    (fields : list (string * placed)) :
  flat_map field_addresses (setdefault leaf (PScalar s) fields)
  = flat_map field_addresses fields.
Proof.
  unfold setdefault. destruct (dict_mem leaf fields); [reflexivity|].
  rewrite flat_map_app. simpl. rewrite !app_nil_r. reflexivity.
Qed.

Lemma setdefault_sim (leaf : string) (s : scalar) (l : loc)
    (fields : list (string * placed)) (h : store) :
  stored h (PMapping l fields) -> NoDup (addresses (PMapping l fields)) ->
  node_sim
    (fun h0 => (Returned,
                update h0 l (ODict (setdefault leaf (VScalar s) (map entry_of fields)))))
    (Returned, Mapping (setdefault leaf (Scalar s) (map field_of fields)))
    (PMapping l fields) h.
Proof.
  intros Hst Hnd.
  exists Returned, (update h l (ODict (setdefault leaf (VScalar s) (map entry_of fields)))),
    (PMapping l (setdefault leaf (PScalar s) fields)).
  split; [reflexivity|]. split.
  { simpl. f_equal. f_equal. exact (setdefault_map tree_of leaf (PScalar s) fields). }
  assert (Ha : addresses (PMapping l (setdefault leaf (PScalar s) fields))
               = addresses (PMapping l fields)).
  { rewrite !addresses_mapping, addresses_setdefault. reflexivity. }
  pose proof Hst as Hst0. apply stored_mapping in Hst0. destruct Hst0 as [Hl Hc].
  assert (Hlt : l < length h).
  { apply nth_error_Some. rewrite Hl. discriminate. }
  rewrite addresses_mapping in Hnd. inversion Hnd as [|? ? Hnin Hndc]; subst.
  split; [|split].
  - split; [reflexivity|]. rewrite Ha, addresses_mapping.
    split; [apply incl_refl | constructor; assumption].
  - apply stored_mapping. split.
    + rewrite update_same by exact Hlt. f_equal. f_equal.
      exact (setdefault_map val_of leaf (PScalar s) fields).
    + assert (Hc' : Forall (field_stored (update h l
                 (ODict (setdefault leaf (VScalar s) (map entry_of fields))))) fields).
      { rewrite Forall_forall in *. intros kv Hkv.
        eapply field_stored_frame; [apply Hc; exact Hkv|].
        intros l' Hl'. apply update_other. intros ->.
        apply Hnin. apply in_flat_map. eauto. }
      unfold setdefault. destruct (dict_mem leaf fields); [exact Hc'|].
      apply Forall_app. split; [exact Hc'|]. constructor; [|constructor].
      unfold field_stored, stored. simpl. constructor.
  - apply update_unchanged_outside. rewrite addresses_mapping. left. reflexivity.
Qed.

Lemma setdefault_item_sim (prefix leaf : string) (s : scalar) (c : placed)
    (h : store) :
  stored h c -> NoDup (addresses c) ->
  node_sim (store_setdefault_item prefix leaf (VScalar s) (val_of c))
    (setdefault_item prefix leaf (Scalar s) (tree_of c)) c h.
Proof.
  intros Hst Hnd. destruct c as [s0|l fs|l items].
  - apply sim_same; assumption.
  - eapply sim_ext; [| |apply setdefault_sim; eassumption].
    + unfold store_setdefault_item. simpl val_of.
      rewrite (kind_of_mapping _ _ _ Hst). reflexivity.
    + reflexivity.
  - eapply sim_ext; [| |apply sim_same; eassumption].
    + unfold store_setdefault_item. simpl val_of.
      rewrite (kind_of_sequence _ _ _ Hst). reflexivity.
    + reflexivity.
Qed.

(** ** The loops of [inherit_value] *)

Section StepSim.
Variable rec_store : val -> store -> result * store.
Variable rec_tree : node -> result * node.

Lemma star_field_sim (kv : string * placed) (h : store) :
  rec_sim rec_store rec_tree (snd kv) -> field_stored h kv -> NoDup (field_addresses kv) ->
  field_sim (store_star_field rec_store (entry_of kv))
    (star_field rec_tree (field_of kv)) kv h.
Proof.
  destruct kv as [k c]. intros Hrec Hst Hnd.
  unfold store_star_field, star_field, entry_of, field_of. simpl.
  destruct (negb (String.eqb k SHARED)).
  - exact (field_sim_lift _ _ k c h (Hrec h Hst Hnd)).
  - exact (sim_same entry_of field_of field_addresses field_stored Returned (k, c) h
             Hst Hnd).
Qed.

Lemma at_key_sim (key : string) (fields : list (string * placed)) :
  Forall (fun kv => rec_sim rec_store rec_tree (snd kv)) fields ->
  forall h, Forall (field_stored h) fields ->
    NoDup (flat_map field_addresses fields) ->
    fields_sim (store_at_key rec_store key (map entry_of fields))
      (at_key rec_tree key (map field_of fields)) fields h.
Proof.
  induction 1 as [|[k c] tl Hc _ IH]; intros h Hst Hnd.
  - exact (sim_all_nil entry_of field_of field_addresses field_stored
             (Raised (KeyError key)) h).
  - inversion Hst as [|? ? Hstc Hsttl]; subst.
    pose proof Hnd as Hnd0. simpl in Hnd0. apply NoDup_app_inv in Hnd0.
    destruct Hnd0 as (Hndc & Hndtl & _).
    destruct (String.eqb k key) eqn:Ek.
    + eapply sim_all_ext; cycle 2.
      * apply (sim_all_here entry_of field_of field_addresses field_stored
                 field_stored_frame _ _ (k, c) tl h
                 (field_sim_lift _ _ k c h (Hc h Hstc Hndc)) Hsttl Hnd).
      * unfold store_at_key. simpl. rewrite Ek. reflexivity.
      * simpl. rewrite Ek. destruct (rec_tree (tree_of c)); reflexivity.
    + eapply sim_all_ext; cycle 2.
      * apply (sim_all_later entry_of field_of field_addresses field_stored
                 field_stored_frame _ _ (k, c) tl h
                 (IH h Hsttl Hndtl) Hstc Hnd).
      * unfold store_at_key. simpl. rewrite Ek. reflexivity.
      * simpl. rewrite Ek. reflexivity.
Qed.

Lemma at_item_key_sim (key : string) (c : placed) (h : store) :
  (forall l fields, c = PMapping l fields ->
                    Forall (fun kv => rec_sim rec_store rec_tree (snd kv)) fields) ->
  stored h c -> NoDup (addresses c) ->
  node_sim (store_at_item_key rec_store key (val_of c))
    (at_item_key rec_tree key (tree_of c)) c h.
Proof.
  intros Hrec Hst Hnd. destruct c as [s0|l fs|l items].
  - apply sim_same; assumption.
  - eapply sim_ext; [| |apply mapping_sim; [exact Hst | exact Hnd |]].
    + unfold store_at_item_key. simpl val_of.
      rewrite (kind_of_mapping _ _ _ Hst). reflexivity.
    + reflexivity.
    + apply at_key_sim; [exact (Hrec l fs eq_refl) | |].
      * apply stored_mapping in Hst. tauto.
      * rewrite addresses_mapping in Hnd. inversion Hnd; assumption.
  - eapply sim_ext; [| |apply sim_same; eassumption].
    + unfold store_at_item_key. simpl val_of.
      rewrite (kind_of_sequence _ _ _ Hst). reflexivity.
    + reflexivity.
Qed.
End StepSim.

(** ** The cases of [inherit_value] on the store *)

Section StoreInheritCases.
Variables (limit : nat) (path : string) (value data : val).
Variables (_prefix : option string) (h : store).

Lemma inherit_value_upto_bad_end :
  endswith_star path = true ->
  inherit_value_upto (S limit) path value data _prefix h = (Raised ValueError, h).
Proof. intros H. simpl. rewrite H. reflexivity. Qed.

Hypothesis Hend : endswith_star path = false.

Lemma inherit_value_upto_leaf (leaf : string) :
  split "." path = [leaf] ->
  inherit_value_upto (S limit) path value data _prefix h
  = match kind_of h data with
    | KDict l entries =>
        (Returned, update h l (ODict (setdefault leaf value entries)))
    | KList _ items =>
        for_in (store_setdefault_item (prefix_of _prefix) leaf value) items h
    | KOther => (Raised (make_type_error (prefix_of _prefix) leaf), h)
    end.
Proof. intros H. simpl. rewrite Hend, H. reflexivity. Qed.

Lemma inherit_value_upto_star (rest : list string) :
  split "." path = "*" :: rest -> rest <> [] ->
  inherit_value_upto (S limit) path value data _prefix h
  = match kind_of h data with
    | KDict _ entries =>
        for_in
          (store_star_field
             (fun v => inherit_value_upto limit (join "." rest) value v
                         (child_prefix _prefix "*")))
          entries h
    | _ => (Raised AttributeError, h)
    end.
Proof.
  intros H Hne. simpl. rewrite Hend, H.
  destruct rest; [congruence | reflexivity].
Qed.

Lemma inherit_value_upto_key (key : string) (rest : list string) :
  split "." path = key :: rest -> rest <> [] -> String.eqb key "*" = false ->
  inherit_value_upto (S limit) path value data _prefix h
  = match kind_of h data with
    | KDict _ entries =>
        store_at_key
          (fun v => inherit_value_upto limit (join "." rest) value v
                      (child_prefix _prefix key))
          key entries h
    | KList _ items =>
        for_in
          (store_at_item_key
             (fun v => inherit_value_upto limit (join "." rest) value v
                         (child_prefix _prefix key))
             key)
          items h
    | KOther => (Raised (make_type_error (prefix_of _prefix) key), h)
    end.
Proof.
  intros H Hne Hk. simpl. rewrite Hend, H.
  destruct rest; [congruence|]. rewrite Hk. reflexivity.
Qed.
End StoreInheritCases.

(** ** One call of [inherit_value] with a scalar default *)

Lemma psize_field (l : loc) (fields : list (string * placed)) (kv : string * placed) :
  In kv fields -> psize (snd kv) < psize (PMapping l fields).
Proof.
  simpl. induction fields as [|x tl IH]; simpl; intros H; [contradiction|].
  destruct H as [->|H]; [lia|]. specialize (IH H). lia.
Qed.

Lemma psize_item (l : loc) (items : list placed) (c : placed) :
  In c items -> psize c < psize (PSequence l items).
Proof.
  simpl. induction items as [|x tl IH]; simpl; intros H; [contradiction|].
  destruct H as [->|H]; [lia|]. specialize (IH H). lia.
Qed.

Lemma split_length (path : string) : 1 <= length (split "." path).
Proof.
  destruct (split "." path) eqn:E; [exfalso; exact (split_not_nil _ _ E)|].
  simpl. lia.
Qed.

Lemma inherit_value_sim (n : nat) :
  forall a, psize a <= n ->
  forall path s pre limit h,
    length (split "." path) <= limit ->
    stored h a -> NoDup (addresses a) ->
    node_sim (inherit_value_upto limit path (VScalar s) (val_of a) pre)
      (inherit_value path (Scalar s) (tree_of a) pre) a h.
Proof.
  induction n as [|n IHn]; intros a Hsize path s pre limit h Hlimit Hst Hnd.
  { destruct a; simpl in Hsize; lia. }
  destruct limit as [|limit]; [pose proof (split_length path); lia|].
  assert (Hrec : forall c key rest,
             psize c <= n -> split "." path = key :: rest -> rest <> [] ->
             rec_sim
               (fun v => inherit_value_upto limit (join "." rest) (VScalar s) v
                           (child_prefix pre key))
               (fun v => inherit_value (join "." rest) (Scalar s) v
                           (child_prefix pre key)) c).
  { intros c key rest Hc Hs Hne h0 Hst0 Hnd0. apply IHn; auto.
    rewrite (split_tail _ _ _ Hs Hne). rewrite Hs in Hlimit. simpl in Hlimit. lia. }
  destruct (path_cases path) as [He|lf He Hs|rest He Hs Hne|key rest He Hs Hne Hk].
  - eapply sim_ext; cycle 2.
    + apply sim_same; eassumption.
    + rewrite inherit_value_upto_bad_end by exact He. reflexivity.
    + apply inherit_value_bad_end. exact He.
  - (* the last segment *)
    destruct a as [s0|l fs|l items].
    + eapply sim_ext; cycle 2.
      * apply sim_same; eassumption.
      * rewrite (inherit_value_upto_leaf _ _ _ _ _ _ He _ Hs). reflexivity.
      * apply (inherit_value_leaf_scalar _ _ _ He _ _ Hs).
    + eapply sim_ext; cycle 2.
      * apply (setdefault_sim lf s l fs h Hst Hnd).
      * rewrite (inherit_value_upto_leaf _ _ _ _ _ _ He _ Hs). simpl val_of.
        rewrite (kind_of_mapping _ _ _ Hst). reflexivity.
      * apply (inherit_value_leaf_mapping _ _ _ He _ _ Hs).
    + eapply sim_ext; cycle 2.
      * apply sequence_sim; [exact Hst | exact Hnd |].
        apply (for_in_sim val_of tree_of addresses stored stored_frame
                 (store_setdefault_item (prefix_of pre) lf (VScalar s))
                 (setdefault_item (prefix_of pre) lf (Scalar s))).
        -- apply Forall_forall. intros c _ h0 Hst0 Hnd0.
           apply setdefault_item_sim; assumption.
        -- apply stored_sequence in Hst. tauto.
        -- rewrite addresses_sequence in Hnd. inversion Hnd; assumption.
      * rewrite (inherit_value_upto_leaf _ _ _ _ _ _ He _ Hs). simpl val_of.
        rewrite (kind_of_sequence _ _ _ Hst). reflexivity.
      * apply (inherit_value_leaf_sequence _ _ _ He _ _ Hs).
  - (* the wildcard *)
    destruct a as [s0|l fs|l items].
    + eapply sim_ext; cycle 2.
      * apply sim_same; eassumption.
      * rewrite (inherit_value_upto_star _ _ _ _ _ _ He _ Hs Hne). reflexivity.
      * apply (inherit_value_star_other _ _ _ He _ _ Hs Hne). reflexivity.
    + eapply sim_ext; cycle 2.
      * apply mapping_sim; [exact Hst | exact Hnd |].
        apply (for_in_sim entry_of field_of field_addresses field_stored
                 field_stored_frame
                 (store_star_field
                    (fun v => inherit_value_upto limit (join "." rest) (VScalar s) v
                                (child_prefix pre "*")))
                 (star_field
                    (fun v => inherit_value (join "." rest) (Scalar s) v
                                (child_prefix pre "*")))).
        -- apply Forall_forall. intros kv Hkv h0 Hst0 Hnd0.
           apply star_field_sim; [|assumption|assumption].
           apply Hrec; [|exact Hs|exact Hne].
           pose proof (psize_field l fs kv Hkv). lia.
        -- apply stored_mapping in Hst. tauto.
        -- rewrite addresses_mapping in Hnd. inversion Hnd; assumption.
      * rewrite (inherit_value_upto_star _ _ _ _ _ _ He _ Hs Hne). simpl val_of.
        rewrite (kind_of_mapping _ _ _ Hst). reflexivity.
      * apply (inherit_value_star_mapping _ _ _ He _ _ Hs Hne).
    + eapply sim_ext; cycle 2.
      * apply sim_same; eassumption.
      * rewrite (inherit_value_upto_star _ _ _ _ _ _ He _ Hs Hne). simpl val_of.
        rewrite (kind_of_sequence _ _ _ Hst). reflexivity.
      * apply (inherit_value_star_other _ _ _ He _ _ Hs Hne). reflexivity.
  - (* a literal segment *)
    destruct a as [s0|l fs|l items].
    + eapply sim_ext; cycle 2.
      * apply sim_same; eassumption.
      * rewrite (inherit_value_upto_key _ _ _ _ _ _ He _ _ Hs Hne Hk). reflexivity.
      * apply (inherit_value_key_scalar _ _ _ He _ _ _ Hs Hne Hk).
    + eapply sim_ext; cycle 2.
      * apply mapping_sim; [exact Hst | exact Hnd |].
        apply (at_key_sim
                 (fun v => inherit_value_upto limit (join "." rest) (VScalar s) v
                             (child_prefix pre key))
                 (fun v => inherit_value (join "." rest) (Scalar s) v
                             (child_prefix pre key)) key fs).
        -- apply Forall_forall. intros kv Hkv.
           apply Hrec; [|exact Hs|exact Hne].
           pose proof (psize_field l fs kv Hkv). lia.
        -- apply stored_mapping in Hst. tauto.
        -- rewrite addresses_mapping in Hnd. inversion Hnd; assumption.
      * rewrite (inherit_value_upto_key _ _ _ _ _ _ He _ _ Hs Hne Hk). simpl val_of.
        rewrite (kind_of_mapping _ _ _ Hst). reflexivity.
      * apply (inherit_value_key_mapping _ _ _ He _ _ _ Hs Hne Hk).
    + eapply sim_ext; cycle 2.
      * apply sequence_sim; [exact Hst | exact Hnd |].
        apply (for_in_sim val_of tree_of addresses stored stored_frame
                 (store_at_item_key
                    (fun v => inherit_value_upto limit (join "." rest) (VScalar s) v
                                (child_prefix pre key)) key)
                 (at_item_key
                    (fun v => inherit_value (join "." rest) (Scalar s) v
                                (child_prefix pre key)) key)).
        -- apply Forall_forall. intros c Hc h0 Hst0 Hnd0.
           apply at_item_key_sim; [|assumption|assumption].
           intros li ifs ->. apply Forall_forall. intros kv Hkv.
           apply Hrec; [|exact Hs|exact Hne].
           pose proof (psize_field li ifs kv Hkv).
           pose proof (psize_item l items _ Hc). lia.
        -- apply stored_sequence in Hst. tauto.
        -- rewrite addresses_sequence in Hnd. inversion Hnd; assumption.
      * rewrite (inherit_value_upto_key _ _ _ _ _ _ He _ _ Hs Hne Hk). simpl val_of.
        rewrite (kind_of_sequence _ _ _ Hst). reflexivity.
      * apply (inherit_value_key_sequence _ _ _ He _ _ _ Hs Hne Hk).
Qed.

(** ** The Shared Section of one Mapping *)

Lemma apply_shared_sim (defaults : list (string * placed)) :
  Forall (fun kv => exists s, snd kv = PScalar s) defaults ->
  forall a h, stored h a -> NoDup (addresses a) ->
    node_sim (store_apply_shared (map entry_of defaults) (val_of a))
      (apply_shared_by_value (map field_of defaults) (tree_of a)) a h.
Proof.
  induction 1 as [|[p c] tl [s Hc] _ IH]; intros a h Hst Hnd.
  - apply sim_same; assumption.
  - simpl in Hc. subst c.
    eapply sim_ext; cycle 2.
    + apply (sim_then val_of tree_of addresses stored
               (inherit_value_in_store p (VScalar s) (val_of a))
               (store_apply_shared (map entry_of tl) (val_of a))
               (inherit_value p (Scalar s) (tree_of a) None)
               (fun y => apply_shared_by_value (map field_of tl) y)).
      * apply (inherit_value_sim (psize a) a (le_n _)); auto.
      * intros a1 h1 _ (Hv & Hi & Hn) Hst1. rewrite <- Hv. apply IH; assumption.
    + reflexivity.
    + simpl map. unfold field_of at 1. simpl fst. simpl snd.
      rewrite apply_shared_by_value_cons. simpl tree_of.
      destruct (inherit_value p (Scalar s) (tree_of a) None) as [r d].
      destruct r; reflexivity.
Qed.

Lemma NoDup_flat_map_filter {A : Type} (f : A -> list loc) (p : A -> bool)
    (l : list A) :
  NoDup (flat_map f l) -> NoDup (flat_map f (filter p l)).
Proof.
  induction l as [|x tl IH]; simpl; intros H; [constructor|].
  apply NoDup_app_inv in H. destruct H as (Hx & Htl & Hd).
  destruct (p x); simpl; [|apply IH; exact Htl].
  apply NoDup_app; [exact Hx | apply IH; exact Htl |].
  intros a Ha Hin. apply (Hd a Ha).
  apply in_flat_map in Hin. destruct Hin as (y & Hy & Hay).
  apply filter_In in Hy. apply in_flat_map. exists y. tauto.
Qed.

Lemma incl_flat_map_filter {A : Type} (f : A -> list loc) (p : A -> bool)
    (l : list A) :
  incl (flat_map f (filter p l)) (flat_map f l).
Proof.
  intros a Hin. apply in_flat_map in Hin. destruct Hin as (y & Hy & Hay).
  apply filter_In in Hy. apply in_flat_map. exists y. tauto.
Qed.

Lemma pop_stored (l : loc) (fields : list (string * placed)) (h : store) :
  stored h (PMapping l fields) -> NoDup (addresses (PMapping l fields)) ->
  evolved val_of addresses (PMapping l fields) (PMapping l (dict_pop SHARED fields))
  /\ stored (update h l (ODict (dict_pop SHARED (map entry_of fields))))
       (PMapping l (dict_pop SHARED fields)).
Proof.
  intros Hst Hnd.
  pose proof Hst as Hst0. apply stored_mapping in Hst0. destruct Hst0 as [Hl Hc].
  assert (Hlt : l < length h).
  { apply nth_error_Some. rewrite Hl. discriminate. }
  rewrite addresses_mapping in Hnd. inversion Hnd as [|? ? Hnin Hndc]; subst.
  split.
  - split; [reflexivity|]. rewrite !addresses_mapping. split.
    + intros x [<-|Hx]; [left; reflexivity|]. right.
      exact (incl_flat_map_filter _ _ _ x Hx).
    + constructor; [|apply NoDup_flat_map_filter; exact Hndc].
      intros Hin. apply Hnin. exact (incl_flat_map_filter _ _ _ l Hin).
  - apply stored_mapping. split.
    + rewrite update_same by exact Hlt. f_equal. f_equal.
      exact (dict_pop_map val_of SHARED fields).
    + rewrite Forall_forall in *. intros kv Hkv.
      unfold dict_pop in Hkv. apply filter_In in Hkv. destruct Hkv as [Hkv _].
      eapply field_stored_frame; [apply Hc; exact Hkv|].
      intros l' Hl'. apply update_other. intros ->.
      apply Hnin. apply in_flat_map. eauto.
Qed.

Lemma dict_get_In {V : Type} (k : string) (kvs : list (string * V)) (v : V) :
  dict_get k kvs = Some v -> exists k', String.eqb k' k = true /\ In (k', v) kvs.
Proof.
  induction kvs as [|[k1 v1] tl IH]; simpl; [discriminate|].
  destruct (String.eqb k1 k) eqn:E.
  - intros H. injection H as <-. exists k1. auto.
  - intros H. destruct (IH H) as (k' & Hk & Hin). exists k'. auto.
Qed.

Lemma scalar_entries_placed (l : loc) (fields : list (string * placed)) :
  scalar_entries (tree_of (PMapping l fields)) = true ->
  Forall (fun kv => exists s, snd kv = PScalar s) fields.
Proof.
  simpl. rewrite forallb_forall. intros H. apply Forall_forall. intros kv Hkv.
  specialize (H (field_of kv) (in_map field_of _ _ Hkv)). simpl in H.
  destruct (snd kv); try discriminate. eauto.
Qed.

Lemma own_shared_sim (l : loc) (fields : list (string * placed)) (h : store) :
  stored h (PMapping l fields) -> NoDup (addresses (PMapping l fields)) ->
  (forall c, dict_get SHARED fields = Some c -> scalar_entries (tree_of c) = true) ->
  node_sim (own_shared_in_store (VRef l)) (own_shared_by_value (tree_of (PMapping l fields)))
    (PMapping l fields) h.
Proof.
  intros Hst Hnd Hsc.
  assert (Hk : kind_of h (VRef l) = KDict l (map entry_of fields))
    by exact (kind_of_mapping _ _ _ Hst).
  assert (Hgs : dict_get SHARED (map entry_of fields)
                = option_map val_of (dict_get SHARED fields))
    by exact (dict_get_map val_of SHARED fields).
  assert (Hgt : dict_get SHARED (map field_of fields)
                = option_map tree_of (dict_get SHARED fields))
    by exact (dict_get_map tree_of SHARED fields).
  assert (Hpt : dict_pop SHARED (map field_of fields)
                = map field_of (dict_pop SHARED fields))
    by exact (dict_pop_map tree_of SHARED fields).
  destruct (dict_get SHARED fields) as [c|] eqn:Hget.
  - destruct (pop_stored l fields h Hst Hnd) as [Hev2 Hst2].
    set (h2 := update h l (ODict (dict_pop SHARED (map entry_of fields)))) in *.
    set (a2 := PMapping l (dict_pop SHARED fields)) in *.
    assert (Hnd2 : NoDup (addresses a2)) by apply Hev2.
    (* the Shared Section is still in the store, away from [data] *)
    assert (Hc2 : stored h2 c).
    { destruct (dict_get_In _ _ _ Hget) as (k' & _ & Hin).
      apply stored_mapping in Hst. destruct Hst as [_ Hc].
      rewrite Forall_forall in Hc. specialize (Hc _ Hin).
      eapply stored_frame; [exact Hc|].
      intros l' Hl'. apply update_other. intros ->.
      rewrite addresses_mapping in Hnd. inversion Hnd as [|? ? Hnin _]; subst.
      apply Hnin. apply in_flat_map. exists (k', c). auto. }
    eapply sim_ext; cycle 2.
    + apply (sim_after val_of tree_of addresses stored
               (fun h0 => match kind_of h0 (val_of c) with
                          | KDict _ defaults => store_apply_shared defaults (VRef l) h0
                          | _ => (Raised AttributeError, h0)
                          end)
               (match tree_of c with
                | Mapping entries => apply_shared_by_value entries (tree_of a2)
                | _ => (Raised AttributeError, tree_of a2)
                end)
               (PMapping l fields) a2 h h2 Hev2).
      * apply update_unchanged_outside. rewrite addresses_mapping. left. reflexivity.
      * specialize (Hsc c eq_refl). destruct c as [s0|ls sfs|ls items].
        -- apply sim_same; assumption.
        -- eapply sim_ext; cycle 2.
           ++ apply (apply_shared_sim sfs (scalar_entries_placed _ _ Hsc) a2 h2 Hst2 Hnd2).
           ++ simpl val_of. rewrite (kind_of_mapping _ _ _ Hc2). reflexivity.
           ++ reflexivity.
        -- eapply sim_ext; cycle 2.
           ++ apply sim_same; eassumption.
           ++ simpl val_of. rewrite (kind_of_sequence _ _ _ Hc2). reflexivity.
           ++ reflexivity.
    + unfold own_shared_in_store. rewrite Hk, Hgs. reflexivity.
    + change (tree_of (PMapping l fields)) with (Mapping (map field_of fields)).
      unfold own_shared_by_value. rewrite Hgt, Hpt. simpl option_map. cbv iota.
      destruct (tree_of c); reflexivity.
  - eapply sim_ext; cycle 2.
    + apply sim_same; eassumption.
    + unfold own_shared_in_store. rewrite Hk, Hgs. reflexivity.
    + change (tree_of (PMapping l fields)) with (Mapping (map field_of fields)).
      unfold own_shared_by_value. rewrite Hgt. reflexivity.
Qed.

(** ** [apply_inheritance] on the store and on the tree *)

Lemma apply_inheritance_upto_step (limit : nat) (data : val) (h : store) :
  apply_inheritance_upto (S limit) data h
  = match kind_of h data with
    | KDict _ entries =>
        let (r, h1) :=
          for_in (store_resolve_field (apply_inheritance_upto limit)) entries h in
        match r with
        | Returned => own_shared_in_store data h1
        | Raised e => (Raised e, h1)
        end
    | _ => (Raised AttributeError, h)
    end.
Proof. reflexivity. Qed.

Lemma apply_inheritance_step (kvs : list (string * node)) :
  apply_inheritance_by_value (Mapping kvs)
  = (let (r, y) :=
       (let (r, kvs1) := for_each (resolve_field apply_inheritance_by_value) kvs in
        (r, Mapping kvs1)) in
     match r with
     | Returned => own_shared_by_value y
     | Raised e => (Raised e, y)
     end).
Proof.
  rewrite apply_inheritance_by_value_mapping.
  destruct (for_each (resolve_field apply_inheritance_by_value) kvs) as [r kvs1].
  destruct r; reflexivity.
Qed.

Section ResolveSim.
Variable rec_store : val -> store -> result * store.
Variable rec_tree : node -> result * node.

Lemma resolve_item_sim (c : placed) (h : store) :
  (rec_sim_mapping rec_store rec_tree) c -> stored h c -> NoDup (addresses c) ->
  node_sim (store_resolve_item rec_store (val_of c))
    (resolve_item rec_tree (tree_of c)) c h.
Proof.
  intros Hrec Hst Hnd. destruct c as [s0|l fs|l items].
  - apply sim_same; assumption.
  - eapply sim_ext; cycle 2.
    + exact (Hrec l fs eq_refl h Hst Hnd).
    + unfold store_resolve_item. simpl val_of.
      rewrite (kind_of_mapping _ _ _ Hst). reflexivity.
    + reflexivity.
  - eapply sim_ext; cycle 2.
    + apply sim_same; eassumption.
    + unfold store_resolve_item. simpl val_of.
      rewrite (kind_of_sequence _ _ _ Hst). reflexivity.
    + reflexivity.
Qed.

Lemma resolve_field_sim (kv : string * placed) (h : store) :
  (String.eqb (fst kv) SHARED = false ->
   (rec_sim_mapping rec_store rec_tree) (snd kv)
   /\ forall l items, snd kv = PSequence l items -> Forall (rec_sim_mapping rec_store rec_tree) items) ->
  field_stored h kv -> NoDup (field_addresses kv) ->
  field_sim (store_resolve_field rec_store (entry_of kv))
    (resolve_field rec_tree (field_of kv)) kv h.
Proof.
  destruct kv as [k c]. unfold field_stored, field_addresses. simpl fst. simpl snd.
  intros Hrec Hst Hnd.
  unfold store_resolve_field, resolve_field, entry_of, field_of. simpl fst. simpl snd.
  destruct (String.eqb k SHARED).
  - exact (sim_same entry_of field_of field_addresses field_stored Returned (k, c) h
             Hst Hnd).
  - destruct (Hrec eq_refl) as [Hm Hs]. destruct c as [s0|l fs|l items].
    + exact (sim_same entry_of field_of field_addresses field_stored Returned
               (k, PScalar s0) h Hst Hnd).
    + eapply sim_ext; cycle 2.
      * exact (field_sim_lift _ _ k _ h (Hm l fs eq_refl h Hst Hnd)).
      * simpl val_of. rewrite (kind_of_mapping _ _ _ Hst). reflexivity.
      * reflexivity.
    + eapply sim_ext; cycle 2.
      * apply field_sim_lift.
        apply sequence_sim; [exact Hst | exact Hnd |].
        apply (for_in_sim val_of tree_of addresses stored stored_frame
                 (store_resolve_item rec_store) (resolve_item rec_tree)).
        -- eapply Forall_impl; [|exact (Hs l items eq_refl)].
           intros c Hc h0 Hst0 Hnd0. apply resolve_item_sim; assumption.
        -- apply stored_sequence in Hst. tauto.
        -- rewrite addresses_sequence in Hnd. inversion Hnd; assumption.
      * simpl val_of. rewrite (kind_of_sequence _ _ _ Hst). reflexivity.
      * simpl tree_of. cbv iota.
        destruct (for_each (resolve_item rec_tree) (map tree_of items)); reflexivity.
Qed.
End ResolveSim.

Lemma length_in_flat_map {A : Type} (f : A -> list loc) (x : A) (xs : list A) :
  In x xs -> length (f x) <= length (flat_map f xs).
Proof.
  induction xs as [|y tl IH]; simpl; intros H; [contradiction|].
  rewrite length_app. destruct H as [->|H]; [lia|]. specialize (IH H). lia.
Qed.

Lemma scalar_defaults_field (kvs : list (string * node)) (k : string) (v : node) :
  scalar_defaults (Mapping kvs) = true -> In (k, v) kvs ->
  if String.eqb k SHARED then scalar_entries v = true
  else match v with
       | Mapping _ => scalar_defaults v = true
       | Sequence items =>
           forall item, In item items ->
                        match item with
                        | Mapping _ => scalar_defaults item = true
                        | _ => True
                        end
       | Scalar _ => True
       end.
Proof.
  simpl. rewrite forallb_forall. intros H Hin. specialize (H _ Hin). simpl in H.
  destruct (String.eqb k SHARED); [exact H|].
  destruct v as [s|ckvs|items]; [exact I | exact H |].
  rewrite forallb_forall in H. intros item Hitem. specialize (H _ Hitem).
  destruct item; auto.
Qed.

Lemma apply_inheritance_sim (n : nat) :
  forall a, psize a <= n ->
  forall limit h,
    length (addresses a) < limit ->
    stored h a -> NoDup (addresses a) ->
    scalar_defaults (tree_of a) = true ->
    node_sim (apply_inheritance_upto limit (val_of a))
      (apply_inheritance_by_value (tree_of a)) a h.
Proof.
  induction n as [|n IHn]; intros a Hsize limit h Hlimit Hst Hnd Hsd.
  { destruct a; simpl in Hsize; lia. }
  destruct limit as [|limit]; [lia|].
  destruct a as [s0|l fs|l items].
  - eapply sim_ext; cycle 2.
    + apply sim_same; eassumption.
    + reflexivity.
    + reflexivity.
  - eapply sim_ext; cycle 2.
    + apply (sim_then val_of tree_of addresses stored
               (for_in (store_resolve_field (apply_inheritance_upto limit))
                  (map entry_of fs))
               (own_shared_in_store (VRef l))
               (let (r, kvs1) :=
                  for_each (resolve_field apply_inheritance_by_value) (map field_of fs) in
                (r, Mapping kvs1))
               own_shared_by_value).
      * apply mapping_sim; [exact Hst | exact Hnd |].
        apply (for_in_sim entry_of field_of field_addresses field_stored
                 field_stored_frame
                 (store_resolve_field (apply_inheritance_upto limit))
                 (resolve_field apply_inheritance_by_value)).
        -- apply Forall_forall. intros [k c] Hkv h0 Hst0 Hnd0.
           apply resolve_field_sim; [|assumption|assumption].
           simpl fst. simpl snd. intros Hk.
           pose proof (scalar_defaults_field _ k (tree_of c) Hsd
                         (in_map field_of _ _ Hkv)) as Hc.
           rewrite Hk in Hc.
           pose proof (psize_field l fs _ Hkv) as Hsz. simpl snd in Hsz.
           pose proof (length_in_flat_map field_addresses _ _ Hkv) as Hlen.
           unfold field_addresses at 1 in Hlen. simpl snd in Hlen.
           rewrite addresses_mapping in Hlimit. simpl length in Hlimit.
           split.
           ++ intros lc cfs -> h1 Hst1 Hnd1. apply IHn; auto; lia.
           ++ intros lc citems ->. apply Forall_forall.
              intros item Hitem li ifs -> h1 Hst1 Hnd1.
              pose proof (psize_item lc citems _ Hitem) as Hsz2.
              pose proof (length_in_flat_map addresses _ _ Hitem) as Hlen2.
              rewrite addresses_sequence in Hlen. simpl length in Hlen.
              apply IHn; auto; try lia.
              exact (Hc (tree_of (PMapping li ifs)) (in_map tree_of _ _ Hitem)).
        -- apply stored_mapping in Hst. tauto.
        -- rewrite addresses_mapping in Hnd. inversion Hnd; assumption.
      * intros a1 h1 Hout (Hv & Hi & Hn) Hst1.
        destruct (for_each (resolve_field apply_inheritance_by_value) (map field_of fs))
          as [r kvs1] eqn:Ef.
        injection Hout as -> Hout.
        destruct a1 as [s1|l1 fs1|l1 items1]; try discriminate.
        simpl in Hv. injection Hv as ->.
        simpl in Hout. injection Hout as ->.
        apply own_shared_sim; [exact Hst1 | exact Hn |].
        intros c Hget.
        (* the Shared Section is the one the Mapping had before *)
        apply for_each_returned in Ef.
        assert (Hg1 : dict_get SHARED (map field_of fs1) = Some (tree_of c)).
        { rewrite (dict_get_map tree_of SHARED fs1 : dict_get SHARED (map field_of fs1) = _).
          rewrite Hget. reflexivity. }
        destruct (resolved_fields_get_back _ _ _ _ _ Ef Hg1) as (v & Hg & Hres).
        rewrite resolve_field_shared in Hres. injection Hres as <-.
        destruct (dict_get_In _ _ _ Hg) as (k' & Hk' & Hin).
        pose proof (scalar_defaults_field _ k' _ Hsd Hin) as Hc.
        rewrite Hk' in Hc. exact Hc.
    + rewrite apply_inheritance_upto_step. simpl val_of.
      rewrite (kind_of_mapping _ _ _ Hst). reflexivity.
    + apply apply_inheritance_step.
  - eapply sim_ext; cycle 2.
    + apply sim_same; eassumption.
    + rewrite apply_inheritance_upto_step. simpl val_of.
      rewrite (kind_of_sequence _ _ _ Hst). reflexivity.
    + reflexivity.
Qed.

(** ** Loading a tree and reading it back *)

Lemma stored_extend (a : placed) (h ext : store) :
  stored h a -> stored (h ++ ext) a.
Proof.
  unfold stored. intros H. rewrite Forall_forall in *. intros c Hc.
  specialize (H c Hc). rewrite nth_error_app1; [exact H|].
  apply nth_error_Some. rewrite H. discriminate.
Qed.

Section Loading.
Context {A B P : Type}.
Variable f : A -> store -> B * store.
Variables (to_store : P -> B) (to_tree : P -> A).
Variable addrs : P -> list loc.
Variable ok : store -> P -> Prop.
Hypothesis ok_extend : forall x h ext, ok h x -> ok (h ++ ext) x.

Lemma load_all_loaded (xs : list A) :
  Forall (loaded f to_store to_tree addrs ok) xs ->
  forall h0, exists ps ext,
    load_all f xs h0 = (map to_store ps, h0 ++ ext) /\ map to_tree ps = xs
    /\ Forall (ok (h0 ++ ext)) ps
    /\ NoDup (flat_map addrs ps)
    /\ (forall l, In l (flat_map addrs ps) ->
                  length h0 <= l < length h0 + length ext)
    /\ length (flat_map addrs ps) = length ext.
Proof.
  induction 1 as [|x tl Hx _ IH]; intros h0.
  - exists [], []. rewrite app_nil_r. simpl.
    repeat split; try constructor; contradiction.
  - destruct (Hx h0) as (p & ext1 & Hf & Ht & Hok & Hnd & Hr & Hlen).
    destruct (IH (h0 ++ ext1)) as (ps & ext2 & Hf2 & Ht2 & Hok2 & Hnd2 & Hr2 & Hlen2).
    exists (p :: ps), (ext1 ++ ext2). simpl. rewrite Hf, Hf2, Ht, Ht2.
    rewrite app_assoc. rewrite length_app in Hr2.
    split; [reflexivity|]. split; [reflexivity|]. split; [|split; [|split]].
    + constructor; [apply ok_extend; exact Hok | exact Hok2].
    + apply NoDup_app; [exact Hnd | exact Hnd2 |].
      intros l Hl Hl2. specialize (Hr l Hl). specialize (Hr2 l Hl2). lia.
    + intros l Hl. rewrite length_app. apply in_app_or in Hl.
      destruct Hl as [Hl|Hl]; [specialize (Hr l Hl) | specialize (Hr2 l Hl)]; lia.
    + rewrite !length_app. lia.
Qed.
End Loading.

Lemma load_placed (n : node) : loaded load val_of tree_of addresses stored n.
Proof.
  induction n as [s|kvs IH|items IH] using node_induction; intros h0.
  - exists (PScalar s), []. rewrite app_nil_r. simpl.
    repeat split; try constructor; try contradiction.
  - assert (Hf : Forall
                   (loaded
                      (fun (kv : string * node) h1 =>
                         let (v, h') := load (snd kv) h1 in ((fst kv, v), h'))
                      entry_of field_of field_addresses field_stored) kvs).
    { eapply Forall_impl; [|exact IH]. intros [k c] Hc h1. simpl in Hc.
      destruct (Hc h1) as (p & ext & Hl & Ht & Hok & Hnd & Hr & Hlen).
      exists (k, p), ext. simpl. rewrite Hl.
      unfold field_of, entry_of, field_addresses, field_stored. simpl.
      rewrite Ht. split; [reflexivity|]. split; [reflexivity|].
      split; [exact Hok|]. split; [exact Hnd|]. split; [exact Hr | exact Hlen]. }
    destruct (load_all_loaded _ entry_of field_of field_addresses field_stored
                (fun x h ext => stored_extend (snd x) h ext) kvs Hf h0)
      as (fs & ext & Hl & Ht & Hok & Hnd & Hr & Hlen).
    exists (PMapping (length (h0 ++ ext)) fs), (ext ++ [ODict (map entry_of fs)]).
    simpl load. rewrite Hl. rewrite app_assoc.
    split; [reflexivity|]. split; [simpl; f_equal; exact Ht|].
    rewrite addresses_mapping. split; [|split; [|split]].
    + apply stored_mapping. split.
      * rewrite nth_error_app2 by lia. rewrite Nat.sub_diag. reflexivity.
      * eapply Forall_impl; [|exact Hok]. intros kv. apply stored_extend.
    + constructor; [|exact Hnd]. intros Hin. specialize (Hr _ Hin).
      rewrite length_app in Hr. lia.
    + intros l [<-|Hin]; rewrite !length_app; simpl; [lia|].
      specialize (Hr _ Hin). lia.
    + simpl. rewrite length_app. simpl. lia.
  - assert (Hf : Forall
                   (loaded (fun (item : node) h1 => load item h1)
                      val_of tree_of addresses stored) items).
    { eapply Forall_impl; [|exact IH]. intros c Hc. exact Hc. }
    destruct (load_all_loaded _ val_of tree_of addresses stored
                stored_extend items Hf h0)
      as (fs & ext & Hl & Ht & Hok & Hnd & Hr & Hlen).
    exists (PSequence (length (h0 ++ ext)) fs), (ext ++ [OList (map val_of fs)]).
    simpl load. rewrite Hl. rewrite app_assoc.
    split; [reflexivity|]. split; [simpl; f_equal; exact Ht|].
    rewrite addresses_sequence. split; [|split; [|split]].
    + apply stored_sequence. split.
      * rewrite nth_error_app2 by lia. rewrite Nat.sub_diag. reflexivity.
      * eapply Forall_impl; [|exact Hok]. intros kv. apply stored_extend.
    + constructor; [|exact Hnd]. intros Hin. specialize (Hr _ Hin).
      rewrite length_app in Hr. lia.
    + intros l [<-|Hin]; rewrite !length_app; simpl; [lia|].
      specialize (Hr _ Hin). lia.
    + simpl. rewrite length_app. simpl. lia.
Qed.

Lemma read_stored (n : nat) :
  forall a, psize a <= n ->
  forall fuel h, stored h a -> length (addresses a) <= fuel ->
    read fuel h (val_of a) = tree_of a.
Proof.
  induction n as [|n IHn]; intros a Hsize fuel h Hst Hfuel.
  { destruct a; simpl in Hsize; lia. }
  destruct a as [s0|l fs|l items]; [destruct fuel; reflexivity| |].
  - rewrite addresses_mapping in Hfuel. simpl length in Hfuel.
    destruct fuel as [|fuel]; [lia|].
    apply stored_mapping in Hst. destruct Hst as [Hl Hc].
    simpl. rewrite Hl. f_equal. rewrite map_map. apply map_ext_in.
    intros kv Hkv. unfold entry_of. simpl. f_equal.
    rewrite Forall_forall in Hc.
    pose proof (psize_field l fs _ Hkv).
    pose proof (length_in_flat_map field_addresses _ _ Hkv) as Hlen.
    unfold field_addresses at 1 in Hlen.
    apply IHn; [lia | apply Hc; exact Hkv | lia].
  - rewrite addresses_sequence in Hfuel. simpl length in Hfuel.
    destruct fuel as [|fuel]; [lia|].
    apply stored_sequence in Hst. destruct Hst as [Hl Hc].
    simpl. rewrite Hl. f_equal. rewrite map_map. apply map_ext_in.
    intros c Hin.
    rewrite Forall_forall in Hc.
    pose proof (psize_item l items _ Hin).
    pose proof (length_in_flat_map addresses _ _ Hin) as Hlen.
    apply IHn; [lia | apply Hc; exact Hin | lia].
Qed.

(** On a tree whose Shared Sections hold scalar defaults only, the run
    on the store and the run that copies defaults agree. *)
Theorem by_value_is_exact (data : node) :
  scalar_defaults data = true ->
  apply_inheritance data = apply_inheritance_by_value data.
Proof.
  intros Hsd. unfold apply_inheritance.
  destruct (load_placed data []) as (a & ext & Hl & Ht & Hok & Hnd & Hr & Hlen).
  simpl app in *. rewrite Hl. subst data.
  destruct (apply_inheritance_sim (psize a) a (le_n _) (S (length ext)) ext)
    as (r & h' & a' & Hrun & Hout & (Hv & Hi & Hn) & Hst' & [Hlen' _]); auto; [lia|].
  rewrite Hrun, Hout, <- Hv. f_equal.
  apply (read_stored (psize a') a' (le_n _)); [exact Hst'|].
  rewrite Hlen', <- Hlen. apply NoDup_incl_length; assumption.
Qed.

(** ** From the run with copies to the run of the source *)

(** One default is one object.  Here the root stores [{}] as [x] in both
    [a] and [b], then sets [y] inside [a.x], and then looks for [y]
    inside [b.x]: it is there, for [a.x] and [b.x] are the same dict.
    With copies it would not be. *)
Example shared_default_is_one_object :
  apply_inheritance
    (Mapping [("_shared", Mapping [("*.x", Mapping []); ("a.x.y", int 1)]);
              ("a", Mapping []); ("b", Mapping [])])
  = (Returned,
     Mapping [("a", Mapping [("x", Mapping [("y", int 1)])]);
              ("b", Mapping [("x", Mapping [("y", int 1)])])])
  /\ apply_inheritance_by_value
       (Mapping [("_shared", Mapping [("*.x", Mapping []); ("a.x.y", int 1)]);
                 ("a", Mapping []); ("b", Mapping [])])
     = (Returned,
        Mapping [("a", Mapping [("x", Mapping [("y", int 1)])]);
                 ("b", Mapping [("x", Mapping [])])]).
Proof. split; reflexivity. Qed.

(** The outcome depends on it too: with copies the first tree below
    fails with a [KeyError] where the source returns, and the second
    returns where the source raises a [TypeError]. *)
Example shared_default_changes_the_outcome :
  fst (apply_inheritance
         (Mapping [("_shared", Mapping [("*.x", Mapping []); ("a.x.y", Mapping []);
                                        ("b.x.y.z", int 1)]);
                   ("a", Mapping []); ("b", Mapping [])]))
  = Returned
  /\ fst (apply_inheritance_by_value
            (Mapping [("_shared", Mapping [("*.x", Mapping []); ("a.x.y", Mapping []);
                                           ("b.x.y.z", int 1)]);
                      ("a", Mapping []); ("b", Mapping [])]))
     = Raised (KeyError "y")
  /\ fst (apply_inheritance
            (Mapping [("_shared", Mapping [("*.x", Mapping []); ("a.x.y", int 5);
                                           ("b.x.*.k", int 1)]);
                      ("a", Mapping []); ("b", Mapping [])]))
     = Raised (make_type_error ".b.x.*" "k")
  /\ fst (apply_inheritance_by_value
            (Mapping [("_shared", Mapping [("*.x", Mapping []); ("a.x.y", int 5);
                                           ("b.x.*.k", int 1)]);
                      ("a", Mapping []); ("b", Mapping [])]))
     = Returned.
Proof. repeat split. Qed.

Lemma unshared_scalar_defaults (n : node) :
  unshared n = true -> scalar_defaults n = true.
Proof.
  induction n as [s|items _|kvs IH] using node_induction_fields; intros H;
    try reflexivity.
  simpl in *. rewrite forallb_forall in *. intros [k v] Hin.
  specialize (H _ Hin). rewrite Forall_forall in IH.
  destruct (IH _ Hin) as [Hv Hitems]. simpl in *.
  apply andb_true_iff in H. destruct H as [Hk H].
  apply negb_true_iff in Hk. rewrite Hk.
  destruct v as [s|ckvs|items]; [reflexivity | apply Hv; exact H |].
  specialize (Hitems items eq_refl). rewrite forallb_forall in *.
  rewrite Forall_forall in Hitems. intros item Hi. specialize (H _ Hi).
  destruct item; try reflexivity. apply Hitems; assumption.
Qed.

Lemma resolve_field_exact (kvs : list (string * node)) (kv : string * node) :
  scalar_defaults (Mapping kvs) = true -> In kv kvs ->
  resolve_field apply_inheritance kv
  = resolve_field apply_inheritance_by_value kv.
Proof.
  destruct kv as [k v]. intros Hsd Hin.
  pose proof (scalar_defaults_field _ _ _ Hsd Hin) as H.
  unfold resolve_field. destruct (String.eqb k SHARED); [reflexivity|].
  destruct v as [s|ckvs|items]; [reflexivity | |].
  - rewrite (by_value_is_exact _ H). reflexivity.
  - rewrite (for_each_ext (resolve_item apply_inheritance)
               (resolve_item apply_inheritance_by_value)); [reflexivity|].
    apply Forall_forall. intros item Hi. specialize (H _ Hi).
    destruct item; try reflexivity. simpl. apply by_value_is_exact. exact H.
Qed.


Lemma Forall2_impl_in {A B : Type} (R R' : A -> B -> Prop) (l : list A)
    (l' : list B) :
  (forall a b, In a l -> R a b -> R' a b) -> Forall2 R l l' -> Forall2 R' l l'.
Proof.
  intros H H2. induction H2 as [|a b tl tl' Hab _ IH]; constructor.
  - apply H; [left; reflexivity | exact Hab].
  - apply IH. intros x y Hx. apply H. right. exact Hx.
Qed.




(** ** The test suite, replayed on the model *)

Example test_multi_parts_path :
  inherit_value "key1.key11.key111" (str "invalid")
    (Mapping [("key1", Mapping [("key11", Mapping [("key111", str "value111")])])])
    None
  = (Returned,
     Mapping [("key1", Mapping [("key11", Mapping [("key111", str "value111")])])])
  /\ inherit_value "key1.key11.key112" (str "value112")
       (Mapping [("key1", Mapping [("key11", Mapping [("key111", str "value111")])])])
       None
     = (Returned,
        Mapping [("key1", Mapping [("key11", Mapping [("key111", str "value111");
                                                      ("key112", str "value112")])])]).
Proof. split; reflexivity. Qed.

Example test_list_of_dict :
  inherit_value "persons.tags.key2" (str "value2")
    (Mapping
       [("persons",
         Sequence
           [ Mapping [("name", str "alice");
                      ("tags", Sequence [Mapping [("key1", str "value1")]])];
             Mapping [("name", str "bob");
                      ("tags", Sequence [Mapping [("key1", str "value1")]])] ])])
    None
  = (Returned,
     Mapping
       [("persons",
         Sequence
           [ Mapping [("name", str "alice");
                      ("tags", Sequence [Mapping [("key1", str "value1");
                                                  ("key2", str "value2")]])];
             Mapping [("name", str "bob");
                      ("tags", Sequence [Mapping [("key1", str "value1");
                                                  ("key2", str "value2")]])] ])]).
Proof. reflexivity. Qed.

Example test_edge_cases_type_and_value_error :
  fst (inherit_value "*" (str "value") (Mapping [("k1", str "v1")]) None)
  = Raised ValueError
  /\ fst (inherit_value "k1" (str "v1") (str "hello") None)
     = Raised (make_type_error "" "k1")
  /\ fst (inherit_value "k1.k11" (str "v11") (Mapping [("k1", str "v1")]) None)
     = Raised (make_type_error ".k1" "k11")
  /\ fst (inherit_value "k1.k11" (str "v11")
            (Mapping [("k1", Sequence [int 1; int 2; int 3])]) None)
     = Raised (make_type_error ".k1" "k11")
  /\ fst (inherit_value "k1.k11" (str "v11") (str "hello") None)
     = Raised (make_type_error "" "k1")
  /\ fst (inherit_value "k1.k11.k111" (str "v111")
            (Mapping [("k1", Mapping [("k11", str "v11")])]) None)
     = Raised (make_type_error ".k1.k11" "k111").
Proof. repeat split. Qed.

Example test_edge_cases_missing_keys :
  fst (inherit_value "env.missing.key" (str "value")
         (Mapping [("env", Mapping [])]) None)
  = Raised (KeyError "missing")
  /\ fst (inherit_value "envs.missing_key.field" (str "value")
            (Mapping [("envs", Sequence [Mapping [("name", str "dev")];
                                         Mapping [("name", str "prod")]])])
            None)
     = Raised (KeyError "missing_key").
Proof. split; reflexivity. Qed.

Example test_empty_data_structures :
  inherit_value "*.key" (str "value") (Mapping []) None = (Returned, Mapping [])
  /\ inherit_value "key" (str "value") (Sequence []) None = (Returned, Sequence [])
  /\ inherit_value "*.key" (str "value")
       (Mapping [("env1", Mapping []); ("env2", Mapping [])]) None
     = (Returned, Mapping [("env1", Mapping [("key", str "value")]);
                           ("env2", Mapping [("key", str "value")])]).
Proof. repeat split. Qed.

Example test_with_nested_lists :
  apply_inheritance
    (Mapping
       [ ("_shared", Mapping [("*.items.name", str "default")]);
         ("env",
          Mapping [("items", Sequence [Mapping [("id", int 1)];
                                       Mapping [("id", int 2);
                                                ("name", str "existing")]])]) ])
  = (Returned,
     Mapping
       [("env",
         Mapping [("items", Sequence [Mapping [("id", int 1);
                                               ("name", str "default")];
                                      Mapping [("id", int 2);
                                               ("name", str "existing")]])])]).
Proof. reflexivity. Qed.

(** * The claims *)

(** C1. Non-destructiveness: a field that the pattern designates in the
    tree and that already holds a value [v] still holds [v] once
    [inherit_value] is done, whether it returned or raised; the targets
    reached through wildcards and through the elements of Sequences are
    included. *)
Theorem inherit_value_never_overwrites
    (path : string) (value data : node) (_prefix : option string)
    (where_ : list step) (v : node) (r : result) (data' : node) :
  designates (split "." path) where_ data = true ->
  node_at where_ data = Some v ->
  inherit_value path value data _prefix = (r, data') ->
  node_at where_ data' = Some v.
Proof.
  intros Hd Hv H.
  exact (inherit_value_targets_kept value data path _prefix r data' H where_ v Hd Hv).
Qed.

Lemma inherit_value_never_overwrites_witness :
  designates (split "." "*.memory") [Key "prod"; Key "memory"] memory_example = true
  /\ node_at [Key "prod"; Key "memory"] memory_example = Some (int 8)
  /\ node_at [Key "prod"; Key "memory"]
       (snd (inherit_value "*.memory" (int 2) memory_example None))
     = Some (int 8).
Proof.
  split; [reflexivity|]. split; [reflexivity|].
  apply (inherit_value_never_overwrites "*.memory" (int 2) memory_example None
           [Key "prod"; Key "memory"] (int 8)
           (fst (inherit_value "*.memory" (int 2) memory_example None))).
  - reflexivity.
  - reflexivity.
  - reflexivity.
Defined.




(** C3.  The docstring of [apply_inheritance] promises that all Shared
    Sections are removed from the final output.  They are not: a reserved
    key inside a default that is stored in the tree stays there; so does
    one that a pattern names as its target; so does one inside a Sequence
    nested in a Sequence, which the traversal does not enter.  In each
    case [apply_inheritance] returns and the tree it leaves has a Mapping
    with the reserved key. *)
Theorem shared_section_can_remain :
  (apply_inheritance
     (Mapping [("_shared", Mapping [("*.x", Mapping [("_shared", Mapping [])])]);
               ("a", Mapping [])])
   = (Returned, Mapping [("a", Mapping [("x", Mapping [("_shared", Mapping [])])])])
   /\ shared_free
        (Mapping [("a", Mapping [("x", Mapping [("_shared", Mapping [])])])])
      = false)
  /\ (apply_inheritance (Mapping [("_shared", Mapping [("_shared", int 1)])])
      = (Returned, Mapping [("_shared", int 1)])
      /\ shared_free (Mapping [("_shared", int 1)]) = false)
  /\ (apply_inheritance
        (Mapping [("a", Sequence [Sequence [Mapping [("_shared", Mapping [])]]])])
      = (Returned,
         Mapping [("a", Sequence [Sequence [Mapping [("_shared", Mapping [])]]])])
      /\ shared_free
           (Mapping [("a", Sequence [Sequence [Mapping [("_shared", Mapping [])]]])])
         = false).
Proof. repeat split. Qed.

(** C4. Merge totality on disjoint Mappings: merging two Mappings with
    disjoint key sets succeeds, the keys of the result are those of
    either input, and every key has the value it had in the input that
    held it. *)
Theorem deep_merge_disjoint (a b : list (string * node)) :
  disjoint_keys a b = true ->
  exists m,
    deep_merge (Mapping a) (Mapping b) = Merged (Mapping m)
    /\ (forall k, In k (keys m) <-> In k (keys a) \/ In k (keys b))
    /\ (forall k v, dict_get k a = Some v -> dict_get k m = Some v)
    /\ (forall k v, dict_get k b = Some v -> dict_get k m = Some v).
Proof.
  intros H. exists (a ++ b). split; [apply deep_merge_disjoint_app; exact H|].
  split; [|split].
  - intros k. unfold keys. rewrite map_app, in_app_iff. tauto.
  - intros k v Hk. rewrite dict_get_app, Hk. reflexivity.
  - intros k v Hk. rewrite dict_get_app.
    destruct (dict_get k a) as [x|] eqn:E; [|exact Hk].
    exfalso. apply dict_get_in in E. apply (in_map fst) in E. simpl in E.
    unfold disjoint_keys in H. rewrite forallb_forall in H.
    specialize (H _ E). unfold dict_mem in H. rewrite Hk in H. discriminate.
Qed.

Lemma deep_merge_disjoint_witness :
  exists m,
    deep_merge (Mapping [("dev", Mapping [("username", str "dev.user")])])
               (Mapping [("prod", Mapping [("username", str "prod.user")])])
    = Merged (Mapping m)
    /\ (forall k, In k (keys m) <->
                  In k (keys [("dev", Mapping [("username", str "dev.user")])])
                  \/ In k (keys [("prod", Mapping [("username", str "prod.user")])]))
    /\ (forall k v,
          dict_get k [("dev", Mapping [("username", str "dev.user")])] = Some v ->
          dict_get k m = Some v)
    /\ (forall k v,
          dict_get k [("prod", Mapping [("username", str "prod.user")])] = Some v ->
          dict_get k m = Some v).
Proof.
  apply (deep_merge_disjoint
           [("dev", Mapping [("username", str "dev.user")])]
           [("prod", Mapping [("username", str "prod.user")])]).
  reflexivity.
Defined.

(** C5. Wildcard skip of the reserved key: expanding a wildcard over a
    Mapping keeps every key, leaves the value under the reserved key as
    it was whatever the outcome, and, when the call returns, has applied
    the rest of the pattern to every other value; resolving the example
    of the specification gives [{"a": {"k": "v"}}]. *)
Theorem wildcard_skips_shared_section :
  (forall path value kvs _prefix rest r data',
      endswith_star path = false ->
      split "." path = "*" :: rest -> rest <> [] ->
      inherit_value path value (Mapping kvs) _prefix = (r, data') ->
      exists kvs',
        data' = Mapping kvs'
        /\ Forall2 (fun kv kv' => fst kv' = fst kv
                                  /\ (fst kv = SHARED -> snd kv' = snd kv))
             kvs kvs'
        /\ (r = Returned ->
            Forall2 (fun kv kv' =>
                       fst kv <> SHARED ->
                       inherit_value (join "." rest) value (snd kv)
                         (child_prefix _prefix "*")
                       = (Returned, snd kv'))
              kvs kvs'))
  /\ apply_inheritance wildcard_example
     = (Returned, Mapping [("a", Mapping [("k", str "v")])]).
Proof.
  split; [|reflexivity].
  intros path value kvs pre rest r data' He Hs Hne H.
  rewrite (inherit_value_star_mapping _ _ _ He _ _ Hs Hne) in H.
  destruct (for_each _ kvs) as [r0 kvs'] eqn:Ef. injection H as <- <-.
  exists kvs'. split; [reflexivity|]. split.
  - eapply for_each_Forall2; [| |exact Ef].
    + intros x. split; [reflexivity | intros _; reflexivity].
    + apply Forall_forall. intros [k v] _ r' [k' v'] Hsf. simpl in *.
      destruct (String.eqb k SHARED) eqn:Ek; simpl in Hsf.
      * injection Hsf as _ <- <-. split; [reflexivity | intros _; reflexivity].
      * destruct (inherit_value _ value v _) as [r1 v1].
        injection Hsf as _ <- <-. split; [reflexivity|].
        intros E. apply String.eqb_neq in Ek. congruence.
  - intros ->. apply for_each_returned in Ef.
    eapply Forall2_impl; [|exact Ef].
    intros [k v] [k' v'] Hsf Hk. simpl in *.
    apply String.eqb_neq in Hk. rewrite Hk in Hsf. simpl in Hsf.
    destruct (inherit_value _ value v _) as [r1 v1].
    injection Hsf as -> _ <-. reflexivity.
Qed.

Lemma wildcard_skips_shared_section_witness :
  exists kvs',
    snd (inherit_value "*.k" (str "v")
           (Mapping [("_shared", Mapping [("*.k", str "v")]); ("a", Mapping [])])
           None)
    = Mapping kvs'
    /\ Forall2 (fun kv kv' => fst kv' = fst kv
                              /\ (fst kv = SHARED -> snd kv' = snd kv))
         [("_shared", Mapping [("*.k", str "v")]); ("a", Mapping [])] kvs'
    /\ (Returned = Returned ->
        Forall2 (fun kv kv' =>
                   fst kv <> SHARED ->
                   inherit_value (join "." ["k"]) (str "v") (snd kv)
                     (child_prefix None "*")
                   = (Returned, snd kv'))
          [("_shared", Mapping [("*.k", str "v")]); ("a", Mapping [])] kvs').
Proof.
  apply (proj1 wildcard_skips_shared_section "*.k" (str "v")
           [("_shared", Mapping [("*.k", str "v")]); ("a", Mapping [])]
           None ["k"] Returned).
  - reflexivity.
  - reflexivity.
  - discriminate.
  - reflexivity.
Defined.

(** C6. Idempotence: when [inherit_value] returns, applying the same
    pattern and value to the resulting tree returns too and changes
    nothing. *)
Theorem inherit_value_idempotent (value data : node) :
  forall path _prefix data',
    inherit_value path value data _prefix = (Returned, data') ->
    inherit_value path value data' _prefix = (Returned, data').
Proof.
  induction data as [s|kvs IH|items IH IH2] using node_induction2;
    intros path pre data' H;
    destruct (path_cases path) as [He|lf He Hs|rest He Hs Hne|key rest He Hs Hne Hk];
    try (rewrite inherit_value_bad_end in H by exact He; discriminate).
  - rewrite (inherit_value_leaf_scalar _ _ _ He _ _ Hs) in H. discriminate.
  - rewrite (inherit_value_star_other _ _ _ He _ _ Hs Hne) in H by reflexivity.
    discriminate.
  - rewrite (inherit_value_key_scalar _ _ _ He _ _ _ Hs Hne Hk) in H.
    discriminate.
  - rewrite (inherit_value_leaf_mapping _ _ _ He _ _ Hs) in H.
    injection H as <-.
    rewrite (inherit_value_leaf_mapping _ _ _ He _ _ Hs), setdefault_idempotent.
    reflexivity.
  - rewrite (inherit_value_star_mapping _ _ _ He _ _ Hs Hne) in H.
    destruct (for_each _ kvs) as [r0 kvs'] eqn:Ef. injection H as -> <-.
    rewrite (inherit_value_star_mapping _ _ _ He _ _ Hs Hne).
    erewrite for_each_idempotent; [reflexivity| |exact Ef].
    eapply Forall_impl; [|exact IH].
    intros [k v] Hv [k' v'] Hsf. simpl in *.
    destruct (negb (String.eqb k SHARED)) eqn:Ek.
    + destruct (inherit_value _ value v _) as [r1 v1] eqn:Ev.
      injection Hsf as -> <- <-. simpl. rewrite Ek, (Hv _ _ _ Ev). reflexivity.
    + injection Hsf as <- <-. simpl. rewrite Ek. reflexivity.
  - rewrite (inherit_value_key_mapping _ _ _ He _ _ _ Hs Hne Hk) in H.
    destruct (at_key _ key kvs) as [r0 kvs'] eqn:Ef. injection H as -> <-.
    rewrite (inherit_value_key_mapping _ _ _ He _ _ _ Hs Hne Hk).
    erewrite at_key_idempotent; [reflexivity| |exact Ef].
    eapply Forall_impl; [|exact IH].
    intros [k v] Hv v' Ev. simpl in *. eapply Hv. exact Ev.
  - rewrite (inherit_value_leaf_sequence _ _ _ He _ _ Hs) in H.
    destruct (for_each _ items) as [r0 items'] eqn:Ef. injection H as -> <-.
    rewrite (inherit_value_leaf_sequence _ _ _ He _ _ Hs).
    erewrite for_each_idempotent; [reflexivity| |exact Ef].
    apply Forall_forall. intros x _ x' Hx.
    destruct x as [s|ikvs|sub]; simpl in Hx; try discriminate.
    injection Hx as <-. simpl. rewrite setdefault_idempotent. reflexivity.
  - rewrite (inherit_value_star_other _ _ _ He _ _ Hs Hne) in H by reflexivity.
    discriminate.
  - rewrite (inherit_value_key_sequence _ _ _ He _ _ _ Hs Hne Hk) in H.
    destruct (for_each _ items) as [r0 items'] eqn:Ef. injection H as -> <-.
    rewrite (inherit_value_key_sequence _ _ _ He _ _ _ Hs Hne Hk).
    erewrite for_each_idempotent; [reflexivity| |exact Ef].
    eapply Forall_impl; [|exact IH2].
    intros item Hitem item' Hx.
    destruct item as [s|ikvs|sub]; simpl in Hx; try discriminate.
    destruct (at_key _ key ikvs) as [r1 ikvs'] eqn:Ea. injection Hx as -> <-.
    simpl. erewrite at_key_idempotent; [reflexivity| |exact Ea].
    eapply Forall_impl; [|exact (Hitem ikvs eq_refl)].
    intros [k v] Hv v' Ev. simpl in *. eapply Hv. exact Ev.
Qed.

Lemma inherit_value_idempotent_witness :
  inherit_value "*.memory" (int 2)
    (snd (inherit_value "*.memory" (int 2) memory_example None)) None
  = (Returned, snd (inherit_value "*.memory" (int 2) memory_example None)).
Proof.
  apply (inherit_value_idempotent (int 2) memory_example "*.memory" None).
  reflexivity.
Defined.

(** C7. Trailing wildcard: when the last segment of the pattern is the
    wildcard, [inherit_value] raises [ValueError] and the tree is as it
    was. *)
Theorem trailing_wildcard_is_value_error
    (path : string) (value data : node) (_prefix : option string) :
  last (split "." path) "" = "*" ->
  inherit_value path value data _prefix = (Raised ValueError, data).
Proof.
  intros H. apply inherit_value_bad_end.
  rewrite endswith_star_last, H. reflexivity.
Qed.

Lemma trailing_wildcard_is_value_error_witness :
  inherit_value "dev.*" (int 2) memory_example None
  = (Raised ValueError, memory_example).
Proof.
  apply (trailing_wildcard_is_value_error "dev.*" (int 2) memory_example None).
  reflexivity.
Defined.

(** C8. The error taxonomy is not closed: a wildcard segment met on a
    node that is not a Mapping raises [AttributeError], which is neither
    the structural error, nor a type error, nor a lookup error; so does a
    Shared Section that is not a Mapping. *)
Theorem wildcard_on_non_mapping_raises_attribute_error :
  inherit_value "*.k" (str "v") (str "hello") None
  = (Raised AttributeError, str "hello")
  /\ inherit_value "*.k" (str "v") (Sequence [Mapping []]) None
     = (Raised AttributeError, Sequence [Mapping []])
  /\ inherit_value "a.*.k" (str "v") (Mapping [("a", int 1)]) None
     = (Raised AttributeError, Mapping [("a", int 1)])
  /\ apply_inheritance (Mapping [("_shared", int 1)])
     = (Raised AttributeError, Mapping []).
Proof. repeat split. Qed.

(** C9, as stated, fails for a pattern that ends with a star without its
    last segment being the wildcard: the call raises [ValueError]. *)
Lemma vacuous_application_can_raise :
  split "." "k*" = ["k*"]
  /\ inherit_value "k*" (str "v") (Sequence []) None
     = (Raised ValueError, Sequence [])
  /\ split "." "*.k*" = ["*"; "k*"]
  /\ inherit_value "*.k*" (str "v") (Mapping []) None
     = (Raised ValueError, Mapping []).
Proof. repeat split. Qed.

(** C9, amended. For a pattern that does not end with a star: a
    wildcard segment expanded over an empty Mapping, and a one-segment
    pattern applied to an empty Sequence, return without raising and
    leave the data as it was. *)
Theorem vacuous_application_is_noop
    (path : string) (value : node) (_prefix : option string) :
  endswith_star path = false ->
  (hd "" (split "." path) = "*" -> 2 <= length (split "." path) ->
   inherit_value path value (Mapping []) _prefix = (Returned, Mapping []))
  /\ (length (split "." path) = 1 ->
      inherit_value path value (Sequence []) _prefix = (Returned, Sequence [])).
Proof.
  intros He. split.
  - intros Hhd Hlen.
    destruct (split "." path) as [|key rest] eqn:Hs; [simpl in Hlen; lia|].
    simpl in Hhd. subst key.
    assert (Hne : rest <> []) by (destruct rest; [simpl in Hlen; lia | discriminate]).
    rewrite (inherit_value_star_mapping _ _ _ He _ _ Hs Hne). reflexivity.
  - intros Hlen.
    destruct (split "." path) as [|leaf [|q rest]] eqn:Hs; try discriminate.
    rewrite (inherit_value_leaf_sequence _ _ _ He _ _ Hs). reflexivity.
Qed.

Lemma vacuous_application_is_noop_witness :
  (hd "" (split "." "*.key") = "*" -> 2 <= length (split "." "*.key") ->
   inherit_value "*.key" (str "value") (Mapping []) None = (Returned, Mapping []))
  /\ (length (split "." "*.key") = 1 ->
      inherit_value "*.key" (str "value") (Sequence []) None
      = (Returned, Sequence [])).
Proof.
  apply (vacuous_application_is_noop "*.key" (str "value") None).
  reflexivity.
Defined.

(** C10, as stated, fails: when the Mappings before the offending
    element already hold the field, the failed call leaves the Sequence
    as it was; and a one-segment pattern that ends with a star raises
    [ValueError] before anything is set. *)
Lemma failed_call_can_leave_sequence_unchanged :
  inherit_value "k" (str "v") (Sequence [Mapping [("k", int 1)]; int 5]) None
  = (Raised (make_type_error "" "k"), Sequence [Mapping [("k", int 1)]; int 5])
  /\ inherit_value "k*" (str "v") (Sequence [Mapping []; int 5]) None
     = (Raised ValueError, Sequence [Mapping []; int 5]).
Proof. split; reflexivity. Qed.

(** C10, amended. For a one-segment pattern that does not end with a
    star, applied to a Sequence whose first element that is not a
    Mapping comes after the Mappings [before]: the type error is raised
    once [setdefault] has been applied to every element of [before], the
    elements from the offending one on are untouched, and the Sequence is
    left changed exactly when some element of [before] lacked the
    field. *)
Theorem mixed_sequence_fails_after_partial_update
    (path leaf : string) (value : node) (_prefix : option string)
    (before : list node) (x : node) (after : list node) :
  endswith_star path = false ->
  split "." path = [leaf] ->
  forallb is_mapping before = true ->
  is_mapping x = false ->
  inherit_value path value (Sequence (before ++ x :: after)) _prefix
  = (Raised (make_type_error (prefix_of _prefix) leaf),
     Sequence (map (setdefault_node leaf value) before ++ x :: after))
  /\ forallb (has_field leaf) (map (setdefault_node leaf value) before) = true
  /\ (Sequence (map (setdefault_node leaf value) before ++ x :: after)
      <> Sequence (before ++ x :: after)
      <-> forallb (has_field leaf) before = false).
Proof.
  intros He Hs Hb Hx. split; [|split].
  - rewrite (inherit_value_leaf_sequence _ _ _ He _ _ Hs).
    rewrite (for_each_setdefault_item_stops _ _ _ _ _ _ Hb Hx). reflexivity.
  - clear -Hb. induction before as [|b before IH]; simpl in *; [reflexivity|].
    apply andb_true_iff in Hb. destruct Hb as [Hb1 Hb2].
    rewrite (IH Hb2), andb_true_r.
    destruct b as [s|ikvs|sub]; try discriminate. simpl.
    unfold dict_mem. rewrite dict_get_setdefault_leaf.
    destruct (dict_get leaf ikvs); reflexivity.
  - pose proof (map_setdefault_node_fixed leaf value before Hb) as Hfix.
    split.
    + intros Hneq. destruct (forallb (has_field leaf) before); [|reflexivity].
      exfalso. apply Hneq. rewrite (proj2 Hfix eq_refl). reflexivity.
    + intros Hf Heq. injection Heq as Heq. apply app_inv_tail in Heq.
      apply Hfix in Heq. congruence.
Qed.

Lemma mixed_sequence_fails_after_partial_update_witness :
  inherit_value "k" (str "v") (Sequence ([Mapping []] ++ int 5 :: [Mapping []])) None
  = (Raised (make_type_error (prefix_of None) "k"),
     Sequence (map (setdefault_node "k" (str "v")) [Mapping []]
               ++ int 5 :: [Mapping []]))
  /\ forallb (has_field "k") (map (setdefault_node "k" (str "v")) [Mapping []]) = true
  /\ (Sequence (map (setdefault_node "k" (str "v")) [Mapping []]
                ++ int 5 :: [Mapping []])
      <> Sequence ([Mapping []] ++ int 5 :: [Mapping []])
      <-> forallb (has_field "k") [Mapping []] = false).
Proof.
  apply (mixed_sequence_fails_after_partial_update "k" "k" (str "v") None
           [Mapping []] (int 5) [Mapping []]).
  - reflexivity.
  - reflexivity.
  - reflexivity.
  - reflexivity.
Defined.

(** * Further properties of [inherit.py] *)

(** ** Where an exception comes from *)

Lemma for_each_raised {A : Type} (f : A -> result * A) (l l' : list A) (e : exn) :
  for_each f l = (Raised e, l') ->
  exists x x', In x l /\ f x = (Raised e, x').
Proof.
  revert l'. induction l as [|x tl IH]; intros l' H; simpl in H; [discriminate|].
  destruct (f x) as [rx x'] eqn:Ex. destruct rx.
  - destruct (for_each f tl) as [r' tl'] eqn:Et. injection H as -> <-.
    destruct (IH _ eq_refl) as [y [y' [Hin Hy]]].
    exists y, y'. split; [right; exact Hin | exact Hy].
  - injection H as <- <-. exists x, x'. split; [left; reflexivity | exact Ex].
Qed.

Lemma at_key_raised (f : node -> result * node) (key : string)
    (kvs kvs' : list (string * node)) (e : exn) :
  at_key f key kvs = (Raised e, kvs') ->
  e = KeyError key
  \/ exists k v v', In (k, v) kvs /\ f v = (Raised e, v').
Proof.
  revert kvs'. induction kvs as [|[k v] tl IH]; intros kvs' H; simpl in H.
  - injection H as <- <-. left. reflexivity.
  - destruct (String.eqb k key).
    + destruct (f v) as [r v'] eqn:Ev. injection H as -> <-.
      right. exists k, v, v'. split; [left; reflexivity | exact Ev].
    + destruct (at_key f key tl) as [r tl'] eqn:Et. injection H as -> <-.
      destruct (IH _ eq_refl) as [He|[k1 [v1 [v1' [Hin Hf]]]]]; [left; exact He|].
      right. exists k1, v1, v1'. split; [right; exact Hin | exact Hf].
Qed.

Lemma endswith_star_tail (path key : string) (rest : list string) :
  split "." path = key :: rest -> rest <> [] ->
  endswith_star (join "." rest) = endswith_star path.
Proof.
  intros Hs Hne.
  rewrite endswith_star_join, (endswith_star_last path), Hs.
  destruct rest; [congruence | reflexivity].
Qed.

Lemma raisable_star (rest : list string) (prefix : string) (e : exn) :
  rest <> [] ->
  raisable ("*" :: rest) prefix e
  = (e = AttributeError \/ raisable rest (prefix ++ "." ++ "*")%string e).
Proof. destruct rest; [congruence | reflexivity]. Qed.

Lemma raisable_key (key : string) (rest : list string) (prefix : string) (e : exn) :
  rest <> [] -> String.eqb key "*" = false ->
  raisable (key :: rest) prefix e
  = (e = make_type_error prefix key
     \/ e = KeyError key
     \/ e = TypeError NotSubscriptable
     \/ raisable rest (prefix ++ "." ++ key)%string e).
Proof.
  intros Hne Hk. destruct rest; [congruence|]. simpl. rewrite Hk. reflexivity.
Qed.

(** Every exception raised past the check of the end of the path is one
    that [raisable] lists for the segments of the path. *)
Lemma inherit_value_raises (value data : node) :
  forall path _prefix e data',
    endswith_star path = false ->
    inherit_value path value data _prefix = (Raised e, data') ->
    raisable (split "." path) (prefix_of _prefix) e.
Proof.
  induction data as [s|kvs IH|items IH IH2] using node_induction2;
    intros path pre e data' Hend H;
    destruct (path_cases path) as [He|lf He Hs|rest He Hs Hne|key rest He Hs Hne Hk];
    try congruence; rewrite Hs.
  - rewrite (inherit_value_leaf_scalar _ _ _ He _ _ Hs) in H.
    injection H as <- _. reflexivity.
  - rewrite (inherit_value_star_other _ _ _ He _ _ Hs Hne) in H by reflexivity.
    injection H as <- _. rewrite raisable_star by exact Hne. left. reflexivity.
  - rewrite (inherit_value_key_scalar _ _ _ He _ _ _ Hs Hne Hk) in H.
    injection H as <- _. rewrite raisable_key by assumption. left. reflexivity.
  - rewrite (inherit_value_leaf_mapping _ _ _ He _ _ Hs) in H. discriminate.
  - rewrite (inherit_value_star_mapping _ _ _ He _ _ Hs Hne) in H.
    destruct (for_each _ kvs) as [r0 kvs'] eqn:Ef. injection H as -> _.
    destruct (for_each_raised _ _ _ _ Ef) as [[k v] [[k' v'] [Hin Hx]]].
    simpl in Hx. destruct (negb (String.eqb k SHARED)); [|discriminate].
    destruct (inherit_value _ value v _) as [r1 v1] eqn:Ev.
    injection Hx as -> _ _.
    rewrite raisable_star by exact Hne. right.
    rewrite Forall_forall in IH.
    pose proof (IH _ Hin _ _ _ _ (eq_trans (endswith_star_tail _ _ _ Hs Hne) He) Ev)
      as Hr.
    rewrite (split_tail _ _ _ Hs Hne) in Hr. exact Hr.
  - rewrite (inherit_value_key_mapping _ _ _ He _ _ _ Hs Hne Hk) in H.
    destruct (at_key _ key kvs) as [r0 kvs'] eqn:Ef. injection H as -> _.
    rewrite raisable_key by assumption.
    destruct (at_key_raised _ _ _ _ _ Ef) as [->|[k [v [v' [Hin Hf]]]]];
      [right; left; reflexivity|].
    right. right. right.
    rewrite Forall_forall in IH.
    pose proof (IH _ Hin _ _ _ _ (eq_trans (endswith_star_tail _ _ _ Hs Hne) He) Hf)
      as Hr.
    rewrite (split_tail _ _ _ Hs Hne) in Hr. exact Hr.
  - rewrite (inherit_value_leaf_sequence _ _ _ He _ _ Hs) in H.
    destruct (for_each _ items) as [r0 items'] eqn:Ef. injection H as -> _.
    destruct (for_each_raised _ _ _ _ Ef) as [x [x' [_ Hx]]].
    destruct x; simpl in Hx; try discriminate; injection Hx as <- _; reflexivity.
  - rewrite (inherit_value_star_other _ _ _ He _ _ Hs Hne) in H by reflexivity.
    injection H as <- _. rewrite raisable_star by exact Hne. left. reflexivity.
  - rewrite (inherit_value_key_sequence _ _ _ He _ _ _ Hs Hne Hk) in H.
    destruct (for_each _ items) as [r0 items'] eqn:Ef. injection H as -> _.
    rewrite raisable_key by assumption.
    destruct (for_each_raised _ _ _ _ Ef) as [x [x' [Hin Hx]]].
    destruct x as [s|ikvs|sub]; simpl in Hx;
      try (injection Hx as <- _; right; right; left; reflexivity).
    destruct (at_key _ key ikvs) as [r1 ikvs'] eqn:Ea. injection Hx as -> _.
    destruct (at_key_raised _ _ _ _ _ Ea) as [->|[k [v [v' [Hin' Hf]]]]];
      [right; left; reflexivity|].
    right. right. right.
    rewrite Forall_forall in IH2.
    pose proof (IH2 _ Hin ikvs eq_refl) as IHg. rewrite Forall_forall in IHg.
    pose proof (IHg _ Hin' _ _ _ _ (eq_trans (endswith_star_tail _ _ _ Hs Hne) He) Hf)
      as Hr.
    rewrite (split_tail _ _ _ Hs Hne) in Hr. exact Hr.
Qed.

Lemma string_app_assoc (a b c : string) :
  ((a ++ b) ++ c = a ++ (b ++ c))%string.
Proof. induction a as [|x a IH]; simpl; [reflexivity | rewrite IH; reflexivity]. Qed.

Lemma string_app_nil_r (a : string) : (a ++ "" = a)%string.
Proof. induction a as [|x a IH]; simpl; [reflexivity | rewrite IH; reflexivity]. Qed.

Lemma raisable_not_value_error (parts : list string) :
  forall prefix, ~ raisable parts prefix ValueError.
Proof.
  induction parts as [|key rest IH]; intros prefix H; [exact H|].
  destruct rest as [|q rest]; [discriminate|].
  simpl in H. destruct (String.eqb key "*").
  - destruct H as [H|H]; [discriminate | exact (IH _ H)].
  - destruct H as [H|[H|[H|H]]]; try discriminate. exact (IH _ H).
Qed.

Lemma raisable_not_index_error (parts : list string) :
  forall prefix, ~ raisable parts prefix IndexError.
Proof.
  induction parts as [|key rest IH]; intros prefix H; [exact H|].
  destruct rest as [|q rest]; [discriminate|].
  simpl in H. destruct (String.eqb key "*").
  - destruct H as [H|H]; [discriminate | exact (IH _ H)].
  - destruct H as [H|[H|[H|H]]]; try discriminate. exact (IH _ H).
Qed.

Lemma raisable_key_error (parts : list string) (k : string) :
  forall prefix,
    raisable parts prefix (KeyError k) ->
    k <> "*" /\ In k (removelast parts).
Proof.
  induction parts as [|key rest IH]; intros prefix H; [contradiction|].
  destruct rest as [|q rest]; [discriminate|].
  change (removelast (key :: q :: rest)) with (key :: removelast (q :: rest)).
  simpl in H. destruct (String.eqb key "*") eqn:Hk.
  - destruct H as [H|H]; [discriminate|].
    destruct (IH _ H) as [H1 H2]. split; [exact H1 | right; exact H2].
  - destruct H as [H|[H|[H|H]]]; try discriminate.
    + injection H as ->. apply String.eqb_neq in Hk.
      split; [exact Hk | left; reflexivity].
    + destruct (IH _ H) as [H1 H2]. split; [exact H1 | right; exact H2].
Qed.

Lemma raisable_attribute_error (parts : list string) :
  forall prefix,
    raisable parts prefix AttributeError -> In "*" (removelast parts).
Proof.
  induction parts as [|key rest IH]; intros prefix H; [contradiction|].
  destruct rest as [|q rest]; [discriminate|].
  change (removelast (key :: q :: rest)) with (key :: removelast (q :: rest)).
  simpl in H. destruct (String.eqb key "*") eqn:Hk.
  - apply String.eqb_eq in Hk. left. exact Hk.
  - destruct H as [H|[H|[H|H]]]; try discriminate. right. exact (IH _ H).
Qed.

Lemma raisable_not_subscriptable (parts : list string) :
  forall prefix,
    raisable parts prefix (TypeError NotSubscriptable) ->
    exists k, In k (removelast parts) /\ k <> "*".
Proof.
  induction parts as [|key rest IH]; intros prefix H; [contradiction|].
  destruct rest as [|q rest]; [discriminate|].
  change (removelast (key :: q :: rest)) with (key :: removelast (q :: rest)).
  simpl in H. destruct (String.eqb key "*") eqn:Hk.
  - destruct H as [H|H]; [discriminate|].
    destruct (IH _ H) as [k [H1 H2]]. exists k. split; [right; exact H1 | exact H2].
  - apply String.eqb_neq in Hk.
    destruct H as [H|[H|[H|H]]]; try discriminate.
    + exists key. split; [left; reflexivity | exact Hk].
    + destruct (IH _ H) as [k [H1 H2]]. exists k. split; [right; exact H1 | exact H2].
Qed.

Lemma raisable_type_error (parts : list string) (shown prefix key : string) :
  forall prefix0,
    raisable parts prefix0 (TypeError (NotDictOrListOfDict shown prefix key)) ->
    exists n,
      n < length parts
      /\ nth n parts "" = key
      /\ prefix = (prefix0 ++ dotted (firstn n parts))%string
      /\ shown = (if String.eqb prefix "" then "." else prefix).
Proof.
  assert (Hhere : forall prefix0 k l,
             TypeError (NotDictOrListOfDict shown prefix key)
             = make_type_error prefix0 k ->
             exists n,
               n < length (k :: l)
               /\ nth n (k :: l) "" = key
               /\ prefix = (prefix0 ++ dotted (firstn n (k :: l)))%string
               /\ shown = (if String.eqb prefix "" then "." else prefix)).
  { intros prefix0 k l H. unfold make_type_error in H. injection H as -> -> ->.
    exists 0. simpl. rewrite string_app_nil_r. repeat split. lia. }
  assert (Hdeeper : forall prefix0 k l,
             (exists n,
                 n < length l
                 /\ nth n l "" = key
                 /\ prefix = ((prefix0 ++ "." ++ k) ++ dotted (firstn n l))%string
                 /\ shown = (if String.eqb prefix "" then "." else prefix)) ->
             exists n,
               n < length (k :: l)
               /\ nth n (k :: l) "" = key
               /\ prefix = (prefix0 ++ dotted (firstn n (k :: l)))%string
               /\ shown = (if String.eqb prefix "" then "." else prefix)).
  { intros prefix0 k l [n [H1 [H2 [H3 H4]]]]. exists (S n). simpl.
    repeat split; [lia | exact H2 | | exact H4].
    rewrite H3. rewrite !string_app_assoc. reflexivity. }
  induction parts as [|k rest IH]; intros prefix0 H; [contradiction|].
  destruct rest as [|q rest]; [apply Hhere; exact H|].
  simpl in H. destruct (String.eqb k "*").
  - destruct H as [H|H]; [discriminate|]. apply Hdeeper, IH, H.
  - destruct H as [H|[H|[H|H]]]; try discriminate.
    + apply Hhere; exact H.
    + apply Hdeeper, IH, H.
Qed.

(** X1. [ValueError] is raised exactly when the path ends with a star,
    whatever the tree and however deep the pattern goes, and the tree is
    then as it was: the check of the end of the path never fires in a
    recursive call, after something has been set. *)
Theorem value_error_iff_path_ends_with_star
    (path : string) (value data : node) (_prefix : option string) :
  (fst (inherit_value path value data _prefix) = Raised ValueError
   <-> endswith_star path = true)
  /\ (fst (inherit_value path value data _prefix) = Raised ValueError ->
      snd (inherit_value path value data _prefix) = data).
Proof.
  destruct (endswith_star path) eqn:He.
  - rewrite (inherit_value_bad_end _ _ _ _ He). simpl. tauto.
  - assert (Hno : fst (inherit_value path value data _prefix) <> Raised ValueError).
    { destruct (inherit_value path value data _prefix) as [r d'] eqn:E. simpl.
      intros ->. apply inherit_value_raises in E; [|exact He].
      exact (raisable_not_value_error _ _ E). }
    split; [split; [intros H; contradiction | discriminate]|].
    intros H. contradiction.
Qed.

Lemma value_error_iff_path_ends_with_star_witness :
  (fst (inherit_value "*.servers.k*" (int 1) memory_example None) = Raised ValueError
   <-> endswith_star "*.servers.k*" = true)
  /\ (fst (inherit_value "*.servers.k*" (int 1) memory_example None)
      = Raised ValueError ->
      snd (inherit_value "*.servers.k*" (int 1) memory_example None)
      = memory_example).
Proof.
  exact (value_error_iff_path_ends_with_star "*.servers.k*" (int 1)
           memory_example None).
Defined.

(** X2. The [TypeError] built by [make_type_error] names a place of the
    pattern, not of the tree: its key is the segment at which the walk
    stopped and its prefix is the dotted run of the segments before it,
    wildcards left as stars and list positions left out; the root is
    shown as a single dot. *)
Theorem type_error_names_pattern_prefix
    (path : string) (value data : node) (shown prefix key : string) (data' : node) :
  inherit_value path value data None
  = (Raised (TypeError (NotDictOrListOfDict shown prefix key)), data') ->
  exists n,
    n < length (split "." path)
    /\ nth n (split "." path) "" = key
    /\ prefix = dotted (firstn n (split "." path))
    /\ shown = match n with 0 => "." | S _ => prefix end.
Proof.
  intros H.
  destruct (endswith_star path) eqn:He.
  - rewrite (inherit_value_bad_end _ _ _ _ He) in H. discriminate.
  - apply inherit_value_raises in H; [|exact He].
    destruct (raisable_type_error _ _ _ _ _ H) as [n [H1 [H2 [H3 H4]]]].
    simpl in H3. exists n. repeat split; try assumption.
    rewrite H4, H3. destruct n; simpl; [reflexivity|].
    destruct (split "." path); [simpl in H1; lia | reflexivity].
Qed.

Lemma type_error_names_pattern_prefix_witness :
  exists n,
    n < length (split "." "*.tags.name")
    /\ nth n (split "." "*.tags.name") "" = "name"
    /\ ".*.tags" = dotted (firstn n (split "." "*.tags.name"))
    /\ ".*.tags" = match n with 0 => "." | S _ => ".*.tags" end.
Proof.
  apply (type_error_names_pattern_prefix "*.tags.name" (str "x")
           (Mapping [("dev", Mapping [("tags", Sequence [Mapping []; int 5])])])
           ".*.tags" ".*.tags" "name"
           (Mapping [("dev", Mapping [("tags", Sequence [Mapping [("name", str "x")];
                                                         int 5])])])).
  reflexivity.
Defined.

(** X3. Where the other exceptions come from: a [KeyError] names a
    literal segment of the pattern that is not the last one; an
    [AttributeError] arises only when a segment before the last is the
    wildcard; the [TypeError] of a subscript arises only at a literal
    segment before the last; [IndexError] is never raised.  So a pattern
    without wildcard can only fail with [ValueError], [TypeError] or
    [KeyError]. *)
Theorem exceptions_come_from_segments
    (path : string) (value data : node) (_prefix : option string)
    (e : exn) (data' : node) :
  inherit_value path value data _prefix = (Raised e, data') ->
  e <> IndexError
  /\ (forall k, e = KeyError k ->
                k <> "*" /\ In k (removelast (split "." path)))
  /\ (e = AttributeError -> In "*" (removelast (split "." path)))
  /\ (e = TypeError NotSubscriptable ->
      exists k, In k (removelast (split "." path)) /\ k <> "*").
Proof.
  intros H.
  destruct (endswith_star path) eqn:He.
  - rewrite (inherit_value_bad_end _ _ _ _ He) in H. injection H as <- _.
    repeat split; intros; discriminate.
  - apply inherit_value_raises in H; [|exact He].
    split; [|split; [|split]].
    + intros ->. exact (raisable_not_index_error _ _ H).
    + intros k ->. exact (raisable_key_error _ _ _ H).
    + intros ->. exact (raisable_attribute_error _ _ H).
    + intros ->. exact (raisable_not_subscriptable _ _ H).
Qed.

Lemma exceptions_come_from_segments_witness :
  KeyError "missing" <> IndexError
  /\ (forall k, KeyError "missing" = KeyError k ->
                k <> "*" /\ In k (removelast (split "." "env.missing.key")))
  /\ (KeyError "missing" = AttributeError ->
      In "*" (removelast (split "." "env.missing.key")))
  /\ (KeyError "missing" = TypeError NotSubscriptable ->
      exists k, In k (removelast (split "." "env.missing.key")) /\ k <> "*").
Proof.
  apply (exceptions_come_from_segments "env.missing.key" (str "value")
           (Mapping [("env", Mapping [])]) None (KeyError "missing")
           (Mapping [("env", Mapping [])])).
  reflexivity.
Defined.

(** ** The first default wins *)

Lemma for_each_settled {A : Type} (f g : A -> result * A) (l l' : list A) :
  Forall (fun x => forall x', f x = (Returned, x') -> g x' = (Returned, x')) l ->
  for_each f l = (Returned, l') -> for_each g l' = (Returned, l').
Proof.
  intros Hall H. apply for_each_returned in H. apply for_each_returned.
  induction H as [|x x' tl tl' Hx _ IH]; [constructor|].
  inversion Hall as [|? ? Hx0 Htl]; subst.
  constructor; [apply Hx0; exact Hx | apply IH; exact Htl].
Qed.

Lemma at_key_settled (f g : node -> result * node) (key : string)
    (kvs kvs' : list (string * node)) :
  Forall (fun kv => forall v', f (snd kv) = (Returned, v') ->
                               g v' = (Returned, v')) kvs ->
  at_key f key kvs = (Returned, kvs') -> at_key g key kvs' = (Returned, kvs').
Proof.
  revert kvs'. induction kvs as [|[k v] tl IH]; intros kvs' Hall H; simpl in H;
    [discriminate|].
  inversion Hall as [|? ? Hv Htl]; subst. simpl in Hv.
  destruct (String.eqb k key) eqn:E.
  - destruct (f v) as [r v'] eqn:Ev. injection H as -> <-.
    simpl. rewrite E, (Hv _ eq_refl). reflexivity.
  - destruct (at_key f key tl) as [r tl'] eqn:Et. injection H as -> <-.
    simpl. rewrite E, (IH _ Htl eq_refl). reflexivity.
Qed.

Lemma setdefault_absorbs {V : Type} (kvs : list (string * V)) (leaf : string)
    (d1 d2 : V) :
  setdefault leaf d2 (setdefault leaf d1 kvs) = setdefault leaf d1 kvs.
Proof.
  pose proof (dict_get_setdefault_leaf kvs leaf d1) as H.
  destruct (dict_get leaf kvs); eapply setdefault_present; exact H.
Qed.

(** X4. The first default wins: once [inherit_value] has returned for a
    pattern, a later call with the same pattern and any other value (and
    any prefix) returns too and changes nothing, since every field the
    pattern designates is now present. *)
Theorem later_default_is_ignored (value1 value2 data : node) :
  forall path prefix1 prefix2 data',
    inherit_value path value1 data prefix1 = (Returned, data') ->
    inherit_value path value2 data' prefix2 = (Returned, data').
Proof.
  induction data as [s|kvs IH|items IH IH2] using node_induction2;
    intros path pre pre2 data' H;
    destruct (path_cases path) as [He|lf He Hs|rest He Hs Hne|key rest He Hs Hne Hk];
    try (rewrite inherit_value_bad_end in H by exact He; discriminate).
  - rewrite (inherit_value_leaf_scalar _ _ _ He _ _ Hs) in H. discriminate.
  - rewrite (inherit_value_star_other _ _ _ He _ _ Hs Hne) in H by reflexivity.
    discriminate.
  - rewrite (inherit_value_key_scalar _ _ _ He _ _ _ Hs Hne Hk) in H.
    discriminate.
  - rewrite (inherit_value_leaf_mapping _ _ _ He _ _ Hs) in H.
    injection H as <-.
    rewrite (inherit_value_leaf_mapping _ _ _ He _ _ Hs), setdefault_absorbs.
    reflexivity.
  - rewrite (inherit_value_star_mapping _ _ _ He _ _ Hs Hne) in H.
    destruct (for_each _ kvs) as [r0 kvs'] eqn:Ef. injection H as -> <-.
    rewrite (inherit_value_star_mapping _ _ _ He _ _ Hs Hne).
    erewrite for_each_settled; [reflexivity| |exact Ef].
    eapply Forall_impl; [|exact IH].
    intros [k v] Hv [k' v'] Hsf. simpl in *.
    destruct (negb (String.eqb k SHARED)) eqn:Ek.
    + destruct (inherit_value _ value1 v _) as [r1 v1] eqn:Ev.
      injection Hsf as -> <- <-. simpl. rewrite Ek.
      rewrite (Hv _ _ (child_prefix pre2 "*") _ Ev). reflexivity.
    + injection Hsf as <- <-. simpl. rewrite Ek. reflexivity.
  - rewrite (inherit_value_key_mapping _ _ _ He _ _ _ Hs Hne Hk) in H.
    destruct (at_key _ key kvs) as [r0 kvs'] eqn:Ef. injection H as -> <-.
    rewrite (inherit_value_key_mapping _ _ _ He _ _ _ Hs Hne Hk).
    erewrite at_key_settled; [reflexivity| |exact Ef].
    eapply Forall_impl; [|exact IH].
    intros [k v] Hv v' Ev. simpl in *. eapply Hv. exact Ev.
  - rewrite (inherit_value_leaf_sequence _ _ _ He _ _ Hs) in H.
    destruct (for_each _ items) as [r0 items'] eqn:Ef. injection H as -> <-.
    rewrite (inherit_value_leaf_sequence _ _ _ He _ _ Hs).
    erewrite for_each_settled; [reflexivity| |exact Ef].
    apply Forall_forall. intros x _ x' Hx.
    destruct x as [s|ikvs|sub]; simpl in Hx; try discriminate.
    injection Hx as <-. simpl. rewrite setdefault_absorbs. reflexivity.
  - rewrite (inherit_value_star_other _ _ _ He _ _ Hs Hne) in H by reflexivity.
    discriminate.
  - rewrite (inherit_value_key_sequence _ _ _ He _ _ _ Hs Hne Hk) in H.
    destruct (for_each _ items) as [r0 items'] eqn:Ef. injection H as -> <-.
    rewrite (inherit_value_key_sequence _ _ _ He _ _ _ Hs Hne Hk).
    erewrite for_each_settled; [reflexivity| |exact Ef].
    eapply Forall_impl; [|exact IH2].
    intros item Hitem item' Hx.
    destruct item as [s|ikvs|sub]; simpl in Hx; try discriminate.
    destruct (at_key _ key ikvs) as [r1 ikvs'] eqn:Ea. injection Hx as -> <-.
    simpl. erewrite at_key_settled; [reflexivity| |exact Ea].
    eapply Forall_impl; [|exact (Hitem ikvs eq_refl)].
    intros [k v] Hv v' Ev. simpl in *. eapply Hv. exact Ev.
Qed.

Lemma later_default_is_ignored_witness :
  inherit_value "*.memory" (int 16)
    (snd (inherit_value "*.memory" (int 2) memory_example None)) (Some ".x")
  = (Returned, snd (inherit_value "*.memory" (int 2) memory_example None)).
Proof.
  apply (later_default_is_ignored (int 2) (int 16) memory_example "*.memory" None).
  reflexivity.
Defined.

(** ** A call only adds fields named by the last segment *)

Lemma adds_only_refl (leaf : string) (n : node) : adds_only leaf n n.
Proof.
  intros w m m' H H'. rewrite H in H'. injection H' as <-. left. reflexivity.
Qed.

Lemma adds_only_setdefault (leaf : string) (value : node)
    (kvs : list (string * node)) :
  adds_only leaf (Mapping kvs) (Mapping (setdefault leaf value kvs)).
Proof.
  intros [|[k0|i] w] m m' H H'; simpl in *; try discriminate.
  - injection H as <-. injection H' as <-.
    unfold setdefault. destruct (dict_mem leaf kvs) eqn:E; [left; reflexivity|].
    right. split; [|reflexivity]. unfold keys. rewrite map_app. reflexivity.
  - destruct (dict_get k0 kvs) as [x|] eqn:E; [|discriminate].
    rewrite (dict_get_setdefault_present _ _ _ _ _ E) in H'.
    rewrite H in H'. injection H' as <-. left. reflexivity.
Qed.

Lemma adds_only_sequence (leaf : string) (items items' : list node) :
  Forall2 (adds_only leaf) items items' ->
  adds_only leaf (Sequence items) (Sequence items').
Proof.
  intros Hrel [|[k0|i] w] m m' H H'; simpl in *; try discriminate.
  destruct (nth_error items i) as [x|] eqn:E; [|discriminate].
  destruct (Forall2_nth_error _ _ _ _ _ Hrel E) as [x' [E' Hx]].
  rewrite E' in H'. exact (Hx _ _ _ H H').
Qed.

Lemma adds_only_mapping (leaf : string) (kvs kvs' : list (string * node)) :
  entries_related (adds_only leaf) kvs kvs' ->
  adds_only leaf (Mapping kvs) (Mapping kvs').
Proof.
  intros Hrel [|[k0|i] w] m m' H H'; simpl in *; try discriminate.
  - injection H as <-. injection H' as <-. left.
    exact (entries_related_keys _ _ _ Hrel).
  - destruct (dict_get k0 kvs) as [x|] eqn:E; [|discriminate].
    destruct (entries_related_get _ _ _ _ _ Hrel E) as [x' [E' Hx]].
    rewrite E' in H'. exact (Hx _ _ _ H H').
Qed.

(** X5. A call of [inherit_value] only adds, and only fields named by
    the last segment of the pattern, whether it returns or raises: what
    was in the tree is still there (the same scalar, a Mapping where a
    Mapping was, a Sequence of the same length), and a Mapping of the
    tree keeps its keys in their order, with at most the last segment,
    which it lacked, appended after them. *)
Theorem inherit_value_only_adds_last_segment
    (path : string) (value data : node) (_prefix : option string)
    (r : result) (data' : node) :
  inherit_value path value data _prefix = (r, data') ->
  keeps_fields data data'
  /\ adds_only (last (split "." path) "") data data'.
Proof.
  intros H. split.
  - exact (inherit_value_keeps_fields _ _ _ _ _ _ H).
  - eapply (inherit_value_closure value (last (split "." path) "")
              (adds_only (last (split "." path) "")));
      [ apply adds_only_refl
      | intros; apply adds_only_setdefault
      | apply adds_only_sequence
      | apply adds_only_mapping
      | reflexivity
      | exact H ].
Qed.

Lemma inherit_value_only_adds_last_segment_witness :
  keeps_fields memory_example
    (snd (inherit_value "*.memory" (int 2) memory_example None))
  /\ adds_only (last (split "." "*.memory") "") memory_example
       (snd (inherit_value "*.memory" (int 2) memory_example None)).
Proof.
  apply (inherit_value_only_adds_last_segment "*.memory" (int 2) memory_example
           None (fst (inherit_value "*.memory" (int 2) memory_example None))).
  reflexivity.
Defined.

(** X6. When [inherit_value] returns, every field the pattern
    designates is set: it holds the value it had when it had one, and the
    default when it was absent.  This is [dict.setdefault] lifted from
    one key to a pattern. *)
Theorem inherit_value_sets_every_target
    (path : string) (value data : node) (_prefix : option string)
    (data' : node) (where_ : list step) :
  inherit_value path value data _prefix = (Returned, data') ->
  designates (split "." path) where_ data = true ->
  node_at where_ data'
  = Some (match node_at where_ data with Some v => v | None => value end).
Proof.
  intros H Hd.
  destruct (node_at where_ data) as [v|] eqn:Hv.
  - exact (inherit_value_targets_kept _ _ _ _ _ _ H _ _ Hd Hv).
  - exact (inherit_value_fills_absent _ _ _ _ _ _ H Hd Hv).
Qed.

Lemma inherit_value_sets_every_target_witness :
  node_at [Key "dev"; Key "memory"]
    (snd (inherit_value "*.memory" (int 2) memory_example None))
  = Some (match node_at [Key "dev"; Key "memory"] memory_example with
          | Some v => v
          | None => int 2
          end).
Proof.
  apply (inherit_value_sets_every_target "*.memory" (int 2) memory_example None).
  - reflexivity.
  - reflexivity.
Defined.

(** ** The prefix only reaches the messages *)

Lemma same_but_message_refl (r : result) : same_but_message r r.
Proof. destruct r as [|[]]; simpl; auto. Qed.

Lemma agree_refl {A : Type} (a : result * A) : agree a a.
Proof. split; [reflexivity | apply same_but_message_refl]. Qed.

Lemma same_but_message_cases (r1 r2 : result) :
  same_but_message r1 r2 ->
  (r1 = Returned /\ r2 = Returned)
  \/ exists e1 e2, r1 = Raised e1 /\ r2 = Raised e2.
Proof.
  destruct r1 as [|e1], r2 as [|e2]; simpl; intros H; try contradiction.
  - left. split; reflexivity.
  - destruct e1; contradiction.
  - right. exists e1, e2. split; reflexivity.
Qed.

Lemma for_each_agree {A : Type} (f g : A -> result * A) (l : list A) :
  Forall (fun x => agree (f x) (g x)) l ->
  agree (for_each f l) (for_each g l).
Proof.
  induction 1 as [|x tl [Hs Hm] _ IH]; [apply agree_refl|].
  simpl. destruct (f x) as [r1 x1], (g x) as [r2 x2]. simpl in Hs, Hm. subst x2.
  destruct (same_but_message_cases _ _ Hm) as [[-> ->]|[e1 [e2 [-> ->]]]].
  - destruct (for_each f tl) as [r1 tl1], (for_each g tl) as [r2 tl2].
    destruct IH as [IHs IHm]. simpl in IHs, IHm. subst tl2.
    split; [reflexivity | exact IHm].
  - split; [reflexivity | exact Hm].
Qed.

Lemma at_key_agree (f g : node -> result * node) (key : string)
    (kvs : list (string * node)) :
  Forall (fun kv => agree (f (snd kv)) (g (snd kv))) kvs ->
  agree (at_key f key kvs) (at_key g key kvs).
Proof.
  induction 1 as [|[k v] tl [Hs Hm] _ IH]; [apply agree_refl|].
  simpl in *. destruct (String.eqb k key).
  - destruct (f v) as [r1 v1], (g v) as [r2 v2]. simpl in Hs, Hm. subst v2.
    split; [reflexivity | exact Hm].
  - destruct (at_key f key tl) as [r1 tl1], (at_key g key tl) as [r2 tl2].
    destruct IH as [IHs IHm]. simpl in IHs, IHm. subst tl2.
    split; [reflexivity | exact IHm].
Qed.

Lemma agree_wrap {A B : Type} (wrap : A -> B) (a b : result * A) :
  agree a b ->
  agree (let (r, x) := a in (r, wrap x)) (let (r, x) := b in (r, wrap x)).
Proof.
  destruct a as [r1 x1], b as [r2 x2]. intros [Hs Hm]. simpl in *. subst x2.
  split; [reflexivity | exact Hm].
Qed.

(** X7. The prefix only reaches the messages: two calls that differ by
    their [_prefix] alone leave the same tree behind and have the same
    outcome, up to the text of a [TypeError]. *)
Theorem prefix_only_reaches_messages (value data : node) :
  forall path prefix1 prefix2,
    agree (inherit_value path value data prefix1)
          (inherit_value path value data prefix2).
Proof.
  induction data as [s|kvs IH|items IH IH2] using node_induction2;
    intros path pre1 pre2;
    destruct (path_cases path) as [He|lf He Hs|rest He Hs Hne|key rest He Hs Hne Hk];
    try (rewrite !inherit_value_bad_end by exact He; apply agree_refl).
  - rewrite !(inherit_value_leaf_scalar _ _ _ He _ _ Hs).
    split; [reflexivity | exact I].
  - rewrite !(inherit_value_star_other _ _ _ He _ _ Hs Hne) by reflexivity.
    apply agree_refl.
  - rewrite !(inherit_value_key_scalar _ _ _ He _ _ _ Hs Hne Hk).
    split; [reflexivity | exact I].
  - rewrite !(inherit_value_leaf_mapping _ _ _ He _ _ Hs). apply agree_refl.
  - rewrite !(inherit_value_star_mapping _ _ _ He _ _ Hs Hne).
    apply (agree_wrap Mapping). apply for_each_agree.
    eapply Forall_impl; [|exact IH].
    intros [k v] Hv. simpl in *. destruct (negb (String.eqb k SHARED)).
    + apply (agree_wrap (fun v' => (k, v'))). apply Hv.
    + apply agree_refl.
  - rewrite !(inherit_value_key_mapping _ _ _ He _ _ _ Hs Hne Hk).
    apply (agree_wrap Mapping). apply at_key_agree.
    eapply Forall_impl; [|exact IH].
    intros [k v] Hv. simpl in *. apply Hv.
  - rewrite !(inherit_value_leaf_sequence _ _ _ He _ _ Hs).
    apply (agree_wrap Sequence). apply for_each_agree.
    apply Forall_forall. intros x _.
    destruct x; simpl; split; try reflexivity; exact I.
  - rewrite !(inherit_value_star_other _ _ _ He _ _ Hs Hne) by reflexivity.
    apply agree_refl.
  - rewrite !(inherit_value_key_sequence _ _ _ He _ _ _ Hs Hne Hk).
    apply (agree_wrap Sequence). apply for_each_agree.
    eapply Forall_impl; [|exact IH2].
    intros item Hitem.
    destruct item as [s|ikvs|sub]; simpl; try apply agree_refl.
    apply (agree_wrap Mapping). apply at_key_agree.
    eapply Forall_impl; [|exact (Hitem ikvs eq_refl)].
    intros [k v] Hv. simpl in *. apply Hv.
Qed.

(** ** Missing keys *)

Lemma at_key_missing (f : node -> result * node) (key : string)
    (kvs : list (string * node)) :
  dict_get key kvs = None -> at_key f key kvs = (Raised (KeyError key), kvs).
Proof.
  induction kvs as [|[k v] tl IH]; simpl; intros H; [reflexivity|].
  destruct (String.eqb k key); [discriminate|]. rewrite (IH H). reflexivity.
Qed.

(** X8. No container is created on the way: a literal segment before the
    last that the Mapping does not hold raises [KeyError] with that
    segment, and the Mapping is left as it was; only the last segment is
    ever added. *)
Theorem missing_intermediate_key_is_key_error
    (path key : string) (rest : list string) (value : node)
    (kvs : list (string * node)) (_prefix : option string) :
  endswith_star path = false ->
  split "." path = key :: rest -> rest <> [] ->
  String.eqb key "*" = false ->
  dict_get key kvs = None ->
  inherit_value path value (Mapping kvs) _prefix
  = (Raised (KeyError key), Mapping kvs).
Proof.
  intros He Hs Hne Hk Hget.
  rewrite (inherit_value_key_mapping _ _ _ He _ _ _ Hs Hne Hk).
  rewrite (at_key_missing _ _ _ Hget). reflexivity.
Qed.

Lemma missing_intermediate_key_is_key_error_witness :
  inherit_value "db.port" (int 5432) (Mapping [("name", str "dev")]) None
  = (Raised (KeyError "db"), Mapping [("name", str "dev")]).
Proof.
  apply (missing_intermediate_key_is_key_error "db.port" "db" ["port"]).
  - reflexivity.
  - reflexivity.
  - discriminate.
  - reflexivity.
  - reflexivity.
Defined.

(** ** Trees without Shared Sections *)

Lemma for_each_fixed {A : Type} (f : A -> result * A) (l : list A) :
  Forall (fun x => f x = (Returned, x)) l -> for_each f l = (Returned, l).
Proof.
  induction 1 as [|x tl Hx _ IH]; simpl; [reflexivity|].
  rewrite Hx, IH. reflexivity.
Qed.

Lemma no_shared_key (kvs : list (string * node)) (P : string * node -> bool) :
  forallb (fun kv => negb (String.eqb (fst kv) SHARED) && P kv) kvs = true ->
  dict_get SHARED kvs = None.
Proof.
  induction kvs as [|[k v] tl IH]; simpl; intros H; [reflexivity|].
  apply andb_true_iff in H. destruct H as [H1 H2].
  apply andb_true_iff in H1. destruct H1 as [H1 _].
  apply negb_true_iff in H1. rewrite H1. exact (IH H2).
Qed.

Lemma by_value_without_shared_sections (root : node) :
  is_mapping root = true ->
  unshared root = true ->
  apply_inheritance_by_value root = (Returned, root).
Proof.
  induction root as [s|items _|kvs IH] using node_induction_fields;
    intros Hmap Hun; try discriminate.
  rewrite apply_inheritance_by_value_mapping.
  assert (Hfields : for_each (resolve_field apply_inheritance_by_value) kvs
                    = (Returned, kvs)).
  { apply for_each_fixed.
    simpl in Hun. rewrite forallb_forall in Hun.
    rewrite Forall_forall in IH |- *.
    intros [k v] Hin. specialize (Hun _ Hin). destruct (IH _ Hin) as [Hv Hitems].
    simpl in Hun, Hv, Hitems.
    apply andb_true_iff in Hun. destruct Hun as [Hk Hun].
    apply negb_true_iff in Hk. unfold resolve_field. rewrite Hk.
    destruct v as [s|ckvs|items].
    - reflexivity.
    - rewrite (Hv eq_refl Hun). reflexivity.
    - rewrite for_each_fixed; [reflexivity|].
      specialize (Hitems items eq_refl).
      rewrite forallb_forall in Hun. rewrite Forall_forall in Hitems |- *.
      intros item Hi. specialize (Hun _ Hi).
      destruct item as [s|ikvs|sub]; simpl; try reflexivity.
      apply (Hitems _ Hi eq_refl Hun). }
  rewrite Hfields. simpl in Hun.
  rewrite (no_shared_key kvs _ Hun). reflexivity.
Qed.

(** X9. A configuration without Shared Sections passes through
    unchanged: when none of the Mappings that [apply_inheritance] visits
    has the reserved key, the call returns and the tree is as it was. *)
Theorem apply_inheritance_without_shared_sections (root : node) :
  is_mapping root = true ->
  unshared root = true ->
  apply_inheritance root = (Returned, root).
Proof.
  intros Hmap Hun.
  rewrite (by_value_is_exact root (unshared_scalar_defaults root Hun)).
  exact (by_value_without_shared_sections root Hmap Hun).
Qed.

Lemma apply_inheritance_without_shared_sections_witness :
  apply_inheritance memory_example = (Returned, memory_example).
Proof.
  apply (apply_inheritance_without_shared_sections memory_example).
  - reflexivity.
  - reflexivity.
Defined.

(** ** Resolution loses nothing but Shared Sections *)

Lemma keeps_outside_refl (n : node) : keeps_outside n n.
Proof. intros w v _ H. exists v. split; [exact H | apply same_kind_refl]. Qed.

Lemma keeps_outside_trans (a b c : node) :
  keeps_outside a b -> keeps_outside b c -> keeps_outside a c.
Proof.
  intros H1 H2 w v Hw H.
  destruct (H1 _ _ Hw H) as [v1 [Hv1 Hk1]].
  destruct (H2 _ _ Hw Hv1) as [v2 [Hv2 Hk2]].
  exists v2. split; [exact Hv2 | eapply same_kind_trans; eauto].
Qed.

Lemma keeps_fields_outside (n n' : node) : keeps_fields n n' -> keeps_outside n n'.
Proof. intros H w v _ Hv. exact (H _ _ Hv). Qed.

Lemma keeps_outside_mapping (kvs kvs' : list (string * node)) :
  entries_related keeps_outside kvs kvs' ->
  keeps_outside (Mapping kvs) (Mapping kvs').
Proof.
  intros Hrel [|[k|i] w] v Hw H; simpl in *; try discriminate.
  - injection H as <-. eexists. split; [reflexivity | exact I].
  - apply andb_true_iff in Hw. destruct Hw as [_ Hw].
    destruct (dict_get k kvs) as [x|] eqn:E; [|discriminate].
    destruct (entries_related_get _ _ _ _ _ Hrel E) as [x' [E' Hx]].
    rewrite E'. apply Hx; assumption.
Qed.

Lemma keeps_outside_sequence (items items' : list node) :
  Forall2 keeps_outside items items' ->
  keeps_outside (Sequence items) (Sequence items').
Proof.
  intros Hrel [|[k|i] w] v Hw H; simpl in *; try discriminate.
  - injection H as <-. eexists. split; [reflexivity|].
    simpl. eapply Forall2_length. exact Hrel.
  - destruct (nth_error items i) as [x|] eqn:E; [|discriminate].
    destruct (Forall2_nth_error _ _ _ _ _ Hrel E) as [x' [E' Hx]].
    rewrite E'. apply Hx; assumption.
Qed.

Lemma keeps_outside_pop (kvs : list (string * node)) :
  keeps_outside (Mapping kvs) (Mapping (dict_pop SHARED kvs)).
Proof.
  intros [|[k|i] w] v Hw H; simpl in *; try discriminate.
  - injection H as <-. eexists. split; [reflexivity | exact I].
  - apply andb_true_iff in Hw. destruct Hw as [Hk _].
    apply negb_true_iff, String.eqb_neq in Hk.
    rewrite dict_get_pop_other by exact Hk.
    destruct (dict_get k kvs) as [x|]; [|discriminate].
    exists v. split; [exact H | apply same_kind_refl].
Qed.

(** What the store holds only grows, the reserved key apart. *)

Lemma obj_grows_refl (o : obj) : obj_grows o o.
Proof. destruct o; simpl; eauto. Qed.

Lemma obj_grows_trans (a b c : obj) : obj_grows a b -> obj_grows b c -> obj_grows a c.
Proof.
  destruct a as [e|items]; simpl.
  - intros (e1 & -> & H1) (e2 & -> & H2). exists e2. split; [reflexivity|]. auto.
  - intros -> H. exact H.
Qed.

Lemma grows_refl (h : store) : grows h h.
Proof. split; [reflexivity|]. intros l o H. exists o. split; [exact H | apply obj_grows_refl]. Qed.

Lemma grows_trans (h1 h2 h3 : store) : grows h1 h2 -> grows h2 h3 -> grows h1 h3.
Proof.
  intros [L1 H1] [L2 H2]. split; [congruence|].
  intros l o Ho. destruct (H1 l o Ho) as (o2 & Ho2 & G1).
  destruct (H2 l o2 Ho2) as (o3 & Ho3 & G2).
  exists o3. split; [exact Ho3 | eapply obj_grows_trans; eauto].
Qed.

Lemma grows_update (h : store) (l : loc) (o o' : obj) :
  nth_error h l = Some o -> obj_grows o o' -> grows h (update h l o').
Proof.
  intros Ho G. split; [apply update_length|].
  intros l1 o1 H1. destruct (Nat.eq_dec l1 l) as [->|Hne].
  - rewrite update_same; [|apply nth_error_Some; congruence].
    exists o'. split; [reflexivity|]. congruence.
  - rewrite update_other by exact Hne. exists o1. split; [exact H1 | apply obj_grows_refl].
Qed.

Lemma kind_of_dict (h : store) (v : val) (l : loc) (entries : list (string * val)) :
  kind_of h v = KDict l entries -> nth_error h l = Some (ODict entries).
Proof.
  destruct v as [s|l0]; simpl; [discriminate|].
  destruct (nth_error h l0) as [[e|items]|] eqn:E; try discriminate.
  intros H. injection H as <- <-. exact E.
Qed.

Lemma grows_setdefault (h : store) (v : val) (l : loc)
    (entries : list (string * val)) (key : string) (value : val) :
  kind_of h v = KDict l entries ->
  grows h (update h l (ODict (setdefault key value entries))).
Proof.
  intros Hk. apply (grows_update h l (ODict entries)); [exact (kind_of_dict _ _ _ _ Hk)|].
  simpl. eexists. split; [reflexivity|]. intros k x _ Hx.
  apply dict_get_setdefault_present. exact Hx.
Qed.

Lemma grows_pop (h : store) (v : val) (l : loc) (entries : list (string * val)) :
  kind_of h v = KDict l entries ->
  grows h (update h l (ODict (dict_pop SHARED entries))).
Proof.
  intros Hk. apply (grows_update h l (ODict entries)); [exact (kind_of_dict _ _ _ _ Hk)|].
  simpl. eexists. split; [reflexivity|]. intros k x Hne Hx.
  rewrite dict_get_pop_other by exact Hne. exact Hx.
Qed.

Section LoopGrows.
Context {A : Type}.
Variable body : A -> store -> result * store.

Lemma for_in_grows (xs : list A) :
  Forall (fun x => forall h r h', body x h = (r, h') -> grows h h') xs ->
  forall h r h', for_in body xs h = (r, h') -> grows h h'.
Proof.
  induction 1 as [|x tl Hx _ IH]; intros h r h' H; simpl in H.
  - injection H as _ <-. apply grows_refl.
  - destruct (body x h) as [r1 h1] eqn:E1. pose proof (Hx _ _ _ E1) as G1.
    destruct r1.
    + eapply grows_trans; [exact G1 | eapply IH; exact H].
    + injection H as _ <-. exact G1.
Qed.
End LoopGrows.

Lemma store_at_key_grows (rec : val -> store -> result * store) (key : string)
    (entries : list (string * val)) :
  (forall v h r h', rec v h = (r, h') -> grows h h') ->
  forall h r h', store_at_key rec key entries h = (r, h') -> grows h h'.
Proof.
  intros Hrec h r h' H. unfold store_at_key in H.
  destruct (dict_get key entries); [eapply Hrec; exact H|].
  injection H as _ <-. apply grows_refl.
Qed.

Lemma inherit_value_upto_grows (limit : nat) :
  forall path value data _prefix h r h',
    inherit_value_upto limit path value data _prefix h = (r, h') -> grows h h'.
Proof.
  induction limit as [|limit IH]; intros path value data pre h r h' H.
  { simpl in H. injection H as _ <-. apply grows_refl. }
  destruct (path_cases path) as [He|lf He Hs|rest He Hs Hne|key rest He Hs Hne Hk].
  - rewrite inherit_value_upto_bad_end in H by exact He.
    injection H as _ <-. apply grows_refl.
  - rewrite (inherit_value_upto_leaf _ _ _ _ _ _ He _ Hs) in H.
    destruct (kind_of h data) as [l entries|l items|] eqn:Ek.
    + injection H as _ <-. eapply grows_setdefault. exact Ek.
    + eapply for_in_grows; [|exact H]. apply Forall_forall.
      intros item _ h0 r0 h0' H0. unfold store_setdefault_item in H0.
      destruct (kind_of h0 item) as [li ie|li ii|] eqn:Ei;
        try (injection H0 as _ <-; apply grows_refl).
      injection H0 as _ <-. eapply grows_setdefault. exact Ei.
    + injection H as _ <-. apply grows_refl.
  - rewrite (inherit_value_upto_star _ _ _ _ _ _ He _ Hs Hne) in H.
    destruct (kind_of h data) as [l entries|l items|] eqn:Ek;
      try (injection H as _ <-; apply grows_refl).
    eapply for_in_grows; [|exact H]. apply Forall_forall.
    intros [k v] _ h0 r0 h0' H0. unfold store_star_field in H0.
    destruct (negb (String.eqb k SHARED)); [eapply IH; exact H0|].
    injection H0 as _ <-. apply grows_refl.
  - rewrite (inherit_value_upto_key _ _ _ _ _ _ He _ _ Hs Hne Hk) in H.
    destruct (kind_of h data) as [l entries|l items|] eqn:Ek.
    + eapply store_at_key_grows; [|exact H]. intros ? ? ? ? Hrec; cbv beta in Hrec; eapply IH; exact Hrec.
    + eapply for_in_grows; [|exact H]. apply Forall_forall.
      intros item _ h0 r0 h0' H0. unfold store_at_item_key in H0.
      destruct (kind_of h0 item) as [li ie|li ii|];
        try (injection H0 as _ <-; apply grows_refl).
      eapply store_at_key_grows; [|exact H0]. intros ? ? ? ? Hrec; cbv beta in Hrec; eapply IH; exact Hrec.
    + injection H as _ <-. apply grows_refl.
Qed.

Lemma own_shared_in_store_grows (data : val) (h r : _) (h' : store) :
  own_shared_in_store data h = (r, h') -> grows h h'.
Proof.
  unfold own_shared_in_store. intros H.
  destruct (kind_of h data) as [l entries|l items|] eqn:Ek;
    try (injection H as _ <-; apply grows_refl).
  destruct (dict_get SHARED entries) as [shared_data|];
    [|injection H as _ <-; apply grows_refl].
  pose proof (grows_pop _ _ _ _ Ek) as G.
  destruct (kind_of _ shared_data) as [ls defaults|ls items|];
    try (injection H as _ <-; exact G).
  eapply grows_trans; [exact G|].
  unfold store_apply_shared in H. eapply for_in_grows; [|exact H].
  apply Forall_forall. intros entry _ h0 r0 h0' H0.
  eapply inherit_value_upto_grows. exact H0.
Qed.

Lemma apply_inheritance_upto_grows (limit : nat) :
  forall data h r h',
    apply_inheritance_upto limit data h = (r, h') -> grows h h'.
Proof.
  induction limit as [|limit IH]; intros data h r h' H.
  { simpl in H. injection H as _ <-. apply grows_refl. }
  rewrite apply_inheritance_upto_step in H.
  destruct (kind_of h data) as [l entries|l items|] eqn:Ek;
    try (injection H as _ <-; apply grows_refl).
  destruct (for_in _ entries h) as [r1 h1] eqn:Ef.
  assert (G1 : grows h h1).
  { eapply for_in_grows; [|exact Ef]. apply Forall_forall.
    intros [k v] _ h0 r0 h0' H0. unfold store_resolve_field in H0.
    destruct (String.eqb k SHARED); [injection H0 as _ <-; apply grows_refl|].
    destruct (kind_of h0 v) as [lv ev|lv iv|].
    - eapply IH. exact H0.
    - eapply for_in_grows; [|exact H0]. apply Forall_forall.
      intros item _ h2 r2 h2' H2. unfold store_resolve_item in H2.
      destruct (kind_of h2 item); try (injection H2 as _ <-; apply grows_refl).
      eapply IH. exact H2.
    - injection H0 as _ <-. apply grows_refl. }
  destruct r1; [|injection H as _ <-; exact G1].
  eapply grows_trans; [exact G1 | eapply own_shared_in_store_grows; exact H].
Qed.

Lemma read_grows (fuel : nat) :
  forall h h' v, grows h h' -> keeps_outside (read fuel h v) (read fuel h' v).
Proof.
  induction fuel as [|fuel IH]; intros h h' v G.
  { destruct v; apply keeps_outside_refl. }
  destruct v as [s|l]; [apply keeps_outside_refl|]. simpl.
  destruct G as [L G0].
  destruct (nth_error h l) as [o|] eqn:Eo.
  - destruct (G0 l o Eo) as (o' & Eo' & Go). rewrite Eo'.
    destruct o as [entries|items]; simpl in Go.
    + destruct Go as (entries' & -> & Hkeep).
      intros [|[k|i] w] v0 Hw Hat; simpl in *; try discriminate.
      * injection Hat as <-. eexists. split; [reflexivity | exact I].
      * apply andb_true_iff in Hw. destruct Hw as [Hk Hw].
        apply negb_true_iff, String.eqb_neq in Hk.
        rewrite (dict_get_map (read fuel h) k entries) in Hat.
        rewrite (dict_get_map (read fuel h') k entries').
        destruct (dict_get k entries) as [x|] eqn:Ex; [|discriminate].
        rewrite (Hkeep k x Hk Ex). simpl in *.
        exact (IH h h' x (conj L G0) w v0 Hw Hat).
    + subst o'.
      intros [|[k|i] w] v0 Hw Hat; simpl in *; try discriminate.
      * injection Hat as <-. eexists. split; [reflexivity|].
        simpl. rewrite !length_map. reflexivity.
      * rewrite nth_error_map in *.
        destruct (nth_error items i) as [x|]; [|discriminate]. simpl in *.
        exact (IH h h' x (conj L G0) w v0 Hw Hat).
  - assert (E' : nth_error h' l = None).
    { apply nth_error_None. rewrite L. apply nth_error_None. exact Eo. }
    rewrite E'. apply keeps_outside_refl.
Qed.

(** X10. Resolution loses nothing but Shared Sections: whether
    [apply_inheritance] returns or raises, whatever the tree held at a
    place not reached through the reserved key is still there, a scalar
    with its value, a Mapping as a Mapping, a Sequence with its length.
    No explicit value is overwritten or dropped. *)
Theorem apply_inheritance_keeps_everything_else (root : node) :
  forall r root' where_ v,
    apply_inheritance root = (r, root') ->
    avoids_shared where_ = true ->
    node_at where_ root = Some v ->
    exists v', node_at where_ root' = Some v' /\ same_kind v v'.
Proof.
  assert (H : forall r root', apply_inheritance root = (r, root') ->
                              keeps_outside root root').
  { unfold apply_inheritance. intros r root'.
    destruct (load_placed root []) as (a & ext & Hl & Ht & Hok & Hnd & Hr & Hlen).
    simpl app in *. rewrite Hl.
    destruct (apply_inheritance_upto (S (length ext)) (val_of a) ext)
      as [r0 h'] eqn:E.
    intros H. injection H as _ <-.
    pose proof (apply_inheritance_upto_grows _ _ _ _ _ E) as G.
    assert (Hroot : read (length ext) ext (val_of a) = root).
    { rewrite <- Ht. apply (read_stored (psize a) a (le_n _)); [exact Hok | lia]. }
    rewrite <- Hroot at 1. destruct G as [L G]. rewrite L.
    apply read_grows. split; assumption. }
  intros r root' w v Hres Hw Hv. exact (H r root' Hres w v Hw Hv).
Qed.

Lemma apply_inheritance_keeps_everything_else_witness :
  exists v',
    node_at [Key "dev"; Key "servers"; Key "blue"] precedence_resolved = Some v'
    /\ same_kind (Mapping []) v'.
Proof.
  apply (apply_inheritance_keeps_everything_else precedence_example Returned
           precedence_resolved [Key "dev"; Key "servers"; Key "blue"] (Mapping [])).
  - reflexivity.
  - reflexivity.
  - reflexivity.
Defined.

(** ** The Shared Section of the resolved Mapping itself *)

Lemma keys_get_none {V W : Type} (k : string) (kvs : list (string * V))
    (kvs' : list (string * W)) :
  keys kvs' = keys kvs -> dict_get k kvs = None -> dict_get k kvs' = None.
Proof.
  intros Hkeys H.
  pose proof (existsb_keys k kvs) as H1. pose proof (existsb_keys k kvs') as H2.
  rewrite Hkeys, H1 in H2. unfold dict_mem in H2. rewrite H in H2.
  destruct (dict_get k kvs'); [discriminate | reflexivity].
Qed.

Lemma dict_get_pop_same {V : Type} (k : string) (kvs : list (string * V)) :
  dict_get k (dict_pop k kvs) = None.
Proof.
  induction kvs as [|[k1 v1] tl IH]; simpl; [reflexivity|].
  destruct (String.eqb k1 k) eqn:E; simpl; [exact IH|]. rewrite E. exact IH.
Qed.

(** At the root, a call can add no key but the whole path, and only when
    the path is a single segment. *)
Lemma inherit_value_root_keys (path : string) (value : node)
    (kvs : list (string * node)) (_prefix : option string) (r : result)
    (data' : node) :
  inherit_value path value (Mapping kvs) _prefix = (r, data') ->
  exists kvs',
    data' = Mapping kvs'
    /\ forall k, dict_get k kvs = None -> k <> path -> dict_get k kvs' = None.
Proof.
  intros H.
  destruct (path_cases path) as [He|lf He Hs|rest He Hs Hne|key rest He Hs Hne Hk].
  - rewrite inherit_value_bad_end in H by exact He. injection H as _ <-.
    exists kvs. split; [reflexivity | intros; assumption].
  - rewrite (inherit_value_leaf_mapping _ _ _ He _ _ Hs) in H. injection H as _ <-.
    eexists. split; [reflexivity|]. intros k Hget Hk.
    assert (Hlf : lf = path).
    { rewrite <- (join_split path), Hs. reflexivity. }
    subst lf. unfold setdefault. destruct (dict_mem path kvs); [exact Hget|].
    rewrite dict_get_app, Hget. simpl.
    destruct (String.eqb path k) eqn:E; [|reflexivity].
    apply String.eqb_eq in E. congruence.
  - rewrite (inherit_value_star_mapping _ _ _ He _ _ Hs Hne) in H.
    destruct (for_each _ kvs) as [r0 kvs'] eqn:Ef. injection H as _ <-.
    exists kvs'. split; [reflexivity|]. intros k Hget _.
    apply (keys_get_none k kvs); [|exact Hget].
    apply (entries_related_keys (fun _ _ => True)).
    eapply for_each_Forall2; [| |exact Ef].
    + intros x. split; [reflexivity | exact I].
    + apply Forall_forall. intros [k1 v1] _ r' [k2 v2] Hsf. simpl in *.
      destruct (negb (String.eqb k1 SHARED)).
      * destruct (inherit_value _ value v1 _). injection Hsf as _ <- _.
        split; [reflexivity | exact I].
      * injection Hsf as _ <- _. split; [reflexivity | exact I].
  - rewrite (inherit_value_key_mapping _ _ _ He _ _ _ Hs Hne Hk) in H.
    destruct (at_key _ key kvs) as [r0 kvs'] eqn:Ef. injection H as _ <-.
    exists kvs'. split; [reflexivity|]. intros k Hget _.
    apply (keys_get_none k kvs); [|exact Hget].
    apply (entries_related_keys (fun _ _ => True)).
    eapply at_key_Forall2; [intros; exact I| |exact Ef].
    apply Forall_forall. intros; exact I.
Qed.

Lemma apply_shared_by_value_root_keys (entries : list (string * node)) :
  forall kvs r data',
    apply_shared_by_value entries (Mapping kvs) = (r, data') ->
    exists kvs',
      data' = Mapping kvs'
      /\ forall k, dict_get k kvs = None -> dict_get k entries = None ->
                   dict_get k kvs' = None.
Proof.
  induction entries as [|[path value] tl IH]; intros kvs r data' H.
  - injection H as _ <-. exists kvs. split; [reflexivity | intros; assumption].
  - rewrite apply_shared_by_value_cons in H.
    destruct (inherit_value path value (Mapping kvs) None) as [r1 d1] eqn:E1.
    destruct (inherit_value_root_keys _ _ _ _ _ _ E1) as [kvs1 [-> Hk1]].
    assert (Hstep : forall k, dict_get k kvs = None ->
                              dict_get k ((path, value) :: tl) = None ->
                              dict_get k kvs1 = None /\ dict_get k tl = None).
    { intros k Hget Hent. simpl in Hent.
      destruct (String.eqb path k) eqn:E; [discriminate|].
      apply String.eqb_neq in E. split; [|exact Hent].
      apply Hk1; [exact Hget | congruence]. }
    destruct r1.
    + destruct (IH _ _ _ H) as [kvs' [-> Hk']].
      exists kvs'. split; [reflexivity|]. intros k Hget Hent.
      destruct (Hstep k Hget Hent) as [H1 H2]. exact (Hk' k H1 H2).
    + injection H as _ <-. exists kvs1. split; [reflexivity|].
      intros k Hget Hent. exact (proj1 (Hstep k Hget Hent)).
Qed.

Lemma by_value_own_shared_section_is_removed
    (kvs : list (string * node)) (root' : node) :
  apply_inheritance_by_value (Mapping kvs) = (Returned, root') ->
  names_itself kvs = false ->
  node_at [Key SHARED] root' = None.
Proof.
  intros H Hself. rewrite apply_inheritance_by_value_mapping in H.
  destruct (for_each _ kvs) as [r kvs1] eqn:Ef.
  destruct r; [|discriminate].
  apply for_each_returned in Ef.
  destruct (dict_get SHARED kvs1) as [shared_data|] eqn:Hget.
  - destruct shared_data as [s0|entries|items]; try discriminate.
    destruct (resolved_fields_get_back _ _ _ _ _ Ef Hget) as [v [Hv Hres]].
    rewrite resolve_field_shared in Hres. injection Hres as ->.
    unfold names_itself in Hself. rewrite Hv in Hself.
    destruct (apply_shared_by_value_root_keys _ _ _ _ H) as [kvs' [-> Hk]].
    simpl. rewrite (Hk SHARED).
    + reflexivity.
    + apply dict_get_pop_same.
    + unfold dict_mem in Hself.
      destruct (dict_get SHARED entries); [discriminate | reflexivity].
  - injection H as <-. simpl. rewrite Hget. reflexivity.
Qed.

(** X11. The Shared Section of the resolved Mapping is gone from it: in
    a tree whose Shared Sections hold scalar defaults, when
    [apply_inheritance] returns, the Mapping it was called on has no
    reserved key, unless its Shared Section holds the reserved key itself
    as a pattern. *)
Theorem own_shared_section_is_removed
    (kvs : list (string * node)) (root' : node) :
  scalar_defaults (Mapping kvs) = true ->
  apply_inheritance (Mapping kvs) = (Returned, root') ->
  names_itself kvs = false ->
  node_at [Key SHARED] root' = None.
Proof.
  intros Hsd H Hself.
  rewrite (by_value_is_exact _ Hsd) in H.
  exact (by_value_own_shared_section_is_removed kvs root' H Hself).
Qed.

Lemma own_shared_section_is_removed_witness :
  node_at [Key SHARED] (Mapping [("a", Mapping [("x", int 1)])]) = None.
Proof.
  apply (own_shared_section_is_removed
           [("_shared", Mapping [("*.x", int 1)]); ("a", Mapping [])]).
  - reflexivity.
  - reflexivity.
  - reflexivity.
Defined.

(** ** Splitting once is enough *)

Lemma at_key_ext (f g : node -> result * node) (key : string)
    (kvs : list (string * node)) :
  Forall (fun kv => f (snd kv) = g (snd kv)) kvs ->
  at_key f key kvs = at_key g key kvs.
Proof.
  induction 1 as [|[k v] tl Hv _ IH]; simpl in *; [reflexivity|].
  rewrite Hv, IH. reflexivity.
Qed.

Lemma inherit_value_walks (value data : node) :
  forall path _prefix,
    endswith_star path = false ->
    inherit_value path value data _prefix
    = walk (split "." path) value (prefix_of _prefix) data.
Proof.
  induction data as [s|kvs IH|items IH IH2] using node_induction2;
    intros path pre Hend;
    destruct (path_cases path) as [He|lf He Hs|rest He Hs Hne|key rest He Hs Hne Hk];
    try congruence;
    pose proof Hs as Hs'; rewrite Hs.
  - rewrite (inherit_value_leaf_scalar _ _ _ He _ _ Hs'). reflexivity.
  - rewrite (inherit_value_star_other _ _ _ He _ _ Hs' Hne) by reflexivity.
    destruct rest; [congruence | reflexivity].
  - rewrite (inherit_value_key_scalar _ _ _ He _ _ _ Hs' Hne Hk).
    destruct rest; [congruence|]. simpl. rewrite Hk. reflexivity.
  - rewrite (inherit_value_leaf_mapping _ _ _ He _ _ Hs'). reflexivity.
  - rewrite (inherit_value_star_mapping _ _ _ He _ _ Hs' Hne).
    pose proof (split_tail _ _ _ Hs' Hne) as Htail.
    pose proof (eq_trans (endswith_star_tail _ _ _ Hs' Hne) He) as Hend'.
    destruct rest as [|q rest]; [congruence|].
    change (walk ("*" :: q :: rest) value (prefix_of pre) (Mapping kvs))
      with (let (r, kvs') :=
              for_each
                (star_field (walk (q :: rest) value (prefix_of pre ++ "." ++ "*")))
                kvs in
            (r, Mapping kvs')).
    rewrite (for_each_ext _
               (star_field (walk (q :: rest) value (prefix_of pre ++ "." ++ "*"))));
      [reflexivity|].
    eapply Forall_impl; [|exact IH].
    intros [k v] Hv. simpl in Hv. unfold star_field.
    rewrite (Hv _ _ Hend'), Htail. reflexivity.
  - rewrite (inherit_value_key_mapping _ _ _ He _ _ _ Hs' Hne Hk).
    pose proof (split_tail _ _ _ Hs' Hne) as Htail.
    pose proof (eq_trans (endswith_star_tail _ _ _ Hs' Hne) He) as Hend'.
    destruct rest as [|q rest]; [congruence|].
    change (walk (key :: q :: rest) value (prefix_of pre) (Mapping kvs))
      with (if String.eqb key "*" then
              let (r, kvs') :=
                for_each
                  (star_field (walk (q :: rest) value (prefix_of pre ++ "." ++ key)))
                  kvs in
              (r, Mapping kvs')
            else
              let (r, kvs') :=
                at_key (walk (q :: rest) value (prefix_of pre ++ "." ++ key)) key kvs in
              (r, Mapping kvs')).
    rewrite Hk.
    rewrite (at_key_ext _ (walk (q :: rest) value (prefix_of pre ++ "." ++ key)));
      [reflexivity|].
    eapply Forall_impl; [|exact IH].
    intros [k v] Hv. simpl in Hv |- *.
    rewrite (Hv _ _ Hend'), Htail. reflexivity.
  - rewrite (inherit_value_leaf_sequence _ _ _ He _ _ Hs'). reflexivity.
  - rewrite (inherit_value_star_other _ _ _ He _ _ Hs' Hne) by reflexivity.
    destruct rest; [congruence | reflexivity].
  - rewrite (inherit_value_key_sequence _ _ _ He _ _ _ Hs' Hne Hk).
    pose proof (split_tail _ _ _ Hs' Hne) as Htail.
    pose proof (eq_trans (endswith_star_tail _ _ _ Hs' Hne) He) as Hend'.
    destruct rest as [|q rest]; [congruence|].
    change (walk (key :: q :: rest) value (prefix_of pre) (Sequence items))
      with (if String.eqb key "*" then (Raised AttributeError, Sequence items)
            else
              let (r, items') :=
                for_each
                  (at_item_key (walk (q :: rest) value (prefix_of pre ++ "." ++ key))
                     key)
                  items in
              (r, Sequence items')).
    rewrite Hk.
    rewrite (for_each_ext _
               (at_item_key (walk (q :: rest) value (prefix_of pre ++ "." ++ key))
                  key));
      [reflexivity|].
    eapply Forall_impl; [|exact IH2].
    intros item Hitem.
    destruct item as [s|ikvs|sub]; try reflexivity.
    unfold at_item_key.
    rewrite (at_key_ext _ (walk (q :: rest) value (prefix_of pre ++ "." ++ key)));
      [reflexivity|].
    eapply Forall_impl; [|exact (Hitem ikvs eq_refl)].
    intros [k v] Hv. simpl in Hv |- *.
    rewrite (Hv _ _ Hend'), Htail. reflexivity.
Qed.

(** X12. Splitting once is enough: [inherit_value] checks the end of the
    path, splits it and re-joins the remainder in every recursive call,
    and this is the same as checking and splitting the pattern once and
    then walking its segments one by one. *)
Theorem inherit_value_is_one_parse_then_a_walk
    (path : string) (value data : node) (_prefix : option string) :
  inherit_value path value data _prefix
  = if endswith_star path then (Raised ValueError, data)
    else walk (split "." path) value (prefix_of _prefix) data.
Proof.
  destruct (endswith_star path) eqn:He.
  - apply inherit_value_bad_end. exact He.
  - apply inherit_value_walks. exact He.
Qed.

(** ** A field that fails to resolve *)

Lemma for_each_stops {A : Type} (f : A -> result * A)
    (before before' : list A) (x x' : A) (after : list A) (e : exn) :
  Forall2 (fun a a' => f a = (Returned, a')) before before' ->
  f x = (Raised e, x') ->
  for_each f (before ++ x :: after) = (Raised e, before' ++ x' :: after).
Proof.
  intros Hb Hx. induction Hb as [|a a' tl tl' Ha _ IH]; simpl.
  - rewrite Hx. reflexivity.
  - rewrite Ha, IH. reflexivity.
Qed.

(** X13. Failing midway: in a tree whose Shared Sections hold scalar
    defaults, when the resolution of a field raises, [apply_inheritance]
    raises the same exception at once; the fields before it stay
    resolved, the failing one keeps what was done to it, the fields after
    it are not visited, and the Shared Section of the Mapping itself is
    neither removed nor applied. *)
Theorem failed_field_stops_resolution
    (before before' : list (string * node)) (k : string) (v v' : node)
    (after : list (string * node)) (e : exn) :
  scalar_defaults (Mapping (before ++ (k, v) :: after)) = true ->
  Forall2 (fun kv kv' => resolve_field apply_inheritance kv = (Returned, kv'))
    before before' ->
  resolve_field apply_inheritance (k, v) = (Raised e, (k, v')) ->
  apply_inheritance (Mapping (before ++ (k, v) :: after))
  = (Raised e, Mapping (before' ++ (k, v') :: after))
  /\ dict_get SHARED (before' ++ (k, v') :: after)
     = dict_get SHARED (before ++ (k, v) :: after).
Proof.
  intros Hsd Hb0 Hx0.
  assert (Hb : Forall2 (fun kv kv' => resolve_field apply_inheritance_by_value kv
                                      = (Returned, kv')) before before').
  { eapply Forall2_impl_in; [|exact Hb0]. intros kv kv' Hin Hkv. simpl in Hkv.
    rewrite <- (resolve_field_exact _ kv Hsd); [exact Hkv|].
    apply in_or_app. left. exact Hin. }
  assert (Hx : resolve_field apply_inheritance_by_value (k, v) = (Raised e, (k, v'))).
  { rewrite <- (resolve_field_exact _ (k, v) Hsd); [exact Hx0|].
    apply in_or_app. right. left. reflexivity. }
  split.
  - rewrite (by_value_is_exact _ Hsd), apply_inheritance_by_value_mapping.
    rewrite (for_each_stops _ _ _ _ _ _ _ Hb Hx). reflexivity.
  - assert (Hk : String.eqb k SHARED = false).
    { unfold resolve_field in Hx. destruct (String.eqb k SHARED);
        [discriminate | reflexivity]. }
    rewrite !dict_get_app. simpl. rewrite Hk.
    assert (Hbefore : dict_get SHARED before' = dict_get SHARED before).
    { clear -Hb. induction Hb as [|[k1 v1] [k2 v2] tl tl' Hkv _ IH];
        [reflexivity|].
      pose proof (resolve_field_key _ _ _ _ _ _ Hkv) as ->. simpl.
      destruct (String.eqb k1 SHARED) eqn:E; [|exact IH].
      apply String.eqb_eq in E. subst k1.
      rewrite resolve_field_shared in Hkv. injection Hkv as <-. reflexivity. }
    rewrite Hbefore. reflexivity.
Qed.

Lemma failed_field_stops_resolution_witness :
  apply_inheritance
    (Mapping
       ([("_shared", Mapping [("*.y", int 0)]);
         ("a", Mapping [("_shared", Mapping [("k", int 1)])])]
        ++ ("b", Mapping [("_shared", Mapping [("*.x", int 1)]); ("c", int 5)])
        :: [("d", Mapping [("_shared", Mapping [])])]))
  = (Raised (make_type_error ".*" "x"),
     Mapping
       ([("_shared", Mapping [("*.y", int 0)]); ("a", Mapping [("k", int 1)])]
        ++ ("b", Mapping [("c", int 5)])
        :: [("d", Mapping [("_shared", Mapping [])])]))
  /\ dict_get SHARED
       ([("_shared", Mapping [("*.y", int 0)]); ("a", Mapping [("k", int 1)])]
        ++ ("b", Mapping [("c", int 5)])
        :: [("d", Mapping [("_shared", Mapping [])])])
     = dict_get SHARED
         ([("_shared", Mapping [("*.y", int 0)]);
           ("a", Mapping [("_shared", Mapping [("k", int 1)])])]
          ++ ("b", Mapping [("_shared", Mapping [("*.x", int 1)]); ("c", int 5)])
          :: [("d", Mapping [("_shared", Mapping [])])]).
Proof.
  apply (failed_field_stops_resolution
           [("_shared", Mapping [("*.y", int 0)]);
            ("a", Mapping [("_shared", Mapping [("k", int 1)])])]
           [("_shared", Mapping [("*.y", int 0)]); ("a", Mapping [("k", int 1)])]
           "b"
           (Mapping [("_shared", Mapping [("*.x", int 1)]); ("c", int 5)])
           (Mapping [("c", int 5)])
           [("d", Mapping [("_shared", Mapping [])])]
           (make_type_error ".*" "x")).
  - reflexivity.
  - repeat constructor.
  - reflexivity.
Defined.

(** ** Where resolution removes every Shared Section *)

Lemma by_value_removes_shared_sections (root : node) :
  forall root',
    scoped root = true ->
    apply_inheritance_by_value root = (Returned, root') ->
    shared_free root' = true.
Proof.
  induction root as [s|items _|kvs IH] using node_induction_fields;
    intros root' Hsc H; try discriminate.
  rewrite apply_inheritance_by_value_mapping in H.
  destruct (for_each _ kvs) as [r kvs1] eqn:Ef.
  destruct r; [|discriminate].
  apply for_each_returned in Ef.
  assert (Hfields : Forall (fun kv => String.eqb (fst kv) SHARED = false ->
                                      shared_free (snd kv) = true) kvs1).
  { simpl in Hsc. clear H. revert IH Hsc.
    induction Ef as [|[k v] [k' v'] tl tl' Hkv _ IHf]; intros IH Hsc;
      constructor.
    - inversion IH as [|? ? [Hv Hitems] _]; subst. simpl in Hv, Hitems.
      simpl in Hsc. apply andb_true_iff in Hsc. destruct Hsc as [Hsc _].
      pose proof (resolve_field_key _ _ _ _ _ _ Hkv) as ->.
      simpl. intros Hk. unfold resolve_field in Hkv. rewrite Hk in *.
      destruct v as [s|ckvs|items].
      + injection Hkv as <-. reflexivity.
      + destruct (apply_inheritance_by_value (Mapping ckvs)) as [rc c'] eqn:Ec.
        injection Hkv as -> <-. apply Hv; [exact Hsc | reflexivity].
      + destruct (for_each (resolve_item apply_inheritance_by_value) items)
          as [ri items'] eqn:Ei.
        injection Hkv as -> <-. apply for_each_returned in Ei.
        simpl. eapply resolved_items_shared_free;
          [exact (Hitems items eq_refl) | exact Hsc | exact Ei].
    - inversion IH; subst. simpl in Hsc.
      apply andb_true_iff in Hsc. destruct Hsc as [_ Hsc].
      apply IHf; assumption. }
  pose proof (shared_free_pop _ Hfields) as Hpop.
  destruct (dict_get SHARED kvs1) as [shared_data|] eqn:Hget.
  - destruct shared_data as [s0|entries|items]; try discriminate.
    destruct (resolved_fields_get_back _ _ _ _ _ Ef Hget) as [v [Hv Hres]].
    rewrite resolve_field_shared in Hres. injection Hres as ->.
    apply dict_get_in in Hv.
    simpl in Hsc. rewrite forallb_forall in Hsc.
    specialize (Hsc _ Hv). simpl in Hsc.
    eapply apply_shared_by_value_stays_shared_free; [exact Hsc | exact H | exact Hpop].
  - injection H as <-. rewrite (dict_pop_absent _ _ Hget) in Hpop. exact Hpop.
Qed.

(** X14. Where the removal is complete: in a tree whose Shared Sections
    hold scalar defaults, when the reserved key occurs only in the
    Mappings that [apply_inheritance] visits and no pattern names it as
    its target, a successful [apply_inheritance] leaves no Mapping with
    the reserved key anywhere in the tree. *)
Theorem resolution_removes_visited_shared_sections (root root' : node) :
  scalar_defaults root = true ->
  scoped root = true ->
  apply_inheritance root = (Returned, root') ->
  shared_free root' = true.
Proof.
  intros Hsd Hsc H.
  rewrite (by_value_is_exact root Hsd) in H.
  exact (by_value_removes_shared_sections root root' Hsc H).
Qed.

Lemma resolution_removes_visited_shared_sections_witness :
  shared_free precedence_resolved = true.
Proof.
  apply (resolution_removes_visited_shared_sections precedence_example).
  - reflexivity.
  - reflexivity.
  - reflexivity.
Defined.
